(** * Orbital simulator: a shallow embedding of the physics backend

    The development follows the Python package [backend/physics]:
    [vector3d.py], [constants.py], [gravity.py], [kepler.py] and
    [simulator.py].  Floating-point numbers are idealised as real numbers
    ([R]); everything proved here is a statement in exact real arithmetic.

    Conventions of the embedding.
    - A Python [float] is a real number.  [Vector3D.__truediv__] and the
      division of two Python floats ([float_div]) fault on a zero divisor
      ([ZeroDivisionError]); scalar divisions whose divisor
      is a NumPy float (the result of [np.sqrt] and everything computed
      from it) never raise in the source and are written with [Rdiv].
      Where NumPy would produce an infinity or a NaN (a zero divisor, the
      square root of a negative number, an [arccos] outside [-1, 1]) the
      real-number functions return some real number instead; nothing
      proved below depends on the value at such a point.  The only
      infinity that the source writes itself, [float('inf')] for the
      period of an unbound orbit, has a constructor of its own.
    - [CelestialBody] objects are mutable and shared by reference; they
      live in a heap (a list indexed by allocation order) and the
      simulator holds references ([nat]) into it.  The Python test
      [a is b] is equality of references.
    - Code that mutates state or raises runs in a small monad that threads
      the simulator, the raised exception if any, and a ghost log of the
      acceleration evaluations that were performed. *)

From Stdlib Require Import Reals Lra Lia.
From stdpp Require Import base option list strings gmap.

Open Scope R_scope.

(** ** Exceptions and fallible results *)

Inductive exn : Type :=
| ZeroDivisionError
| IndexError
| KeyError (key : string).

Inductive result (A : Type) : Type :=
| Ok (a : A)
| Raise (e : exn).
Arguments Ok {A} a.
Arguments Raise {A} e.

#[global] Instance result_ret : MRet result := λ A a, Ok a.
#[global] Instance result_fmap : FMap result := λ A B f r,
  match r with
  | Ok a => Ok (f a)
  | Raise e => Raise e
  end.
#[global] Instance result_bind : MBind result := λ A B f r,
  match r with
  | Ok a => f a
  | Raise e => Raise e
  end.

(** ** constants.py *)

Module Constants.
Definition G : R := 6.67430e-11.
Definition SOLAR_MASS : R := 1.989e30.
Definition AU : R := 1.496e11.
Definition DEFAULT_TIME_STEP : R := 3600.
End Constants.
Import Constants.

(** ** NumPy functions used by the package *)

Definition np_degrees (a : R) : R := a * (180 / PI).
Definition np_radians (a : R) : R := a * (PI / 180).

(** [np.arctan2 y x]: the angle of the point [(x, y)], in (-PI, PI]. *)
Definition np_arctan2 (y x : R) : R :=
  if Rlt_dec 0 x then atan (y / x)
  else if Rlt_dec x 0 then
         (if Rle_dec 0 y then atan (y / x) + PI else atan (y / x) - PI)
  else if Rlt_dec 0 y then PI / 2
  else if Rlt_dec y 0 then - (PI / 2)
  else 0.

(** ** vector3d.py *)

Record Vector3D : Type := Vec3 { x : R; y : R; z : R }.

Definition vadd (self other : Vector3D) : Vector3D :=
  Vec3 (x self + x other) (y self + y other) (z self + z other).

Definition vsub (self other : Vector3D) : Vector3D :=
  Vec3 (x self - x other) (y self - y other) (z self - z other).

Definition vmul (self : Vector3D) (scalar : R) : Vector3D :=
  Vec3 (x self * scalar) (y self * scalar) (z self * scalar).

(** [__truediv__]: division of the components by a scalar; a zero
    scalar is a fault. *)
Definition truediv (self : Vector3D) (scalar : R) : result Vector3D :=
  if Req_dec_T scalar 0 then Raise ZeroDivisionError
  else Ok (Vec3 (x self / scalar) (y self / scalar) (z self / scalar)).

Definition magnitude (self : Vector3D) : R :=
  sqrt (x self ^ 2 + y self ^ 2 + z self ^ 2).

Definition normalize (self : Vector3D) : result Vector3D :=
  let mag := magnitude self in
  if Req_dec_T mag 0 then Ok (Vec3 0 0 0)
  else truediv self mag.

Definition dot (self other : Vector3D) : R :=
  x self * x other + y self * y other + z self * z other.

Definition cross (self other : Vector3D) : Vector3D :=
  Vec3 (y self * z other - z self * y other)
       (z self * x other - x self * z other)
       (x self * y other - y self * x other).

Declare Scope vec_scope.
Delimit Scope vec_scope with V.
Bind Scope vec_scope with Vector3D.
Infix "+" := vadd : vec_scope.
Infix "-" := vsub : vec_scope.
Infix "*" := vmul : vec_scope.

Definition vzero : Vector3D := Vec3 0 0 0.

(** ** gravity.py: the body model *)

Record CelestialBody : Type := Body {
  name : string;
  mass : R;
  position : Vector3D;
  velocity : Vector3D;
  radius : R;
  color : string;
  trajectory : list Vector3D;
  acceleration : Vector3D
}.

(** [CelestialBody.__init__]: an empty trajectory and a zero
    acceleration. *)
Definition CelestialBody_init (name : string) (mass : R)
    (position velocity : Vector3D) (radius : R) (color : string)
  : CelestialBody :=
  Body name mass position velocity radius color [] (Vec3 0 0 0).

(** Attribute assignments [body.attr = v]. *)
Definition with_position (p : Vector3D) (b : CelestialBody) : CelestialBody :=
  Body (name b) (mass b) p (velocity b) (radius b) (color b)
       (trajectory b) (acceleration b).

Definition with_velocity (v : Vector3D) (b : CelestialBody) : CelestialBody :=
  Body (name b) (mass b) (position b) v (radius b) (color b)
       (trajectory b) (acceleration b).

Definition with_acceleration (a : Vector3D) (b : CelestialBody) : CelestialBody :=
  Body (name b) (mass b) (position b) (velocity b) (radius b) (color b)
       (trajectory b) a.

Definition with_trajectory (t : list Vector3D) (b : CelestialBody) : CelestialBody :=
  Body (name b) (mass b) (position b) (velocity b) (radius b) (color b)
       t (acceleration b).

Definition calculate_gravitational_force (self other : CelestialBody)
  : result Vector3D :=
  let r_vector := (position other - position self)%V in
  let r := magnitude r_vector in
  if Rlt_dec r 1e-6 then Ok (Vec3 0 0 0)
  else
    r_hat ← normalize r_vector;
    let force_magnitude := G * mass self * mass other / (r * r) in
    let force := (r_hat * force_magnitude)%V in
    Ok force.

Definition create_sun : CelestialBody :=
  CelestialBody_init "Sun" SOLAR_MASS (Vec3 0 0 0) (Vec3 0 0 0) 6.96e8 "#FFD700".

(** *** The heap of body objects *)

(** A reference to a body object: its index in the heap. *)
Abbreviation ref := nat (only parsing).

(** What [h !!! r] returns for a reference [r] that was never allocated.
    The references held by a simulator are all allocated (see
    [well_formed] below), so this object is never read by the source. *)
#[global] Instance CelestialBody_inhabited : Inhabited CelestialBody :=
  populate (CelestialBody_init "" 0 vzero vzero 0 "").

(** Ghost event: one evaluation of [calculate_acceleration] by the body
    [ev_self], together with the position of every element of its
    [bodies] argument at the moment of the call. *)
Record event : Type := AccelEval {
  ev_self : ref;
  ev_seen : list Vector3D
}.

(** ** The state-and-exception monad

    A computation maps a state to its result (a value or a raised
    exception), the state it leaves behind (also when it raises: Python
    does not roll mutations back) and the evaluations it performed. *)

Record Run (S A : Type) : Type := MkRun {
  outcome : result A;
  state_after : S;
  evals : list event
}.
Arguments MkRun {S A} _ _ _.
Arguments outcome {S A} _.
Arguments state_after {S A} _.
Arguments evals {S A} _.

Definition M (S A : Type) : Type := S -> Run S A.

Definition ret {S A} (a : A) : M S A := λ s, MkRun (Ok a) s [].

Definition bind {S A B} (m : M S A) (f : A -> M S B) : M S B := λ s,
  let r := m s in
  match outcome r with
  | Ok a =>
      let r' := f a (state_after r) in
      MkRun (outcome r') (state_after r') (evals r ++ evals r')
  | Raise e => MkRun (Raise e) (state_after r) (evals r)
  end.

Definition get {S} : M S S := λ s, MkRun (Ok s) s [].
Definition put {S} (s' : S) : M S unit := λ _, MkRun (Ok tt) s' [].
Definition modify {S} (f : S -> S) : M S unit := λ s, MkRun (Ok tt) (f s) [].
Definition tell {S} (e : event) : M S unit := λ s, MkRun (Ok tt) s [e].

(** A pure fallible computation, run inside the monad. *)
Definition lift {S A} (r : result A) : M S A := λ s, MkRun r s [].

Notation "'do' x <- m ; k" := (bind m (λ x, k))
  (at level 10, x name, m at level 100, k at level 200,
   format "'[v' 'do'  x  <-  m ; '/' k ']'").
Notation "m ;;; k" := (bind m (λ _, k))
  (at level 100, k at level 200, right associativity).

(** [for a in l: body a] *)
Fixpoint for_each {S A} (l : list A) (body : A -> M S unit) : M S unit :=
  match l with
  | [] => ret tt
  | a :: l' => body a ;;; for_each l' body
  end.

(** *** Body methods that read or write the heap *)

Abbreviation Heap := (list CelestialBody) (only parsing).

Definition positions_of (h : Heap) (bodies : list ref) : list Vector3D :=
  (λ b, position (h !!! b)) <$> bodies.

(** The loop of [calculate_acceleration]: the forces of the other bodies
    on [self], added up. *)
Fixpoint sum_forces (h : Heap) (self : ref) (bodies : list ref)
    (total_force : Vector3D) : result Vector3D :=
  match bodies with
  | [] => Ok total_force
  | body :: rest =>
      if decide (body = self) then sum_forces h self rest total_force
      else
        force ← calculate_gravitational_force (h !!! self) (h !!! body);
        sum_forces h self rest (total_force + force)%V
  end.

(** [calculate_acceleration], a method of the object [self].  The [tell]
    is ghost: it records the positions that the loop is about to read. *)
Definition calculate_acceleration (self : ref) (bodies : list ref)
  : M Heap Vector3D :=
  do h <- get;
  tell (AccelEval self (positions_of h bodies)) ;;;
  do total_force <- lift (sum_forces h self bodies (Vec3 0 0 0));
  do acceleration <- lift (truediv total_force (mass (h !!! self)));
  put (<[self := with_acceleration acceleration (h !!! self)]> h) ;;;
  ret acceleration.

(** The dictionary built by [to_dict]; the trajectory is not part of it. *)
Record BodyDict : Type := MkBodyDict {
  d_name : string;
  d_mass : R;
  d_position : Vector3D;
  d_velocity : Vector3D;
  d_radius : R;
  d_color : string;
  d_acceleration : Vector3D
}.

Definition to_dict (self : CelestialBody) : BodyDict :=
  MkBodyDict (name self) (mass self) (position self) (velocity self)
             (radius self) (color self) (acceleration self).

(** ** kepler.py *)

(** A float that may be [float('inf')]. *)
Inductive xfloat : Type :=
| Finite (r : R)
| Infinity.

(** The dictionary returned by [calculate_orbital_elements]; its keys are
    fixed, so it is a record. *)
Record OrbitalElements : Type := MkElements {
  semi_major_axis : R;
  eccentricity : R;
  inclination : R;
  longitude_of_ascending_node : R;
  argument_of_periapsis : R;
  true_anomaly : R;
  period : xfloat;
  periapsis : option R;
  apoapsis : option R
}.

(** The local variables of [calculate_orbital_elements] that the returned
    dictionary is built from (angles in radians, as computed). *)
Record OrbitLocals : Type := MkLocals {
  loc_a : R;
  loc_e : R;
  loc_i : R;
  loc_Omega : R;
  loc_omega : R;
  loc_nu : R;
  loc_period : xfloat
}.

(** Lines 22-80 of [calculate_orbital_elements]. *)
Definition orbit_locals (position velocity : Vector3D) (sun_mass : R)
  : result OrbitLocals :=
  let mu := G * sun_mass in
  let r := magnitude position in
  let v := magnitude velocity in
  let h_vector := cross position velocity in
  let h := magnitude h_vector in
  let energy := 0.5 * v * v - mu / r in
  let a :=
    if Rge_dec energy 0 then - mu / (2 * energy)
    else - mu / (2 * energy) in
  q ← truediv (cross velocity h_vector) mu;
  r_hat ← normalize position;
  let e_vector := (q - r_hat)%V in
  let e := magnitude e_vector in
  let i := if Rgt_dec h 0 then acos (z h_vector / h) else 0 in
  let n_vector := cross (Vec3 0 0 1) h_vector in
  let n := magnitude n_vector in
  let Omega :=
    if Rgt_dec n 0 then
      let Omega := acos (x n_vector / n) in
      if Rlt_dec (y n_vector) 0 then 2 * PI - Omega else Omega
    else 0 in
  let omega :=
    if Rgt_dec n 0 then
      if Rgt_dec e 0 then
        let omega := acos (dot n_vector e_vector / (n * e)) in
        if Rlt_dec (z e_vector) 0 then 2 * PI - omega else omega
      else 0
    else 0 in
  let nu :=
    if Rgt_dec e 0 then
      let nu := acos (dot e_vector position / (e * r)) in
      if Rlt_dec (dot position velocity) 0 then 2 * PI - nu else nu
    else 0 in
  let period :=
    if Rgt_dec a 0 then Finite (2 * PI * sqrt (a ^ 3 / mu))
    else Infinity in
  Ok (MkLocals a e i Omega omega nu period).

(** The whole function: the locals, then the [return] of lines 82-92. *)
Definition calculate_orbital_elements (position velocity : Vector3D)
    (sun_mass : R) : result OrbitalElements :=
  l ← orbit_locals position velocity sun_mass;
  let a := loc_a l in
  let e := loc_e l in
  Ok {| semi_major_axis := a;
        eccentricity := e;
        inclination := np_degrees (loc_i l);
        longitude_of_ascending_node := np_degrees (loc_Omega l);
        argument_of_periapsis := np_degrees (loc_omega l);
        true_anomaly := np_degrees (loc_nu l);
        period := loc_period l;
        periapsis := if Rlt_dec e 1 then Some (a * (1 - e)) else None;
        apoapsis := if Rlt_dec e 1 then Some (a * (1 + e)) else None |}.

(** The [for] loop of [kepler_equation_solver], [n] iterations left. *)
Fixpoint kepler_iterate (n : nat) (mean_anomaly eccentricity tolerance E : R)
  : R :=
  match n with
  | O => E
  | S n' =>
      let E_new := mean_anomaly + eccentricity * sin E in
      if Rlt_dec (Rabs (E_new - E)) tolerance then E_new
      else kepler_iterate n' mean_anomaly eccentricity tolerance E_new
  end.

Definition kepler_equation_solver (mean_anomaly eccentricity : R)
    (tolerance : R) (max_iterations : nat) : R :=
  if Rlt_dec eccentricity 1e-6 then mean_anomaly
  else kepler_iterate max_iterations mean_anomaly eccentricity tolerance
                      mean_anomaly.

(** [d[key]] on a dictionary of floats: a missing key is a [KeyError]. *)
Definition getitem (d : gmap string R) (key : string) : result R :=
  match d !! key with
  | Some v => Ok v
  | None => Raise (KeyError key)
  end.

(** Division of two Python floats: a zero divisor is a fault. *)
Definition float_div (a b : R) : result R :=
  if Req_dec_T b 0 then Raise ZeroDivisionError else Ok (a / b).

(** The entries of the dictionary are Python floats, so the quotient
    [mu / (a**3)] of line 153 faults for a zero semi-major axis. *)
Definition predict_position_from_elements (orbital_elements : gmap string R)
    (time : R) (sun_mass : R) : result Vector3D :=
  a ← getitem orbital_elements "semi_major_axis";
  e ← getitem orbital_elements "eccentricity";
  i ← np_radians <$> getitem orbital_elements "inclination";
  Omega ← np_radians <$> getitem orbital_elements "longitude_of_ascending_node";
  omega ← np_radians <$> getitem orbital_elements "argument_of_periapsis";
  let mu := G * sun_mass in
  q ← float_div mu (a ^ 3);
  let n := sqrt q in
  let M := n * time in
  let E := kepler_equation_solver M e 1e-10 100 in
  let nu := 2 * np_arctan2 (sqrt (1 + e) * sin (E / 2))
                           (sqrt (1 - e) * cos (E / 2)) in
  let r := a * (1 - e * cos E) in
  let x_orbital := r * cos nu in
  let y_orbital := r * sin nu in
  let x := x_orbital * cos Omega - y_orbital * sin Omega in
  let y := x_orbital * sin Omega + y_orbital * cos Omega in
  let z := r * sin nu * sin i in
  Ok (Vec3 x y z).

(** ** simulator.py *)

(** One entry of [trajectory_history]. *)
Record Snapshot : Type := MkSnapshot {
  snap_time : R;
  snap_bodies : list BodyDict
}.

Record OrbitalSimulator : Type := Sim {
  time_step : R;
  speed_multiplier : R;
  heap : Heap;
  bodies : list ref;
  sun : ref;
  time : R;
  is_running : bool;
  trajectory_history : list Snapshot;
  max_trajectory_points : nat
}.

(** Attribute assignments [self.attr = v]. *)
Definition with_heap (h : Heap) (s : OrbitalSimulator) : OrbitalSimulator :=
  Sim (time_step s) (speed_multiplier s) h (bodies s) (sun s) (time s)
      (is_running s) (trajectory_history s) (max_trajectory_points s).

Definition with_bodies (l : list ref) (s : OrbitalSimulator) : OrbitalSimulator :=
  Sim (time_step s) (speed_multiplier s) (heap s) l (sun s) (time s)
      (is_running s) (trajectory_history s) (max_trajectory_points s).

Definition with_time (t : R) (s : OrbitalSimulator) : OrbitalSimulator :=
  Sim (time_step s) (speed_multiplier s) (heap s) (bodies s) (sun s) t
      (is_running s) (trajectory_history s) (max_trajectory_points s).

Definition with_is_running (b : bool) (s : OrbitalSimulator) : OrbitalSimulator :=
  Sim (time_step s) (speed_multiplier s) (heap s) (bodies s) (sun s) (time s)
      b (trajectory_history s) (max_trajectory_points s).

Definition with_trajectory_history (l : list Snapshot) (s : OrbitalSimulator)
  : OrbitalSimulator :=
  Sim (time_step s) (speed_multiplier s) (heap s) (bodies s) (sun s) (time s)
      (is_running s) l (max_trajectory_points s).

(** [OrbitalSimulator.__init__]: the Sun is the first object allocated. *)
Definition OrbitalSimulator_init (time_step speed_multiplier : R)
  : OrbitalSimulator :=
  {| time_step := time_step;
     speed_multiplier := speed_multiplier;
     heap := [create_sun];
     bodies := [0%nat];
     sun := 0%nat;
     time := 0;
     is_running := false;
     trajectory_history := [];
     max_trajectory_points := 1000 |}.

(** A body method run on the simulator's heap. *)
Definition on_heap {A} (m : M Heap A) : M OrbitalSimulator A := λ s,
  let r := m (heap s) in
  MkRun (outcome r) (with_heap (state_after r) s) (evals r).

(** Reading an object, and assigning to its attributes through [f]. *)
Definition deref (body : ref) : M OrbitalSimulator CelestialBody := λ s,
  MkRun (Ok (heap s !!! body)) s [].

Definition update (body : ref) (f : CelestialBody -> CelestialBody)
  : M OrbitalSimulator unit :=
  modify (λ s, with_heap (<[body := f (heap s !!! body)]> (heap s)) s).

(** Allocation of a new object: its reference is the next free index. *)
Definition new_body (b : CelestialBody) : M OrbitalSimulator ref := λ s,
  MkRun (Ok (length (heap s))) (with_heap (heap s ++ [b]) s) [].

Definition add_body (name : string) (mass : R) (position velocity : Vector3D)
    (radius : R) (color : string) : M OrbitalSimulator ref :=
  do body <- new_body (CelestialBody_init name mass position velocity radius color);
  modify (λ s, with_bodies (bodies s ++ [body]) s) ;;;
  ret body.

Definition add_body_from_parameters (name : string) (mass : R)
    (distance_from_sun initial_velocity angle : R)
    (radius : R) (color : string) : M OrbitalSimulator ref :=
  let distance_m := distance_from_sun * AU in
  let angle_rad := np_radians angle in
  let position :=
    Vec3 (distance_m * cos angle_rad) (distance_m * sin angle_rad) 0 in
  let velocity_angle := angle_rad + PI / 2 in
  let velocity :=
    Vec3 (initial_velocity * cos velocity_angle)
         (initial_velocity * sin velocity_angle) 0 in
  add_body name mass position velocity radius color.

(** [l.pop(0)]: an empty list is an [IndexError]. *)
Definition pop0 {A} (l : list A) : result (list A) :=
  match l with
  | [] => Raise IndexError
  | _ :: l' => Ok l'
  end.

(** [if len(l) < cap: l.append(v) else: l.pop(0); l.append(v)] *)
Definition push_bounded {A} (cap : nat) (l : list A) (v : A) : result (list A) :=
  if decide (length l < cap)%nat then Ok (l ++ [v])
  else l' ← pop0 l; Ok (l' ++ [v]).

(** First loop of [step] (lines 91-94), one iteration. *)
Definition step_accelerate (body : ref) : M OrbitalSimulator unit :=
  do s <- get;
  if decide (body = sun s) then ret tt
  else on_heap (calculate_acceleration body (bodies s)) ;;; ret tt.

(** Second loop of [step] (lines 97-119), one iteration. *)
Definition step_advance (dt : R) (body : ref) : M OrbitalSimulator unit :=
  do s <- get;
  if decide (body = sun s) then ret tt
  else
    do b <- deref body;
    let half_velocity := (velocity b + acceleration b * (dt / 2))%V in
    update body (with_position (position b + half_velocity * dt)%V) ;;;
    do new_acceleration <- on_heap (calculate_acceleration body (bodies s));
    update body (with_velocity (half_velocity + new_acceleration * (dt / 2))%V) ;;;
    update body (with_acceleration new_acceleration) ;;;
    do b <- deref body;
    do t <- lift (push_bounded (max_trajectory_points s) (trajectory b)
                               (Vec3 (x (position b)) (y (position b)) (z (position b))));
    update body (with_trajectory t).

Definition _store_state : M OrbitalSimulator unit :=
  do s <- get;
  let state :=
    MkSnapshot (time s)
      ((λ body, to_dict (heap s !!! body))
         <$> filter (λ body, body ≠ sun s) (bodies s)) in
  do l <- lift (push_bounded (max_trajectory_points s) (trajectory_history s) state);
  modify (with_trajectory_history l).

(** [step].  Both loops run over [self.bodies], an attribute that no
    loop body assigns. *)
Definition step : M OrbitalSimulator unit :=
  do s <- get;
  if negb (is_running s) then ret tt
  else
    let dt := time_step s * speed_multiplier s in
    for_each (bodies s) step_accelerate ;;;
    for_each (bodies s) (step_advance dt) ;;;
    modify (λ s, with_time (time s + dt) s) ;;;
    _store_state.

Definition start : M OrbitalSimulator unit := modify (with_is_running true).

Definition stop : M OrbitalSimulator unit := modify (with_is_running false).

Definition reset : M OrbitalSimulator unit :=
  modify (with_time 0) ;;;
  modify (with_is_running false) ;;;
  modify (λ s, with_bodies [sun s] s) ;;;
  modify (with_trajectory_history []) ;;;
  do s <- get;
  for_each (bodies s) (λ body, update body (with_trajectory [])).

(** [next((b for b in self.bodies if b.name == body_name), None)] *)
Definition find_by_name (s : OrbitalSimulator) (body_name : string)
  : option ref :=
  List.find (λ b, String.eqb (name (heap s !!! b)) body_name) (bodies s).

(** A query: it reads the state and leaves it as it is. *)
Definition get_orbital_elements (s : OrbitalSimulator) (body_name : string)
  : result (option OrbitalElements) :=
  match find_by_name s body_name with
  | None => Ok None
  | Some body =>
      if decide (body = sun s) then Ok None
      else
        Some <$> calculate_orbital_elements
                   (position (heap s !!! body))
                   (velocity (heap s !!! body))
                   (mass (heap s !!! sun s))
  end.

(** *** Reachable states

    The states of a simulator built by the constructor and driven through
    its methods.  A step that raises leaves its partial mutations behind,
    so the state after any call, successful or not, is reachable.  The
    queries ([get_state], [get_orbital_elements], [get_energy_analysis])
    read the state and assign nothing, so they lead to no further
    state. *)
Inductive reachable : OrbitalSimulator -> Prop :=
| reach_init ts sm :
    reachable (OrbitalSimulator_init ts sm)
| reach_add_body s name mass position velocity radius color :
    reachable s ->
    reachable (state_after (add_body name mass position velocity radius color s))
| reach_add_body_from_parameters s name mass distance v angle radius color :
    reachable s ->
    reachable (state_after
                 (add_body_from_parameters name mass distance v angle radius color s))
| reach_start s : reachable s -> reachable (state_after (start s))
| reach_stop s : reachable s -> reachable (state_after (stop s))
| reach_reset s : reachable s -> reachable (state_after (reset s))
| reach_step s : reachable s -> reachable (state_after (step s)).

(** [n] consecutive calls of [step]. *)
Fixpoint steps (n : nat) (s : OrbitalSimulator) : OrbitalSimulator :=
  match n with
  | O => s
  | S n' => state_after (step (steps n' s))
  end.

(** * Further functions of the package *)

(** ** vector3d.py: conversions *)

(** [to_dict]: the dictionary with the keys "x", "y" and "z". *)
Definition Vector3D_to_dict (self : Vector3D) : gmap string R :=
  <["x" := x self]> (<["y" := y self]> (<["z" := z self]> ∅)).

(** [from_dict]: [data.get(key, 0)] for each of the three keys. *)
Definition Vector3D_from_dict (data : gmap string R) : Vector3D :=
  Vec3 (default 0 (data !! "x")) (default 0 (data !! "y"))
       (default 0 (data !! "z")).

(** [to_array]: the array of the three components. *)
Definition to_array (self : Vector3D) : list R := [x self; y self; z self].

(** [arr[i]] on a one-dimensional array: an index past the end is an
    [IndexError]. *)
Definition getindex (arr : list R) (i : nat) : result R :=
  match arr !! i with
  | Some v => Ok v
  | None => Raise IndexError
  end.

(** [from_array]: [cls(arr[0], arr[1], arr[2])]. *)
Definition from_array (arr : list R) : result Vector3D :=
  a0 ← getindex arr 0;
  a1 ← getindex arr 1;
  a2 ← getindex arr 2;
  Ok (Vec3 a0 a1 a2).

(** [__rmul__]: [scalar * v] is [v.__mul__(scalar)]. *)
Definition vrmul (self : Vector3D) (scalar : R) : Vector3D := vmul self scalar.

(** ** gravity.py: the other methods of a body *)

Definition update_position (dt : R) (self : CelestialBody) : CelestialBody :=
  with_position (position self + velocity self * dt)%V self.

Definition update_velocity (dt : R) (self : CelestialBody) : CelestialBody :=
  with_velocity (velocity self + acceleration self * dt)%V self.

Definition get_kinetic_energy (self : CelestialBody) : R :=
  let v := magnitude (velocity self) in
  0.5 * mass self * v * v.

(** A float that may be [float('-inf')]. *)
Inductive nfloat : Type :=
| Real (r : R)
| MinusInfinity.

Definition get_potential_energy (self sun : CelestialBody) : nfloat :=
  let r_vector := (position self - position sun)%V in
  let r := magnitude r_vector in
  if Rlt_dec r 1e-6 then MinusInfinity
  else Real (- G * mass self * mass sun / r).

(** Float addition of a finite number and a number that may be minus
    infinity. *)
Definition add_nfloat (a : R) (b : nfloat) : nfloat :=
  match b with
  | Real r => Real (a + r)
  | MinusInfinity => MinusInfinity
  end.

Definition get_total_energy (self sun : CelestialBody) : nfloat :=
  add_nfloat (get_kinetic_energy self) (get_potential_energy self sun).

(** ** kepler.py: orbital velocity *)

(** [np.sqrt] of a negative number is [nan]; [sqrt] stands for it on
    numbers that are not negative. *)
Definition calculate_orbital_velocity (distance sun_mass : R)
    (circular : bool) : result R :=
  let mu := G * sun_mass in
  if circular then
    q ← float_div mu distance;
    Ok (sqrt q)
  else
    q2 ← float_div 2 distance;
    q1 ← float_div 1 distance;
    Ok (sqrt (mu * (q2 - q1))).

(** ** simulator.py and main.py: the queries *)

(** The dictionary returned by [get_state]. *)
Record StateDict : Type := MkStateDict {
  st_time : R;
  st_bodies : list BodyDict;
  st_is_running : bool
}.

Definition get_state (s : OrbitalSimulator) : StateDict :=
  MkStateDict (time s) ((λ body, to_dict (heap s !!! body)) <$> bodies s)
              (is_running s).

(** One value of the dictionary returned by [get_energy_analysis]. *)
Record EnergyReport : Type := MkEnergyReport {
  kinetic_energy : R;
  potential_energy : nfloat;
  total_energy : nfloat
}.

(** The report of the body [b] of the heap. *)
Definition energy_report (s : OrbitalSimulator) (b : ref) : EnergyReport :=
  let ke := get_kinetic_energy (heap s !!! b) in
  let pe := get_potential_energy (heap s !!! b) (heap s !!! sun s) in
  let total := get_total_energy (heap s !!! b) (heap s !!! sun s) in
  MkEnergyReport ke pe total.

(** [get_energy_analysis]: the loop assigns [analysis[body.name]] for
    every body but the Sun, in list order. *)
Definition get_energy_analysis (s : OrbitalSimulator)
  : gmap string EnergyReport :=
  fold_left
    (λ analysis body,
       if decide (body = sun s) then analysis
       else <[name (heap s !!! body) := energy_report s body]> analysis)
    (bodies s) ∅.

(** main.py, [get_trajectory]: [None] stands for the 404 response, the
    triple for the fields [body_name], [trajectory] and [point_count]. *)
Definition get_trajectory (s : OrbitalSimulator) (body_name : string)
  : option (string * list (gmap string R) * nat) :=
  match find_by_name s body_name with
  | None => None
  | Some body =>
      let trajectory := Vector3D_to_dict <$> trajectory (heap s !!! body) in
      Some (body_name, trajectory, length trajectory)
  end.

(** * Properties *)

(** ** Constants *)

Lemma G_pos : 0 < G.
Proof. unfold G; lra. Qed.

Lemma SOLAR_MASS_pos : 0 < SOLAR_MASS.
Proof. unfold SOLAR_MASS; lra. Qed.

(** ** Fallible results *)

Lemma result_bind_Ok {A B} (r : result A) (f : A -> result B) (a : A) :
  r = Ok a -> (r ≫= f) = f a.
Proof. intros ->. reflexivity. Qed.

(** ** Vectors *)

Lemma sum_squares_nonneg (a b c : R) : 0 <= a ^ 2 + b ^ 2 + c ^ 2.
Proof. nra. Qed.

Lemma magnitude_nonneg (v : Vector3D) : 0 <= magnitude v.
Proof. apply sqrt_pos. Qed.

Lemma magnitude_vzero : magnitude vzero = 0.
Proof.
  unfold magnitude, vzero; simpl.
  replace (0 * (0 * 1) + 0 * (0 * 1) + 0 * (0 * 1)) with 0 by ring.
  apply sqrt_0.
Qed.

(** Dividing the components by a positive number divides the magnitude
    by it. *)
Lemma magnitude_div (v : Vector3D) (s : R) :
  0 < s ->
  magnitude (Vec3 (x v / s) (y v / s) (z v / s)) = magnitude v / s.
Proof.
  intros Hs. unfold magnitude; simpl.
  replace (x v / s * (x v / s * 1) + y v / s * (y v / s * 1)
           + z v / s * (z v / s * 1))
    with ((x v * (x v * 1) + y v * (y v * 1) + z v * (z v * 1)) / (s * s))
    by (field; lra).
  rewrite sqrt_div_alt by nra.
  rewrite sqrt_square by lra. reflexivity.
Qed.

Lemma magnitude_3_4_0 : magnitude (Vec3 3 4 0) = 5.
Proof.
  unfold magnitude; simpl.
  replace (3 * (3 * 1) + 4 * (4 * 1) + 0 * (0 * 1)) with (5 * 5) by ring.
  apply sqrt_square; lra.
Qed.

Lemma truediv_nonzero (v : Vector3D) (s : R) :
  s <> 0 -> truediv v s = Ok (Vec3 (x v / s) (y v / s) (z v / s)).
Proof.
  intros Hs. unfold truediv.
  destruct (Req_dec_T s 0); [lra | reflexivity].
Qed.

Lemma truediv_zero (v : Vector3D) : truediv v 0 = Raise ZeroDivisionError.
Proof. unfold truediv. destruct (Req_dec_T 0 0); [reflexivity | lra]. Qed.

Lemma normalize_nonzero (v : Vector3D) :
  magnitude v <> 0 ->
  normalize v
  = Ok (Vec3 (x v / magnitude v) (y v / magnitude v) (z v / magnitude v)).
Proof.
  intros Hm. unfold normalize.
  destruct (Req_dec_T (magnitude v) 0); [lra |].
  now apply truediv_nonzero.
Qed.

Lemma normalize_zero_magnitude (v : Vector3D) :
  magnitude v = 0 -> normalize v = Ok (Vec3 0 0 0).
Proof.
  intros Hm. unfold normalize.
  destruct (Req_dec_T (magnitude v) 0); [reflexivity | lra].
Qed.

(** [normalize] never faults. *)
Lemma normalize_total (v : Vector3D) : exists u, normalize v = Ok u.
Proof.
  destruct (Req_dec_T (magnitude v) 0) as [Hz | Hnz].
  - eexists. now apply normalize_zero_magnitude.
  - eexists. now apply normalize_nonzero.
Qed.

Lemma normalize_magnitude_one (v u : Vector3D) :
  magnitude v <> 0 -> normalize v = Ok u -> magnitude u = 1.
Proof.
  intros Hm Hn. rewrite normalize_nonzero in Hn by assumption.
  injection Hn as <-.
  pose proof (magnitude_nonneg v).
  rewrite magnitude_div by lra. field; lra.
Qed.

(** C8.  [normalize] of a vector whose magnitude is not zero returns
    (without fault) a vector of magnitude exactly 1, and [normalize] of
    the zero vector returns the zero vector instead of faulting. *)
Theorem normalize_unit_or_zero :
  (forall v : Vector3D,
      magnitude v <> 0 ->
      exists u, normalize v = Ok u /\ magnitude u = 1)
  /\ normalize (Vec3 0 0 0) = Ok (Vec3 0 0 0).
Proof.
  split.
  - intros v Hm.
    destruct (normalize_total v) as [u Hu].
    exists u. split; [exact Hu |].
    eapply normalize_magnitude_one; eassumption.
  - apply normalize_zero_magnitude. apply magnitude_vzero.
Qed.

(** The 3-4-5 vector: its magnitude is 5 and its normalisation has
    magnitude 1. *)
Lemma normalize_unit_or_zero_witness :
  magnitude (Vec3 3 4 0) <> 0
  /\ exists u, normalize (Vec3 3 4 0) = Ok u /\ magnitude u = 1.
Proof.
  assert (H : magnitude (Vec3 3 4 0) <> 0) by (rewrite magnitude_3_4_0; lra).
  split; [exact H |].
  exact (proj1 normalize_unit_or_zero (Vec3 3 4 0) H).
Defined.

(** ** Gravitational force *)

Lemma force_below_epsilon (self other : CelestialBody) :
  magnitude (position other - position self) < 1e-6 ->
  calculate_gravitational_force self other = Ok (Vec3 0 0 0).
Proof.
  intros Hr. unfold calculate_gravitational_force.
  destruct (Rlt_dec _ _); [reflexivity | contradiction].
Qed.

Lemma force_above_epsilon (self other : CelestialBody) :
  let r_vector := (position other - position self)%V in
  let r := magnitude r_vector in
  ~ r < 1e-6 ->
  calculate_gravitational_force self other
  = Ok (Vec3 (x r_vector / r) (y r_vector / r) (z r_vector / r)
        * (G * mass self * mass other / (r * r)))%V.
Proof.
  intros r_vector r Hr. unfold calculate_gravitational_force.
  fold r_vector. fold r.
  destruct (Rlt_dec r 1e-6); [contradiction |].
  rewrite (result_bind_Ok _ _ _ (normalize_nonzero r_vector ltac:(fold r; lra))).
  reflexivity.
Qed.

(** The force between two bodies never faults. *)
Lemma force_total (self other : CelestialBody) :
  exists f, calculate_gravitational_force self other = Ok f.
Proof.
  destruct (Rlt_dec (magnitude (position other - position self)) 1e-6).
  - eexists. now apply force_below_epsilon.
  - eexists. now apply force_above_epsilon.
Qed.

(** C6.  For two bodies at separation [r = |position_other -
    position_self|]: below [1e-6] the force is the zero vector; otherwise
    it is [G * m1 * m2 / r^2] times the unit vector [r_hat] that points
    from [self] to [other] (the separation vector divided by [r]). *)
Theorem gravitational_force_law (self other : CelestialBody) :
  let r_vector := (position other - position self)%V in
  let r := magnitude r_vector in
  (r < 1e-6 ->
   calculate_gravitational_force self other = Ok (Vec3 0 0 0))
  /\ (r >= 1e-6 ->
      exists r_hat,
        normalize r_vector = Ok r_hat
        /\ r_hat = Vec3 (x r_vector / r) (y r_vector / r) (z r_vector / r)
        /\ magnitude r_hat = 1
        /\ calculate_gravitational_force self other
           = Ok (r_hat * (G * mass self * mass other / r ^ 2))%V).
Proof.
  intros r_vector r. split.
  - apply force_below_epsilon.
  - intros Hr.
    assert (Hnz : magnitude r_vector <> 0) by (fold r; lra).
    eexists. split; [now apply normalize_nonzero |].
    split; [reflexivity |]. split.
    + eapply normalize_magnitude_one; [exact Hnz | now apply normalize_nonzero].
    + rewrite force_above_epsilon by (fold r_vector; fold r; lra).
      fold r_vector. fold r. do 3 f_equal. simpl. ring.
Qed.

(** Two point masses used as concrete inputs. *)
Definition point_mass (m : R) (p : Vector3D) : CelestialBody :=
  CelestialBody_init "p" m p (Vec3 0 0 0) 0 "#ffffff".

Lemma vsub_origin (p : Vector3D) : (p - Vec3 0 0 0)%V = p.
Proof. destruct p; unfold vsub; simpl. f_equal; ring. Qed.

(** Coincident bodies feel no force; bodies 5 m apart attract each other
    along the unit vector between them. *)
Lemma gravitational_force_law_witness :
  calculate_gravitational_force (point_mass 1 (Vec3 0 0 0))
                                (point_mass 2 (Vec3 0 0 0))
  = Ok (Vec3 0 0 0)
  /\ exists r_hat,
      normalize (Vec3 3 4 0) = Ok r_hat
      /\ r_hat = Vec3 (3 / 5) (4 / 5) (0 / 5)
      /\ magnitude r_hat = 1
      /\ calculate_gravitational_force (point_mass 1 (Vec3 0 0 0))
                                       (point_mass 2 (Vec3 3 4 0))
         = Ok (r_hat * (G * 1 * 2 / 5 ^ 2))%V.
Proof.
  split.
  - apply (proj1 (gravitational_force_law (point_mass 1 (Vec3 0 0 0))
                                          (point_mass 2 (Vec3 0 0 0)))).
    unfold point_mass, CelestialBody_init. cbn [position].
    rewrite vsub_origin. fold vzero. rewrite magnitude_vzero. lra.
  - pose proof (proj2 (gravitational_force_law (point_mass 1 (Vec3 0 0 0))
                                               (point_mass 2 (Vec3 3 4 0)))) as H.
    cbv zeta in H. unfold point_mass, CelestialBody_init in H.
    cbn [position mass] in H.
    rewrite vsub_origin, magnitude_3_4_0 in H. cbn [x y z] in H.
    apply H. lra.
Defined.

(** ** Orbital elements *)

Lemma PI_pos : 0 < PI.
Proof. exact PI_RGT_0. Qed.


(** Ranges of an angle chosen by comparisons between [0], an [arccos]
    and its reflection [2 * PI - arccos]. *)
Ltac angle_range :=
  repeat match goal with
         | |- context [Rgt_dec ?a ?b] => destruct (Rgt_dec a b)
         | |- context [Rlt_dec ?a ?b] => destruct (Rlt_dec a b)
         end;
  try lra;
  match goal with
  | |- context [acos ?c] => pose proof (acos_bound c); lra
  end.

(** The locals are computed without fault as soon as [mu] is not zero;
    the four angles are radians in the ranges of [arccos] and of its
    reflection. *)
Lemma orbit_locals_ok (position velocity : Vector3D) (sun_mass : R) :
  sun_mass <> 0 ->
  exists l,
    orbit_locals position velocity sun_mass = Ok l
    /\ 0 <= loc_i l <= PI
    /\ 0 <= loc_Omega l <= 2 * PI
    /\ 0 <= loc_omega l <= 2 * PI
    /\ 0 <= loc_nu l <= 2 * PI
    /\ loc_a l
       = - (G * sun_mass)
         / (2 * (0.5 * magnitude velocity * magnitude velocity
                 - G * sun_mass / magnitude position))
    /\ loc_period l
       = (if Rgt_dec (loc_a l) 0
          then Finite (2 * PI * sqrt (loc_a l ^ 3 / (G * sun_mass)))
          else Infinity).
Proof.
  intros Hm.
  assert (Hmu : G * sun_mass <> 0) by (pose proof G_pos; nra).
  unfold orbit_locals.
  rewrite (result_bind_Ok _ _ _ (truediv_nonzero _ _ Hmu)).
  destruct (normalize_total position) as [r_hat Hr].
  rewrite (result_bind_Ok _ _ _ Hr).
  eexists. split; [reflexivity |].
  pose proof PI_pos as Hpi.
  cbn [loc_i loc_Omega loc_omega loc_nu loc_a loc_period].
  repeat split; try angle_range.
  destruct (Rge_dec _ 0); reflexivity.
Qed.



(** ** Position prediction *)



Lemma getitem_Some (d : gmap string R) (k : string) (v : R) :
  d !! k = Some v -> getitem d k = Ok v.
Proof. intros H. unfold getitem. now rewrite H. Qed.


Lemma float_div_nonzero (a b : R) : b <> 0 -> float_div a b = Ok (a / b).
Proof. intros H. unfold float_div. now destruct (Req_dec_T b 0). Qed.

Lemma float_div_zero (a : R) : float_div a 0 = Raise ZeroDivisionError.
Proof. unfold float_div. destruct (Req_dec_T 0 0); [reflexivity | lra]. Qed.

Lemma pow3_nonzero (a : R) : a <> 0 -> a ^ 3 <> 0.
Proof. intros H. now apply pow_nonzero. Qed.


(** A circular orbit of one astronomical unit in the reference plane. *)
Definition circular_elements : gmap string R :=
  <["semi_major_axis" := AU]>
    (<["eccentricity" := 0]>
       (<["inclination" := 0]>
          (<["longitude_of_ascending_node" := 0]> ∅))).


(** ** The monad: runs of composed computations *)

Lemma outcome_bind {S A B} (m : M S A) (f : A -> M S B) (s : S) :
  outcome (bind m f s)
  = match outcome (m s) with
    | Ok a => outcome (f a (state_after (m s)))
    | Raise e => Raise e
    end.
Proof. unfold bind. destruct (outcome (m s)); reflexivity. Qed.

Lemma state_after_bind {S A B} (m : M S A) (f : A -> M S B) (s : S) :
  state_after (bind m f s)
  = match outcome (m s) with
    | Ok a => state_after (f a (state_after (m s)))
    | Raise e => state_after (m s)
    end.
Proof. unfold bind. destruct (outcome (m s)); reflexivity. Qed.

Lemma evals_bind {S A B} (m : M S A) (f : A -> M S B) (s : S) :
  evals (bind m f s)
  = match outcome (m s) with
    | Ok a => evals (m s) ++ evals (f a (state_after (m s)))
    | Raise e => evals (m s)
    end.
Proof. unfold bind. destruct (outcome (m s)); reflexivity. Qed.

(** *** Frame reasoning

    [keeps m s]: run from [s], the computation [m] ends (normally or by
    raising) in a state related to [s] by [R], and every evaluation it
    performed satisfies [P]. *)
Section Frame.
Context {S : Type} (R : S -> S -> Prop) (P : S -> event -> Prop).
Hypothesis R_refl : forall s, R s s.
Hypothesis R_trans : forall s1 s2 s3, R s1 s2 -> R s2 s3 -> R s1 s3.
Hypothesis P_back : forall s s' ev, R s s' -> P s' ev -> P s ev.

Definition keeps {A} (m : M S A) (s : S) : Prop :=
  R s (state_after (m s)) /\ Forall (P s) (evals (m s)).

Lemma keeps_ret {A} (a : A) (s : S) : keeps (ret a) s.
Proof. split; [apply R_refl | constructor]. Qed.

Lemma keeps_lift {A} (r : result A) (s : S) : keeps (lift r) s.
Proof. split; [apply R_refl | constructor]. Qed.

Lemma keeps_modify (f : S -> S) (s : S) : R s (f s) -> keeps (modify f) s.
Proof. intros H. split; [exact H | constructor]. Qed.

Lemma keeps_bind {A B} (m : M S A) (f : A -> M S B) (s : S) :
  keeps m s ->
  (forall a, outcome (m s) = Ok a -> keeps (f a) (state_after (m s))) ->
  keeps (bind m f) s.
Proof.
  intros [HR HP] Hf. unfold keeps.
  rewrite state_after_bind, evals_bind.
  destruct (outcome (m s)) as [a | e]; [| split; assumption].
  destruct (Hf a eq_refl) as [HR' HP']. split.
  - eapply R_trans; eassumption.
  - apply Forall_app. split; [exact HP |].
    eapply Forall_impl; [exact HP' |].
    intros ev. apply P_back. exact HR.
Qed.

Lemma keeps_for_each {A} (l : list A) (body : A -> M S unit) (s : S) :
  (forall a s', a ∈ l -> R s s' -> keeps (body a) s') ->
  keeps (for_each l body) s.
Proof.
  revert s. induction l as [| a l IH]; intros s Hbody; cbn [for_each].
  - apply keeps_ret.
  - apply keeps_bind.
    + apply Hbody; [left | apply R_refl].
    + intros _ _. apply IH. intros a' s' Ha' Hs'.
      apply Hbody; [now right |].
      eapply R_trans; [| exact Hs'].
      apply (Hbody a s); [left | apply R_refl].
Qed.
End Frame.

(** ** Bounded buffers *)

(** The list after [push_bounded], when it does not fault. *)
Definition push_window {A} (cap : nat) (l : list A) (v : A) : list A :=
  if decide (length l < cap)%nat then l ++ [v] else tail l ++ [v].

Lemma push_bounded_ok {A} (cap : nat) (l : list A) (v : A) :
  (0 < cap)%nat -> push_bounded cap l v = Ok (push_window cap l v).
Proof.
  intros Hcap. unfold push_bounded, push_window.
  destruct (decide (length l < cap)%nat); [reflexivity |].
  destruct l; cbn in *; [lia | reflexivity].
Qed.

Lemma push_window_length {A} (cap : nat) (l : list A) (v : A) :
  (length l <= cap)%nat -> (0 < cap)%nat ->
  length (push_window cap l v)
  = if decide (length l < cap)%nat then S (length l) else cap.
Proof.
  intros Hl Hcap. unfold push_window.
  destruct (decide (length l < cap)%nat); rewrite length_app; cbn; [lia |].
  destruct l; cbn in *; lia.
Qed.

(** The last [n] elements of a list. *)
Definition lastn {A} (n : nat) (l : list A) : list A :=
  drop (length l - n) l.

Lemma lastn_all {A} (n : nat) (l : list A) :
  (length l <= n)%nat -> lastn n l = l.
Proof.
  intros H. unfold lastn. replace (length l - n)%nat with 0%nat by lia.
  reflexivity.
Qed.

(** Pushing into a window that is not over capacity keeps the last
    [cap] elements of the extended list. *)
Lemma push_window_lastn {A} (cap : nat) (l : list A) (v : A) :
  (length l <= cap)%nat -> (0 < cap)%nat ->
  push_window cap l v = lastn cap (l ++ [v]).
Proof.
  intros Hl Hcap. unfold push_window, lastn.
  rewrite length_app; cbn [length].
  destruct (decide (length l < cap)%nat).
  - replace (length l + 1 - cap)%nat with 0%nat by lia. reflexivity.
  - replace (length l + 1 - cap)%nat with 1%nat by lia.
    destruct l; cbn in *; [lia | reflexivity].
Qed.

Lemma lastn_app_lastn {A} (n : nat) (l1 l2 : list A) :
  lastn n (lastn n l1 ++ l2) = lastn n (l1 ++ l2).
Proof.
  unfold lastn. rewrite !length_app, length_drop.
  destruct (decide (length l1 <= n)%nat).
  - replace (length l1 - n)%nat with 0%nat by lia. cbn [drop].
    now rewrite Nat.sub_0_r.
  - set (k := (length l1 - n)%nat).
    assert (Hsplit : l1 ++ l2 = take k l1 ++ (drop k l1 ++ l2))
      by (now rewrite app_assoc, take_drop).
    rewrite Hsplit.
    rewrite (drop_app_ge (take k l1)) by (rewrite length_take; lia).
    f_equal. rewrite length_take. lia.
Qed.

(** ** Acceleration of a body, on the heap *)

Lemma sum_forces_total (h : Heap) (self : ref) (bodies : list ref)
    (total_force : Vector3D) :
  exists f, sum_forces h self bodies total_force = Ok f.
Proof.
  revert total_force.
  induction bodies as [| body rest IH]; intros total_force; cbn [sum_forces].
  - eauto.
  - destruct (decide (body = self)); [apply IH |].
    destruct (force_total (h !!! self) (h !!! body)) as [f Hf].
    rewrite Hf. apply IH.
Qed.

(** The force depends on the masses and positions only. *)
Lemma force_ext (b1 b2 c1 c2 : CelestialBody) :
  position b1 = position c1 -> mass b1 = mass c1 ->
  position b2 = position c2 -> mass b2 = mass c2 ->
  calculate_gravitational_force b1 b2 = calculate_gravitational_force c1 c2.
Proof.
  intros Hp1 Hm1 Hp2 Hm2. unfold calculate_gravitational_force.
  now rewrite Hp1, Hm1, Hp2, Hm2.
Qed.

Lemma sum_forces_ext (h h' : Heap) (self : ref) (bodies : list ref)
    (total_force : Vector3D) :
  (forall r, position (h !!! r) = position (h' !!! r)) ->
  (forall r, mass (h !!! r) = mass (h' !!! r)) ->
  sum_forces h self bodies total_force = sum_forces h' self bodies total_force.
Proof.
  intros Hp Hm. revert total_force.
  induction bodies as [| body rest IH]; intros total_force; cbn [sum_forces].
  - reflexivity.
  - destruct (decide (body = self)); [apply IH |].
    rewrite (force_ext (h !!! self) (h !!! body) (h' !!! self) (h' !!! body))
      by auto.
    destruct (calculate_gravitational_force _ _); [apply IH | reflexivity].
Qed.

(** The value computed by [calculate_acceleration] when it returns. *)
Definition net_force (h : Heap) (self : ref) (bodies : list ref) : Vector3D :=
  match sum_forces h self bodies (Vec3 0 0 0) with
  | Ok f => f
  | Raise _ => Vec3 0 0 0
  end.

Definition acceleration_of (h : Heap) (self : ref) (bodies : list ref)
  : Vector3D :=
  let f := net_force h self bodies in
  let m := mass (h !!! self) in
  Vec3 (x f / m) (y f / m) (z f / m).

Lemma acceleration_of_ext (h h' : Heap) (self : ref) (bodies : list ref) :
  (forall r, position (h !!! r) = position (h' !!! r)) ->
  (forall r, mass (h !!! r) = mass (h' !!! r)) ->
  acceleration_of h self bodies = acceleration_of h' self bodies.
Proof.
  intros Hp Hm. unfold acceleration_of, net_force.
  now rewrite (sum_forces_ext h h') , Hm by assumption.
Qed.

Lemma calculate_acceleration_run (self : ref) (bodies : list ref) (h : Heap) :
  mass (h !!! self) <> 0 ->
  calculate_acceleration self bodies h
  = MkRun (Ok (acceleration_of h self bodies))
          (<[self := with_acceleration (acceleration_of h self bodies)
                                        (h !!! self)]> h)
          [AccelEval self (positions_of h bodies)].
Proof.
  intros Hm. unfold acceleration_of, net_force.
  destruct (sum_forces_total h self bodies (Vec3 0 0 0)) as [f Hf].
  unfold calculate_acceleration, bind, get, tell, lift, put, ret.
  cbn [outcome state_after evals]. rewrite Hf.
  cbn [outcome state_after evals]. rewrite (truediv_nonzero _ _ Hm).
  reflexivity.
Qed.

Lemma calculate_acceleration_raise (self : ref) (bodies : list ref) (h : Heap) :
  mass (h !!! self) = 0 ->
  calculate_acceleration self bodies h
  = MkRun (Raise ZeroDivisionError) h
          [AccelEval self (positions_of h bodies)].
Proof.
  intros Hm.
  destruct (sum_forces_total h self bodies (Vec3 0 0 0)) as [f Hf].
  unfold calculate_acceleration, bind, get, tell, lift, put, ret.
  cbn [outcome state_after evals]. rewrite Hf.
  cbn [outcome state_after evals]. rewrite Hm, truediv_zero.
  reflexivity.
Qed.

(** ** What a step leaves unchanged *)

(** [step_frame s s']: from [s] to [s'] the configuration, the body list,
    the run flag and the set of objects are the same; the Sun object is
    untouched; no object changes name or mass; a trajectory within the
    capacity stays within it.  Time, history and the kinematic state of
    the other bodies may differ. *)
Record step_frame (s s' : OrbitalSimulator) : Prop := MkFrame {
  sf_time_step : time_step s' = time_step s;
  sf_speed_multiplier : speed_multiplier s' = speed_multiplier s;
  sf_bodies : bodies s' = bodies s;
  sf_sun : sun s' = sun s;
  sf_is_running : is_running s' = is_running s;
  sf_cap : max_trajectory_points s' = max_trajectory_points s;
  sf_length : length (heap s') = length (heap s);
  sf_sun_cell : heap s' !!! sun s = heap s !!! sun s;
  sf_mass : forall r, mass (heap s' !!! r) = mass (heap s !!! r);
  sf_name : forall r, name (heap s' !!! r) = name (heap s !!! r);
  sf_trajectory :
    forall r,
      (length (trajectory (heap s !!! r)) <= max_trajectory_points s)%nat ->
      (length (trajectory (heap s' !!! r)) <= max_trajectory_points s)%nat
}.

Lemma step_frame_refl (s : OrbitalSimulator) : step_frame s s.
Proof. constructor; auto. Qed.

Lemma step_frame_trans (s1 s2 s3 : OrbitalSimulator) :
  step_frame s1 s2 -> step_frame s2 s3 -> step_frame s1 s3.
Proof.
  intros H12 H23. destruct H12, H23. constructor; try congruence.
  intros r Hr. rewrite <- sf_cap0. apply sf_trajectory1.
  rewrite sf_cap0. now apply sf_trajectory0.
Qed.

(** Overwriting an object other than the Sun by one of the same name
    and mass, with a trajectory within the capacity. *)
Lemma step_frame_store (s : OrbitalSimulator) (body : ref) (c : CelestialBody) :
  body <> sun s ->
  mass c = mass (heap s !!! body) ->
  name c = name (heap s !!! body) ->
  ((length (trajectory (heap s !!! body)) <= max_trajectory_points s)%nat ->
   (length (trajectory c) <= max_trajectory_points s)%nat) ->
  step_frame s (with_heap (<[body := c]> (heap s)) s).
Proof.
  intros Hsun Hm Hn Ht.
  constructor; cbn [with_heap time_step speed_multiplier bodies sun is_running
                    max_trajectory_points heap]; try reflexivity.
  - apply length_insert.
  - now apply list_lookup_total_insert_ne.
  - intros r. rewrite list_lookup_total_insert.
    destruct (decide _) as [[-> _] |]; auto.
  - intros r. rewrite list_lookup_total_insert.
    destruct (decide _) as [[-> _] |]; auto.
  - intros r. rewrite list_lookup_total_insert.
    destruct (decide _) as [[-> _] |]; auto.
Qed.

Lemma with_heap_same (s : OrbitalSimulator) : with_heap (heap s) s = s.
Proof. now destruct s. Qed.

Lemma push_bounded_bound {A} (cap : nat) (l l' : list A) (v : A) :
  push_bounded cap l v = Ok l' ->
  (length l <= cap)%nat -> (length l' <= cap)%nat.
Proof.
  unfold push_bounded.
  destruct (decide (length l < cap)%nat) as [Hlt | Hge].
  - intros [= <-] _. rewrite length_app. cbn. lia.
  - destruct l as [| a l]; cbn; [discriminate |].
    intros [= <-] Hl. rewrite length_app. cbn. lia.
Qed.

(** The evaluations of a step are never those of the Sun. *)
Definition not_by_sun (s : OrbitalSimulator) (ev : event) : Prop :=
  ev_self ev <> sun s.

Lemma not_by_sun_back (s s' : OrbitalSimulator) (ev : event) :
  step_frame s s' -> not_by_sun s' ev -> not_by_sun s ev.
Proof. intros H. unfold not_by_sun. now rewrite (sf_sun _ _ H). Qed.

Abbreviation framed := (keeps step_frame not_by_sun).

Lemma framed_bind {A B} (m : M OrbitalSimulator A)
    (f : A -> M OrbitalSimulator B) (s : OrbitalSimulator) :
  framed m s ->
  (forall a, outcome (m s) = Ok a -> framed (f a) (state_after (m s))) ->
  framed (bind m f) s.
Proof.
  apply keeps_bind; [exact step_frame_trans | exact not_by_sun_back].
Qed.

Lemma framed_ret {A} (a : A) (s : OrbitalSimulator) : framed (ret a) s.
Proof. apply keeps_ret, step_frame_refl. Qed.

Lemma framed_read {A} (f : OrbitalSimulator -> result A) (s : OrbitalSimulator) :
  framed (λ s, MkRun (f s) s []) s.
Proof. split; [apply step_frame_refl | constructor]. Qed.

Lemma framed_update (body : ref) (f : CelestialBody -> CelestialBody)
    (s : OrbitalSimulator) :
  body <> sun s ->
  (forall c, mass (f c) = mass c) ->
  (forall c, name (f c) = name c) ->
  ((length (trajectory (heap s !!! body)) <= max_trajectory_points s)%nat ->
   (length (trajectory (f (heap s !!! body))) <= max_trajectory_points s)%nat) ->
  framed (update body f) s.
Proof.
  intros Hsun Hm Hn Ht. apply keeps_modify.
  apply step_frame_store; auto.
Qed.

Lemma framed_calculate_acceleration (body : ref) (l : list ref)
    (s : OrbitalSimulator) :
  body <> sun s ->
  framed (on_heap (calculate_acceleration body l)) s.
Proof.
  intros Hsun. unfold keeps, on_heap.
  destruct (Req_dec_T (mass (heap s !!! body)) 0) as [Hz | Hnz].
  - rewrite (calculate_acceleration_raise _ _ _ Hz).
    cbn [outcome state_after evals]. rewrite with_heap_same.
    split; [apply step_frame_refl |].
    constructor; [exact Hsun | constructor].
  - rewrite (calculate_acceleration_run _ _ _ Hnz).
    cbn [outcome state_after evals].
    split; [now apply step_frame_store |].
    constructor; [exact Hsun | constructor].
Qed.

Lemma framed_step_accelerate (body : ref) (s : OrbitalSimulator) :
  framed (step_accelerate body) s.
Proof.
  unfold step_accelerate.
  apply framed_bind; [apply (framed_read Ok) |].
  intros s0 [= <-]. change (state_after (get s)) with s.
  destruct (decide (body = sun s)); [apply framed_ret |].
  apply framed_bind; [now apply framed_calculate_acceleration |].
  intros. apply framed_ret.
Qed.

Lemma framed_step_advance (dt : R) (body : ref) (s : OrbitalSimulator) :
  framed (step_advance dt body) s.
Proof.
  unfold step_advance.
  apply framed_bind; [apply (framed_read Ok) |].
  intros s0 [= <-]. change (state_after (get s)) with s.
  destruct (decide (body = sun s)) as [| Hsun]; [apply framed_ret |].
  apply framed_bind; [apply (framed_read (λ s, Ok (heap s !!! body))) |].
  intros b [= <-]. change (state_after (deref body s)) with s.
  apply framed_bind; [apply framed_update; auto |].
  intros _ _.
  match goal with |- keeps _ _ _ ?st => set (s1 := st) end.
  apply framed_bind; [now apply framed_calculate_acceleration |].
  intros new_acceleration _.
  match goal with |- keeps _ _ _ ?st => set (s2 := st) end.
  apply framed_bind; [apply framed_update; auto |].
  intros _ _.
  match goal with |- keeps _ _ _ ?st => set (s3 := st) end.
  apply framed_bind; [apply framed_update; auto |].
  intros _ _.
  match goal with |- keeps _ _ _ ?st => set (s4 := st) end.
  apply framed_bind; [apply (framed_read (λ s, Ok (heap s !!! body))) |].
  intros b4 [= <-]. change (state_after (deref body s4)) with s4.
  apply framed_bind; [apply keeps_lift, step_frame_refl |].
  intros t Ht. unfold lift in Ht. cbn [outcome] in Ht.
  match goal with |- keeps _ _ _ ?st => change st with s4 end.
  apply framed_update; auto.
  intros Hlen. cbn [with_trajectory trajectory].
  eapply push_bounded_bound; [exact Ht | exact Hlen].
Qed.

Lemma framed_store_state (s : OrbitalSimulator) : framed _store_state s.
Proof.
  unfold _store_state.
  apply framed_bind; [apply (framed_read Ok) |].
  intros s0 [= <-]. change (state_after (get s)) with s.
  apply framed_bind; [apply keeps_lift, step_frame_refl |].
  intros l _. apply keeps_modify.
  match goal with |- step_frame ?st _ => change st with s end.
  constructor; auto.
Qed.

(** Whatever its outcome, a call of [step] keeps the frame and performs
    no evaluation for the Sun. *)
Lemma framed_step (s : OrbitalSimulator) : framed step s.
Proof.
  unfold step.
  apply framed_bind; [apply (framed_read Ok) |].
  intros s0 [= <-]. change (state_after (get s)) with s.
  destruct (is_running s); cbn [negb]; [| apply framed_ret].
  apply framed_bind.
  { apply keeps_for_each;
      [exact step_frame_refl | exact step_frame_trans | exact not_by_sun_back |].
    intros. apply framed_step_accelerate. }
  intros _ _. apply framed_bind.
  { apply keeps_for_each;
      [exact step_frame_refl | exact step_frame_trans | exact not_by_sun_back |].
    intros. apply framed_step_advance. }
  intros _ _. apply framed_bind.
  { apply keeps_modify. constructor; auto. }
  intros _ _. apply framed_store_state.
Qed.

(** ** The state machine: invariants of reachable states *)

Lemma add_body_run (name : string) (mass : R) (position velocity : Vector3D)
    (radius : R) (color : string) (s : OrbitalSimulator) :
  add_body name mass position velocity radius color s
  = MkRun (Ok (length (heap s)))
      (with_bodies (bodies s ++ [length (heap s)])
         (with_heap
            (heap s ++ [CelestialBody_init name mass position velocity radius color])
            s))
      [].
Proof. reflexivity. Qed.

Lemma reset_run (s : OrbitalSimulator) :
  reset s
  = MkRun (Ok tt)
      {| time_step := time_step s;
         speed_multiplier := speed_multiplier s;
         heap := <[sun s := with_trajectory [] (heap s !!! sun s)]> (heap s);
         bodies := [sun s];
         sun := sun s;
         time := 0;
         is_running := false;
         trajectory_history := [];
         max_trajectory_points := max_trajectory_points s |}
      [].
Proof. reflexivity. Qed.

Lemma step_stopped (s : OrbitalSimulator) :
  is_running s = false -> step s = MkRun (Ok tt) s [].
Proof.
  intros H. unfold step, bind, get. cbn [outcome state_after evals].
  rewrite H. reflexivity.
Qed.

(** The invariant of the simulator. *)
Record well_formed (s : OrbitalSimulator) : Prop := MkWf {
  wf_first : exists rest, bodies s = sun s :: rest;
  wf_sun_cell : heap s !!! sun s = create_sun;
  wf_refs : Forall (λ b, (b < length (heap s))%nat) (bodies s);
  wf_nodup : NoDup (bodies s);
  wf_cap : max_trajectory_points s = 1000%nat;
  wf_trajectory :
    forall b, (length (trajectory (heap s !!! b)) <= 1000)%nat
}.

(** A reference that was never allocated reads as the default object. *)
Lemma lookup_total_beyond (h : list CelestialBody) (r : nat) :
  (length h <= r)%nat -> h !!! r = inhabitant.
Proof.
  intros H. rewrite list_lookup_total_alt.
  now rewrite (lookup_ge_None_2 h r H).
Qed.

Lemma well_formed_sun_allocated (s : OrbitalSimulator) :
  well_formed s -> (sun s < length (heap s))%nat.
Proof.
  intros [[rest Hb] _ Hrefs _ _ _]. rewrite Hb in Hrefs.
  now apply Forall_cons in Hrefs as [? _].
Qed.

Lemma well_formed_init (ts sm : R) : well_formed (OrbitalSimulator_init ts sm).
Proof.
  constructor; cbn.
  - now exists [].
  - reflexivity.
  - repeat constructor.
  - apply NoDup_singleton.
  - reflexivity.
  - intros [| b]; [cbn; lia |].
    rewrite lookup_total_beyond by (cbn; lia). cbn. lia.
Qed.

Lemma well_formed_add_body (s : OrbitalSimulator) (c : CelestialBody) :
  trajectory c = [] ->
  well_formed s ->
  well_formed (with_bodies (bodies s ++ [length (heap s)])
                 (with_heap (heap s ++ [c]) s)).
Proof.
  intros Hc Hwf. pose proof (well_formed_sun_allocated s Hwf) as Hsun.
  destruct Hwf as [[rest Hb] Hcell Hrefs Hnd Hcap Htraj].
  constructor; cbn [with_bodies with_heap bodies heap sun max_trajectory_points].
  - exists (rest ++ [length (heap s)]). now rewrite Hb.
  - now rewrite lookup_total_app_l.
  - apply Forall_app. split.
    + eapply Forall_impl; [exact Hrefs |]. intros b Hlt.
      rewrite length_app. cbn in *. lia.
    + repeat constructor. rewrite length_app. cbn. lia.
  - apply NoDup_app. split; [exact Hnd |]. split; [| apply NoDup_singleton].
    intros b Hin ->%list_elem_of_singleton.
    rewrite Forall_forall in Hrefs. specialize (Hrefs _ Hin). cbn in Hrefs. lia.
  - exact Hcap.
  - intros b. destruct (decide (b < length (heap s))%nat) as [Hlt | Hge].
    + now rewrite lookup_total_app_l.
    + rewrite lookup_total_app_r by lia.
      destruct (b - length (heap s))%nat; [cbn; rewrite Hc; cbn; lia |].
      rewrite lookup_total_beyond by (cbn; lia). cbn. lia.
Qed.

Lemma well_formed_reset (s : OrbitalSimulator) :
  well_formed s -> well_formed (state_after (reset s)).
Proof.
  intros Hwf. pose proof (well_formed_sun_allocated s Hwf) as Hsun.
  destruct Hwf as [[rest Hb] Hcell Hrefs Hnd Hcap Htraj].
  rewrite reset_run. cbn [state_after].
  constructor; cbn [bodies heap sun max_trajectory_points].
  - now exists [].
  - rewrite list_lookup_total_insert_eq by assumption. now rewrite Hcell.
  - repeat constructor. now rewrite length_insert.
  - apply NoDup_singleton.
  - exact Hcap.
  - intros b. rewrite list_lookup_total_insert.
    destruct (decide _); [cbn; lia | apply Htraj].
Qed.

Lemma well_formed_frame (s s' : OrbitalSimulator) :
  well_formed s -> step_frame s s' -> well_formed s'.
Proof.
  intros [Hfirst Hcell Hrefs Hnd Hcap Htraj] F.
  constructor.
  - now rewrite (sf_bodies _ _ F), (sf_sun _ _ F).
  - now rewrite (sf_sun _ _ F), (sf_sun_cell _ _ F).
  - now rewrite (sf_bodies _ _ F), (sf_length _ _ F).
  - now rewrite (sf_bodies _ _ F).
  - now rewrite (sf_cap _ _ F).
  - intros b. rewrite <- Hcap. apply (sf_trajectory _ _ F).
    rewrite Hcap. apply Htraj.
Qed.

Lemma well_formed_flag (s : OrbitalSimulator) (b : bool) :
  well_formed s -> well_formed (with_is_running b s).
Proof. intros [? ? ? ? ? ?]. constructor; assumption. Qed.

Lemma reachable_well_formed (s : OrbitalSimulator) :
  reachable s -> well_formed s.
Proof.
  induction 1 as [ts sm | s n m p v r c _ IH | s n m d v a r c _ IH
                  | s _ IH | s _ IH | s _ IH | s _ IH].
  - apply well_formed_init.
  - rewrite add_body_run. now apply well_formed_add_body.
  - unfold add_body_from_parameters. rewrite add_body_run.
    now apply well_formed_add_body.
  - now apply well_formed_flag.
  - now apply well_formed_flag.
  - now apply well_formed_reset.
  - eapply well_formed_frame; [exact IH |]. apply framed_step.
Qed.

(** *** Concrete simulators *)

(** A fresh simulator with the default step of one hour. *)
Definition fresh_simulator : OrbitalSimulator :=
  OrbitalSimulator_init DEFAULT_TIME_STEP 1.

(** The Earth at one astronomical unit, moving at 29780 m/s at right
    angle to the radius, in a running simulation. *)
Definition earth_simulator : OrbitalSimulator :=
  state_after
    (start
       (state_after
          (add_body "Earth" 5.972e24 (Vec3 AU 0 0) (Vec3 0 29780 0)
                    6.371e6 "#0000ff" fresh_simulator))).

Lemma earth_simulator_reachable : reachable earth_simulator.
Proof. apply reach_start, reach_add_body, reach_init. Qed.

(** C2.  In every reachable state the central body is the first element
    of the body list; it is the object created by [create_sun], named
    "Sun", at the origin with zero velocity; and a call of [step] performs
    no acceleration evaluation for it and leaves the object, its
    acceleration included, as it was. *)
Theorem sun_is_fixed_anchor (s : OrbitalSimulator) :
  reachable s ->
  (exists rest, bodies s = sun s :: rest)
  /\ (sun s < length (heap s))%nat
  /\ name (heap s !!! sun s) = "Sun"
  /\ position (heap s !!! sun s) = Vec3 0 0 0
  /\ velocity (heap s !!! sun s) = Vec3 0 0 0
  /\ acceleration (heap s !!! sun s) = Vec3 0 0 0
  /\ Forall (λ ev, ev_self ev <> sun s) (evals (step s))
  /\ heap (state_after (step s)) !!! sun s = heap s !!! sun s.
Proof.
  intros Hr. pose proof (reachable_well_formed s Hr) as Hwf.
  pose proof (well_formed_sun_allocated s Hwf) as Halloc.
  destruct Hwf as [Hfirst Hcell _ _ _ _].
  destruct (framed_step s) as [F Hev].
  rewrite Hcell. repeat split; try reflexivity; try assumption.
  transitivity (heap s !!! sun s); [apply (sf_sun_cell _ _ F) | exact Hcell].
Qed.

Lemma sun_is_fixed_anchor_witness :
  (exists rest, bodies earth_simulator = sun earth_simulator :: rest)
  /\ position (heap earth_simulator !!! sun earth_simulator) = Vec3 0 0 0
  /\ Forall (λ ev, ev_self ev <> sun earth_simulator)
            (evals (step earth_simulator)).
Proof.
  destruct (sun_is_fixed_anchor earth_simulator earth_simulator_reachable)
    as (H1 & _ & _ & H2 & _ & _ & H3 & _).
  auto.
Defined.

(** C3.  When [is_running] is false, [step] returns without raising,
    performs no evaluation and leaves the state - time, every body and
    its trajectory, the history - exactly as it was. *)
Theorem step_is_noop_when_stopped (s : OrbitalSimulator) :
  is_running s = false ->
  outcome (step s) = Ok tt
  /\ state_after (step s) = s
  /\ evals (step s) = [].
Proof. intros H. rewrite (step_stopped s H). auto. Qed.

Lemma step_is_noop_when_stopped_witness :
  state_after (step fresh_simulator) = fresh_simulator.
Proof.
  apply (step_is_noop_when_stopped fresh_simulator). reflexivity.
Defined.

(** C4.  From any state, [reset] returns with the body list reduced to
    the central body, time 0, the run flag off and an empty history, and
    a second [reset] changes nothing.  From a reachable state the object
    left in the list is the Sun as created, whose trajectory is empty. *)
Theorem reset_clears_and_is_idempotent (s : OrbitalSimulator) :
  let s' := state_after (reset s) in
  outcome (reset s) = Ok tt
  /\ bodies s' = [sun s']
  /\ time s' = 0
  /\ is_running s' = false
  /\ trajectory_history s' = []
  /\ reset s' = MkRun (Ok tt) s' []
  /\ (reachable s ->
      heap s' !!! sun s' = create_sun
      /\ forall b, b ∈ bodies s' -> trajectory (heap s' !!! b) = []).
Proof.
  intros s'. subst s'. rewrite (reset_run s). cbn [outcome state_after].
  repeat split.
  - rewrite reset_run.
    cbn [time_step speed_multiplier heap bodies sun max_trajectory_points].
    do 2 f_equal.
    destruct (decide (sun s < length (heap s))%nat) as [Hlt | Hge].
    + rewrite list_lookup_total_insert_eq by assumption.
      cbn. now rewrite list_insert_insert_eq.
    + now rewrite !list_insert_ge by (rewrite ?length_insert; lia).
  - pose proof (well_formed_reset s (reachable_well_formed s H)) as Hwf.
    rewrite reset_run in Hwf. apply (wf_sun_cell _ Hwf).
  - intros b Hb. cbn [bodies heap] in Hb |- *.
    apply list_elem_of_singleton in Hb as ->.
    pose proof (well_formed_reset s (reachable_well_formed s H)) as Hwf.
    rewrite reset_run in Hwf. pose proof (wf_sun_cell _ Hwf) as Hcell.
    cbn [state_after heap sun] in Hcell. now rewrite Hcell.
Qed.

Lemma reset_clears_and_is_idempotent_witness :
  heap (state_after (reset earth_simulator))
    !!! sun (state_after (reset earth_simulator)) = create_sun
  /\ forall b,
      b ∈ bodies (state_after (reset earth_simulator)) ->
      trajectory (heap (state_after (reset earth_simulator)) !!! b) = [].
Proof.
  apply (reset_clears_and_is_idempotent earth_simulator).
  exact earth_simulator_reachable.
Defined.

(** ** Orbital elements of a named body *)

Lemma calculate_orbital_elements_total (p v : Vector3D) (m : R) :
  m <> 0 -> exists el, calculate_orbital_elements p v m = Ok el.
Proof.
  intros Hm. destruct (orbit_locals_ok p v m Hm) as (l & Hl & _).
  unfold calculate_orbital_elements. rewrite (result_bind_Ok _ _ _ Hl).
  eauto.
Qed.

(** C9.  In a reachable state [get_orbital_elements] never raises.  It
    returns [None] exactly when no body of the list has the requested
    name or the name is that of the central body; otherwise it returns
    the elements computed by [calculate_orbital_elements] from the
    current position and velocity of the first body of that name and
    from the mass of the central body. *)
Theorem get_orbital_elements_not_found_iff (s : OrbitalSimulator)
    (body_name : string) :
  reachable s ->
  exists r,
    get_orbital_elements s body_name = Ok r
    /\ (r = None <->
        (forall b, b ∈ bodies s -> name (heap s !!! b) <> body_name)
        \/ body_name = name (heap s !!! sun s))
    /\ (forall el,
           r = Some el ->
           exists body,
             find_by_name s body_name = Some body
             /\ body ∈ bodies s
             /\ body <> sun s
             /\ name (heap s !!! body) = body_name
             /\ calculate_orbital_elements
                  (position (heap s !!! body))
                  (velocity (heap s !!! body))
                  (mass (heap s !!! sun s))
                = Ok el).
Proof.
  intros Hr. pose proof (reachable_well_formed s Hr) as Hwf.
  destruct Hwf as [[rest Hb] Hcell _ _ _ _].
  unfold get_orbital_elements, find_by_name. rewrite Hb. cbn [find].
  destruct (String.eqb (name (heap s !!! sun s)) body_name) eqn:E.
  - apply String.eqb_eq in E.
    case_decide; [| congruence].
    exists None. split; [reflexivity |]. split; [| discriminate].
    split; auto.
  - apply String.eqb_neq in E.
    destruct (find _ rest) as [b |] eqn:F.
    + apply find_some in F as [Hin Hname]. apply String.eqb_eq in Hname.
      assert (Hne : b <> sun s) by (intros ->; contradiction).
      case_decide; [contradiction |].
      assert (Hmass : mass (heap s !!! sun s) <> 0)
        by (rewrite Hcell; cbn; pose proof SOLAR_MASS_pos; lra).
      destruct (calculate_orbital_elements_total
                  (position (heap s !!! b)) (velocity (heap s !!! b))
                  (mass (heap s !!! sun s)) Hmass) as [el Hel].
      rewrite Hel. exists (Some el). split; [reflexivity |].
      assert (Hmem : b ∈ sun s :: rest)
        by (apply list_elem_of_In; right; exact Hin).
      split.
      * split; [discriminate |].
        intros [Hnone | Hsun]; [| congruence].
        exfalso. exact (Hnone b Hmem Hname).
      * intros el' [= <-]. exists b. auto.
    + exists None. split; [reflexivity |]. split; [| discriminate].
      split; [| reflexivity]. intros _. left.
      intros b [<- | Hin]%list_elem_of_In; [exact E |].
      apply String.eqb_neq. exact (find_none _ _ F b Hin).
Qed.

(** "Mars" was never added; "Earth" is found and has elements; "Sun" is
    the central body. *)
Lemma get_orbital_elements_not_found_iff_witness :
  (exists r, get_orbital_elements earth_simulator "Mars" = Ok r)
  /\ (exists r, get_orbital_elements earth_simulator "Earth" = Ok r)
  /\ (exists r, get_orbital_elements earth_simulator "Sun" = Ok r).
Proof.
  repeat split.
  - destruct (get_orbital_elements_not_found_iff earth_simulator "Mars"
                earth_simulator_reachable) as (r & Hr & _).
    eauto.
  - destruct (get_orbital_elements_not_found_iff earth_simulator "Earth"
                earth_simulator_reachable) as (r & Hr & _).
    eauto.
  - destruct (get_orbital_elements_not_found_iff earth_simulator "Sun"
                earth_simulator_reachable) as (r & Hr & _).
    eauto.
Defined.

(** ** One step, in closed form *)

(** The kinematics of lines 102-105. *)
Definition half_velocity (dt : R) (b : CelestialBody) : Vector3D :=
  (velocity b + acceleration b * (dt / 2))%V.

Definition advanced_position (dt : R) (b : CelestialBody) : Vector3D :=
  (position b + half_velocity dt b * dt)%V.

(** The object [b] after its iteration of the second loop, [a] being the
    acceleration evaluated at its new position. *)
Definition advanced (dt : R) (cap : nat) (a : Vector3D) (b : CelestialBody)
  : CelestialBody :=
  Body (name b) (mass b) (advanced_position dt b)
       (half_velocity dt b + a * (dt / 2))%V
       (radius b) (color b)
       (push_window cap (trajectory b) (advanced_position dt b)) a.

Lemma step_accelerate_sun (s : OrbitalSimulator) :
  step_accelerate (sun s) s = MkRun (Ok tt) s [].
Proof.
  unfold step_accelerate, bind, get. cbn [outcome state_after evals].
  case_decide; [reflexivity | congruence].
Qed.

Lemma step_accelerate_run (body : ref) (s : OrbitalSimulator) :
  body <> sun s ->
  mass (heap s !!! body) <> 0 ->
  step_accelerate body s
  = MkRun (Ok tt)
      (with_heap
         (<[body := with_acceleration (acceleration_of (heap s) body (bodies s))
                                       (heap s !!! body)]> (heap s)) s)
      [AccelEval body (positions_of (heap s) (bodies s))].
Proof.
  intros Hsun Hm.
  unfold step_accelerate, bind, get, on_heap. cbn [outcome state_after evals].
  case_decide; [contradiction |].
  rewrite (calculate_acceleration_run _ _ _ Hm).
  reflexivity.
Qed.

Lemma step_accelerate_raise (body : ref) (s : OrbitalSimulator) :
  body <> sun s ->
  mass (heap s !!! body) = 0 ->
  step_accelerate body s
  = MkRun (Raise ZeroDivisionError) s
      [AccelEval body (positions_of (heap s) (bodies s))].
Proof.
  intros Hsun Hm.
  unfold step_accelerate, bind, get, on_heap. cbn [outcome state_after evals].
  case_decide; [contradiction |].
  rewrite (calculate_acceleration_raise _ _ _ Hm).
  cbn [outcome state_after evals]. now rewrite with_heap_same.
Qed.

Lemma step_advance_sun (dt : R) (s : OrbitalSimulator) :
  step_advance dt (sun s) s = MkRun (Ok tt) s [].
Proof.
  unfold step_advance, bind, get. cbn [outcome state_after evals].
  case_decide; [reflexivity | congruence].
Qed.


Lemma bind_run {S A B} (m : M S A) (f : A -> M S B) (s s1 s2 : S)
    (a : A) (l1 l2 : list event) (o : result B) :
  m s = MkRun (Ok a) s1 l1 ->
  f a s1 = MkRun o s2 l2 ->
  bind m f s = MkRun o s2 (l1 ++ l2).
Proof. intros Hm Hf. unfold bind. rewrite Hm. cbn. now rewrite Hf. Qed.

Lemma update_run (body : ref) (f : CelestialBody -> CelestialBody)
    (s : OrbitalSimulator) :
  update body f s
  = MkRun (Ok tt) (with_heap (<[body := f (heap s !!! body)]> (heap s)) s) [].
Proof. reflexivity. Qed.

Lemma step_advance_run (dt : R) (body : ref) (s : OrbitalSimulator) :
  body <> sun s ->
  mass (heap s !!! body) <> 0 ->
  (body < length (heap s))%nat ->
  (0 < max_trajectory_points s)%nat ->
  let b := heap s !!! body in
  let h1 := <[body := with_position (advanced_position dt b) b]> (heap s) in
  step_advance dt body s
  = MkRun (Ok tt)
      (with_heap
         (<[body := advanced dt (max_trajectory_points s)
                             (acceleration_of h1 body (bodies s)) b]> (heap s))
         s)
      [AccelEval body (positions_of h1 (bodies s))].
Proof.
  intros Hsun Hm Hlt Hcap b h1.
  assert (Hlt1 : (body < length h1)%nat)
    by (unfold h1; rewrite length_insert; exact Hlt).
  assert (Hb1 : h1 !!! body = with_position (advanced_position dt b) b)
    by (apply list_lookup_total_insert_eq; exact Hlt).
  assert (Hm1 : mass (h1 !!! body) <> 0) by (rewrite Hb1; exact Hm).
  unfold step_advance.
  etransitivity.
  { eapply bind_run; [reflexivity |]. cbn beta.
    case_decide; [contradiction |].
    eapply bind_run; [reflexivity |]. cbn beta.
    eapply bind_run; [apply update_run |]. cbn beta.
    cbn [heap with_heap bodies max_trajectory_points].
    fold b. fold (half_velocity dt b). fold (advanced_position dt b). fold h1.
    eapply bind_run.
    { unfold on_heap. cbn [heap with_heap].
      rewrite (calculate_acceleration_run _ _ _ Hm1).
      cbn [outcome state_after evals]. reflexivity. }
    cbn beta. rewrite Hb1.
    eapply bind_run; [apply update_run |]. cbn beta. cbn [heap with_heap].
    rewrite list_insert_insert_eq.
    rewrite (list_lookup_total_insert_eq h1) by exact Hlt1.
    eapply bind_run; [apply update_run |]. cbn beta. cbn [heap with_heap].
    rewrite list_insert_insert_eq.
    rewrite (list_lookup_total_insert_eq h1) by exact Hlt1.
    eapply bind_run; [reflexivity |]. cbn beta. cbn [heap with_heap].
    rewrite (list_lookup_total_insert_eq h1) by exact Hlt1.
    eapply bind_run.
    { unfold lift. rewrite (push_bounded_ok _ _ _ Hcap). reflexivity. }
    cbn beta. rewrite update_run. cbn [heap with_heap].
    rewrite list_insert_insert_eq.
    rewrite (list_lookup_total_insert_eq h1) by exact Hlt1.
    reflexivity. }
  f_equal. unfold with_heap.
  cbn [time_step speed_multiplier bodies sun time is_running
       trajectory_history max_trajectory_points].
  f_equal. unfold h1. rewrite list_insert_insert_eq. reflexivity.
Qed.

(** *** The first loop *)

(** Two heaps whose objects differ in their acceleration at most. *)
Definition same_but_acceleration (h h' : list CelestialBody) : Prop :=
  length h' = length h
  /\ forall r,
      with_acceleration (Vec3 0 0 0) (h' !!! r)
      = with_acceleration (Vec3 0 0 0) (h !!! r).

Lemma same_but_acceleration_refl (h : list CelestialBody) :
  same_but_acceleration h h.
Proof. split; auto. Qed.

Lemma same_but_acceleration_position (h h' : list CelestialBody) (r : ref) :
  same_but_acceleration h h' -> position (h' !!! r) = position (h !!! r).
Proof. intros [_ H]. exact (f_equal position (H r)). Qed.

Lemma same_but_acceleration_mass (h h' : list CelestialBody) (r : ref) :
  same_but_acceleration h h' -> mass (h' !!! r) = mass (h !!! r).
Proof. intros [_ H]. exact (f_equal mass (H r)). Qed.

Lemma same_but_acceleration_velocity (h h' : list CelestialBody) (r : ref) :
  same_but_acceleration h h' -> velocity (h' !!! r) = velocity (h !!! r).
Proof. intros [_ H]. exact (f_equal velocity (H r)). Qed.

Lemma same_but_acceleration_trajectory (h h' : list CelestialBody) (r : ref) :
  same_but_acceleration h h' -> trajectory (h' !!! r) = trajectory (h !!! r).
Proof. intros [_ H]. exact (f_equal trajectory (H r)). Qed.

Lemma same_but_acceleration_store (h h' : list CelestialBody) (r : ref)
    (a : Vector3D) :
  same_but_acceleration h h' ->
  same_but_acceleration h (<[r := with_acceleration a (h' !!! r)]> h').
Proof.
  intros [Hlen Hcell]. split; [now rewrite length_insert |].
  intros r'. rewrite list_lookup_total_insert.
  case_decide as Hd; [| apply Hcell].
  destruct Hd as [-> _]. rewrite <- Hcell. reflexivity.
Qed.

Lemma positions_of_same (h h' : list CelestialBody) (l : list ref) :
  same_but_acceleration h h' -> positions_of h' l = positions_of h l.
Proof.
  intros H. unfold positions_of. apply list_fmap_ext.
  intros _ r _. now apply same_but_acceleration_position.
Qed.

Lemma acceleration_of_same (h h' : list CelestialBody) (r : ref)
    (l : list ref) :
  same_but_acceleration h h' ->
  acceleration_of h' r l = acceleration_of h r l.
Proof.
  intros H. apply acceleration_of_ext; intros r'.
  - now apply same_but_acceleration_position.
  - now apply same_but_acceleration_mass.
Qed.

(** The first loop, run over [l] from a heap that differs from the heap
    of [s] in accelerations only, when no body of [l] but the Sun has a
    zero mass: it returns, every evaluation reads the positions of [s],
    and the bodies of [l] carry their acceleration at those positions. *)
Lemma first_loop_run (s : OrbitalSimulator) (l : list ref) :
  (forall b, b ∈ l -> b <> sun s -> mass (heap s !!! b) <> 0) ->
  forall h,
    same_but_acceleration (heap s) h ->
    exists h',
      for_each l step_accelerate (with_heap h s)
      = MkRun (Ok tt) (with_heap h' s)
          ((λ b, AccelEval b (positions_of (heap s) (bodies s)))
             <$> filter (λ b, b <> sun s) l)
      /\ same_but_acceleration (heap s) h'
      /\ (forall r,
             r ∈ l -> r <> sun s -> (r < length (heap s))%nat ->
             acceleration (h' !!! r) = acceleration_of (heap s) r (bodies s))
      /\ (forall r, r ∉ l \/ r = sun s -> h' !!! r = h !!! r).
Proof.
  induction l as [| body l IH]; intros Hmass h Hsame.
  - exists h. repeat split; try apply Hsame.
    intros r Hr. now apply elem_of_nil in Hr.
  - cbn [for_each].
    assert (Hmass' : forall b, b ∈ l -> b <> sun s -> mass (heap s !!! b) <> 0)
      by (intros b Hb; apply Hmass; now right).
    destruct (decide (body = sun s)) as [-> | Hsun].
    + destruct (IH Hmass' h Hsame) as (h' & Hrun & Hsame' & Hacc & Hrest).
      exists h'. split; [| split; [exact Hsame' | split]].
      * rewrite filter_cons_False by auto.
        eapply (bind_run _ _ _ _ _ _ [] _);
          [apply (step_accelerate_sun (with_heap h s)) | exact Hrun].
      * intros r [-> | Hr]%elem_of_cons Hne Hlt; [contradiction | auto].
      * intros r [Hr | ->]; [| auto].
        apply Hrest. left. intros Hin. apply Hr. now right.
    + set (a := acceleration_of h body (bodies s)).
      set (h1 := <[body := with_acceleration a (h !!! body)]> h).
      assert (Hsame1 : same_but_acceleration (heap s) h1)
        by now apply same_but_acceleration_store.
      destruct (IH Hmass' h1 Hsame1) as (h' & Hrun & Hsame' & Hacc & Hrest).
      exists h'. split; [| split; [exact Hsame' | split]].
      * rewrite filter_cons_True by auto. rewrite fmap_cons.
        eapply (bind_run _ _ _ _ _ _ [_] _); [| exact Hrun].
        rewrite (step_accelerate_run body (with_heap h s)); cycle 1.
        { exact Hsun. }
        { cbn [heap with_heap].
          rewrite (same_but_acceleration_mass _ _ _ Hsame).
          apply Hmass; [left | exact Hsun]. }
        cbn [heap with_heap bodies].
        now rewrite (positions_of_same _ _ _ Hsame).
      * intros r Hr Hne Hlt.
        destruct (decide (r ∈ l)) as [Hin | Hout]; [now apply Hacc |].
        apply elem_of_cons in Hr as [-> | Hr]; [| contradiction].
        rewrite Hrest by now left.
        unfold h1. rewrite list_lookup_total_insert_eq
          by (destruct Hsame as [-> _]; exact Hlt).
        cbn [acceleration with_acceleration]. unfold a.
        now apply acceleration_of_same.
      * intros r Hr. rewrite Hrest.
        -- unfold h1. apply list_lookup_total_insert_ne.
           destruct Hr as [Hr | ->]; [| exact Hsun].
           intros ->. apply Hr. left.
        -- destruct Hr as [Hr | ->]; [| now right].
           left. intros Hin. apply Hr. now right.
Qed.

(** *** The second loop *)

(** The bodies of a list other than the central one. *)
Definition movers (s : OrbitalSimulator) (l : list ref) : list ref :=
  filter (λ b, b <> sun s) l.

Lemma movers_snoc_sun (s : OrbitalSimulator) (l : list ref) :
  movers s (l ++ [sun s]) = movers s l.
Proof.
  unfold movers. rewrite filter_app, filter_cons_False by auto.
  cbn. apply app_nil_r.
Qed.

Lemma movers_snoc (s : OrbitalSimulator) (l : list ref) (b : ref) :
  b <> sun s -> movers s (l ++ [b]) = movers s l ++ [b].
Proof.
  intros Hb. unfold movers. rewrite filter_app, filter_cons_True by auto.
  reflexivity.
Qed.

Section SecondLoop.
Variable dt : R.
Variable s : OrbitalSimulator.
(** The heap when the loop starts. *)
Variable h0 : list CelestialBody.
Hypothesis Hcap : (0 < max_trajectory_points s)%nat.
Hypothesis Hnodup : NoDup (bodies s).
Hypothesis Hrefs : Forall (λ b, (b < length h0)%nat) (bodies s).
Hypothesis Hmass : forall b, b ∈ bodies s -> b <> sun s -> mass (h0 !!! b) <> 0.

(** The positions read by an evaluation made when the bodies of [done]
    have been moved and the others have not. *)
Definition seen_after (done : list ref) : list Vector3D :=
  (λ r, if decide (r ∈ done) then advanced_position dt (h0 !!! r)
        else position (h0 !!! r)) <$> bodies s.

(** The heap when the bodies of [pre] have had their iteration. *)
Definition advanced_upto (pre : list ref) (h : list CelestialBody) : Prop :=
  length h = length h0
  /\ (forall r,
         r ∈ movers s pre ->
         exists a, h !!! r = advanced dt (max_trajectory_points s) a (h0 !!! r))
  /\ (forall r, r ∉ movers s pre -> h !!! r = h0 !!! r).

Lemma second_loop_run (l : list ref) :
  forall pre h,
    bodies s = pre ++ l ->
    advanced_upto pre h ->
    exists h',
      for_each l (step_advance dt) (with_heap h s)
      = MkRun (Ok tt) (with_heap h' s)
          (imap (λ k b, AccelEval b (seen_after (movers s pre
                                                 ++ take (S k) (movers s l))))
                (movers s l))
      /\ advanced_upto (pre ++ l) h'.
Proof.
  induction l as [| body l IH]; intros pre h Hsplit Hupto.
  - exists h. split; [reflexivity | now rewrite app_nil_r].
  - cbn [for_each].
    assert (Hsplit' : bodies s = (pre ++ [body]) ++ l)
      by (now rewrite <- app_assoc).
    assert (Hnew : body ∉ pre).
    { intros Hin. rewrite Hsplit in Hnodup.
      apply NoDup_app in Hnodup as (_ & Hdisj & _).
      apply (Hdisj body Hin). left. }
    assert (Hin : body ∈ bodies s)
      by (rewrite Hsplit; apply elem_of_app; right; left).
    destruct (decide (body = sun s)) as [-> | Hsun].
    + assert (Hupto' : advanced_upto (pre ++ [sun s]) h)
        by (unfold advanced_upto; now rewrite movers_snoc_sun).
      destruct (IH _ h Hsplit' Hupto') as (h' & Hrun & Hfin).
      exists h'. split; [| now rewrite <- app_assoc in Hfin].
      rewrite movers_snoc_sun in Hrun.
      unfold movers at 2 3. rewrite filter_cons_False by auto.
      eapply (bind_run _ _ _ _ _ _ [] _);
        [apply (step_advance_sun dt (with_heap h s)) | exact Hrun].
    + destruct Hupto as (Hlen & Hdone & Hrest).
      assert (Hfresh : body ∉ movers s pre).
      { intros [_ Hp]%list_elem_of_filter. contradiction. }
      assert (Hcell : h !!! body = h0 !!! body) by now apply Hrest.
      assert (Hlt : (body < length h0)%nat).
      { rewrite Forall_forall in Hrefs. now apply Hrefs. }
      set (b := h0 !!! body).
      set (h1 := <[body := with_position (advanced_position dt b) b]> h).
      set (a := acceleration_of h1 body (bodies s)).
      set (h2 := <[body := advanced dt (max_trajectory_points s) a b]> h).
      assert (Hupto' : advanced_upto (pre ++ [body]) h2).
      { unfold advanced_upto. rewrite movers_snoc by exact Hsun.
        split; [unfold h2; now rewrite length_insert |]. split.
        - intros r [Hr | ->%list_elem_of_singleton]%elem_of_app.
          + unfold h2. rewrite list_lookup_total_insert_ne; [now apply Hdone |].
            intros ->. contradiction.
          + exists a. unfold h2.
            apply list_lookup_total_insert_eq. now rewrite Hlen.
        - intros r [Hr Hne]%not_elem_of_app.
          unfold h2. rewrite list_lookup_total_insert_ne; [now apply Hrest |].
          intros ->. apply Hne. left. }
      destruct (IH _ h2 Hsplit' Hupto') as (h' & Hrun & Hfin).
      exists h'. split; [| now rewrite <- app_assoc in Hfin].
      unfold movers at 2 3. rewrite filter_cons_True by auto.
      fold (movers s l). rewrite imap_cons.
      eapply (bind_run _ _ _ _ _ _ [_] _).
      * rewrite (step_advance_run dt body (with_heap h s)); cycle 1.
        { exact Hsun. }
        { cbn [heap with_heap]. rewrite Hcell. now apply Hmass. }
        { cbn [heap with_heap]. now rewrite Hlen. }
        { exact Hcap. }
        cbn [heap with_heap bodies max_trajectory_points].
        rewrite Hcell. fold b. fold h1. fold a. fold h2.
        do 3 f_equal. unfold positions_of, seen_after.
        apply list_fmap_ext. intros _ r _.
        unfold h1. rewrite list_lookup_total_insert.
        destruct (decide (body = r ∧ (body < length h)%nat)) as [[<- _] | Hne].
        -- rewrite decide_True; [reflexivity |].
           apply elem_of_app. right. left.
        -- assert (Hr : r <> body) by (intros ->; apply Hne; split; [| rewrite Hlen]; auto).
           destruct (decide (r ∈ movers s pre)) as [Hd | Hd].
           ++ rewrite decide_True by (apply elem_of_app; now left).
              destruct (Hdone r Hd) as [a' ->]. reflexivity.
           ++ rewrite decide_False; [now rewrite Hrest |].
              intros [? | ?%list_elem_of_singleton]%elem_of_app; contradiction.
      * change (with_heap h2 (with_heap h s)) with (with_heap h2 s).
        rewrite Hrun. f_equal. apply imap_ext. intros k r _. cbn.
        rewrite movers_snoc by exact Hsun.
        now rewrite <- app_assoc.
Qed.
End SecondLoop.

(** *** The whole step *)

(** Every body but the central one has a mass other than zero. *)
Definition nonzero_masses (s : OrbitalSimulator) : Prop :=
  forall b, b ∈ bodies s -> b <> sun s -> mass (heap s !!! b) <> 0.

(** The snapshot appended to the history by [_store_state]. *)
Definition snapshot (s : OrbitalSimulator) : Snapshot :=
  MkSnapshot (time s)
    ((λ body, to_dict (heap s !!! body))
       <$> filter (λ body, body ≠ sun s) (bodies s)).

Lemma store_state_run (s : OrbitalSimulator) :
  (0 < max_trajectory_points s)%nat ->
  _store_state s
  = MkRun (Ok tt)
      (with_trajectory_history
         (push_window (max_trajectory_points s) (trajectory_history s)
                      (snapshot s)) s)
      [].
Proof.
  intros Hcap. unfold _store_state.
  eapply (bind_run _ _ _ _ _ _ [] []); [reflexivity |]. cbn beta.
  eapply (bind_run _ _ _ _ _ _ [] []).
  - unfold lift. rewrite (push_bounded_ok _ _ _ Hcap). reflexivity.
  - reflexivity.
Qed.

(** A running step of a well-formed simulator without zero masses, in
    closed form: [h1] is the heap between the two loops and [h2] the heap
    after the second one. *)
Lemma step_run (s : OrbitalSimulator) :
  well_formed s ->
  is_running s = true ->
  nonzero_masses s ->
  let dt := time_step s * speed_multiplier s in
  exists h1 h2,
    same_but_acceleration (heap s) h1
    /\ (forall r,
           r ∈ movers s (bodies s) ->
           acceleration (h1 !!! r) = acceleration_of (heap s) r (bodies s))
    /\ (forall r, r ∉ movers s (bodies s) -> h1 !!! r = heap s !!! r)
    /\ advanced_upto dt s h1 (bodies s) h2
    /\ step s
       = MkRun (Ok tt)
           (with_trajectory_history
              (push_window (max_trajectory_points s) (trajectory_history s)
                 (snapshot (with_time (time s + dt) (with_heap h2 s))))
              (with_time (time s + dt) (with_heap h2 s)))
           (((λ b, AccelEval b (positions_of (heap s) (bodies s)))
               <$> movers s (bodies s))
            ++ imap (λ k b, AccelEval b
                              (seen_after dt s h1
                                 (take (S k) (movers s (bodies s)))))
                    (movers s (bodies s))).
Proof.
  intros Hwf Hrun Hnz dt.
  destruct Hwf as [_ _ Hrefs Hnd Hcap _].
  assert (Hcap' : (0 < max_trajectory_points s)%nat) by (rewrite Hcap; lia).
  destruct (first_loop_run s (bodies s) Hnz (heap s)
              (same_but_acceleration_refl _))
    as (h1 & Hrun1 & Hsame & Hacc & Hrest).
  rewrite with_heap_same in Hrun1.
  assert (Hrefs1 : Forall (λ b, (b < length h1)%nat) (bodies s))
    by (destruct Hsame as [-> _]; exact Hrefs).
  assert (Hnz1 : forall b, b ∈ bodies s -> b <> sun s -> mass (h1 !!! b) <> 0).
  { intros b Hb Hne. rewrite (same_but_acceleration_mass _ _ _ Hsame). auto. }
  assert (Hstart : advanced_upto dt s h1 [] h1).
  { split; [reflexivity |]. split; [| reflexivity].
    intros r Hr. now apply elem_of_nil in Hr. }
  destruct (second_loop_run dt s h1 Hcap' Hnd Hrefs1 Hnz1 (bodies s) [] h1
              eq_refl Hstart)
    as (h2 & Hrun2 & Hupto).
  cbn [app] in Hupto.
  exists h1, h2. split; [exact Hsame |]. split.
  { intros r [Hne Hr]%list_elem_of_filter. apply Hacc; auto.
    rewrite Forall_forall in Hrefs. now apply Hrefs. }
  split.
  { intros r Hr. apply Hrest.
    destruct (decide (r = sun s)) as [| Hne]; [now right |].
    left. intros Hin. apply Hr. now apply list_elem_of_filter. }
  split; [exact Hupto |].
  unfold step.
  etransitivity.
  { eapply bind_run; [reflexivity |]. cbn beta. rewrite Hrun. cbn [negb].
    eapply bind_run; [exact Hrun1 |]. cbn beta.
    eapply bind_run; [exact Hrun2 |]. cbn beta.
    eapply bind_run; [reflexivity |]. cbn beta.
    apply store_state_run. exact Hcap'. }
  f_equal. cbn [app]. rewrite !app_nil_r. reflexivity.
Qed.

(** The effect of a running step on the bodies and the evaluations it
    performs, stated on the states before ([s]) and after ([s']). *)
Lemma step_effect (s : OrbitalSimulator) :
  well_formed s ->
  is_running s = true ->
  nonzero_masses s ->
  let dt := time_step s * speed_multiplier s in
  let s' := state_after (step s) in
  outcome (step s) = Ok tt
  /\ time s' = time s + dt
  /\ (forall b,
         b ∈ movers s (bodies s) ->
         position (heap s' !!! b)
         = (position (heap s !!! b)
            + (velocity (heap s !!! b)
               + acceleration_of (heap s) b (bodies s) * (dt / 2)) * dt)%V
         /\ trajectory (heap s' !!! b)
            = push_window (max_trajectory_points s)
                (trajectory (heap s !!! b)) (position (heap s' !!! b)))
  /\ (forall r, r ∉ movers s (bodies s) -> heap s' !!! r = heap s !!! r)
  /\ evals (step s)
     = ((λ b, AccelEval b (positions_of (heap s) (bodies s)))
          <$> movers s (bodies s))
       ++ imap (λ k b,
                  AccelEval b
                    ((λ r, if decide (r ∈ take (S k) (movers s (bodies s)))
                           then position (heap s' !!! r)
                           else position (heap s !!! r)) <$> bodies s))
               (movers s (bodies s)).
Proof.
  intros Hwf Hrun Hnz dt s'.
  destruct (step_run s Hwf Hrun Hnz)
    as (h1 & h2 & Hsame & Hacc & Hrest1 & (Hlen & Hdone & Hrest2) & Hstep).
  fold dt in Hstep, Hdone, Hrest2. subst s'. rewrite Hstep.
  cbn [outcome state_after evals heap time with_trajectory_history with_time
       with_heap].
  assert (Hpos : forall b,
             b ∈ movers s (bodies s) ->
             position (h2 !!! b) = advanced_position dt (h1 !!! b)).
  { intros b Hb. destruct (Hdone b Hb) as [a ->]. reflexivity. }
  split; [reflexivity |]. split; [reflexivity |]. split; [| split].
  - intros b Hb. split.
    + rewrite (Hpos b Hb). unfold advanced_position, half_velocity.
      rewrite (Hacc b Hb).
      rewrite (same_but_acceleration_position _ _ _ Hsame).
      now rewrite (same_but_acceleration_velocity _ _ _ Hsame).
    + rewrite (Hpos b Hb). destruct (Hdone b Hb) as [a ->].
      cbn [trajectory advanced].
      now rewrite (same_but_acceleration_trajectory _ _ _ Hsame).
  - intros r Hr. rewrite Hrest2 by exact Hr. now apply Hrest1.
  - f_equal. apply imap_ext. intros k b _. f_equal.
    unfold seen_after. apply list_fmap_ext. intros _ r _.
    destruct (decide (r ∈ take (S k) (movers s (bodies s)))) as [Hin | Hout].
    + symmetry. apply Hpos.
      apply elem_of_take in Hin as (i & Hi & _).
      eapply list_elem_of_lookup_2. exact Hi.
    + now apply same_but_acceleration_position.
Qed.

Lemma nonzero_masses_frame (s s' : OrbitalSimulator) :
  step_frame s s' -> nonzero_masses s -> nonzero_masses s'.
Proof.
  intros F Hnz b Hb Hne.
  rewrite (sf_bodies _ _ F) in Hb. rewrite (sf_sun _ _ F) in Hne.
  rewrite (sf_mass _ _ F). now apply Hnz.
Qed.

(** Along consecutive steps the simulator stays well formed and running,
    with the same bodies and masses. *)
Lemma steps_invariant (s : OrbitalSimulator) (n : nat) :
  well_formed s ->
  is_running s = true ->
  nonzero_masses s ->
  well_formed (steps n s)
  /\ is_running (steps n s) = true
  /\ nonzero_masses (steps n s)
  /\ step_frame s (steps n s).
Proof.
  intros Hwf Hrun Hnz. induction n as [| n (IHwf & IHrun & IHnz & IHf)].
  - split; [exact Hwf |]. split; [exact Hrun |]. split; [exact Hnz |].
    apply step_frame_refl.
  - cbn [steps]. destruct (framed_step (steps n s)) as [F _].
    split; [eapply well_formed_frame; eassumption |].
    split; [now rewrite (sf_is_running _ _ F) |].
    split; [eapply nonzero_masses_frame; eassumption |].
    eapply step_frame_trans; eassumption.
Qed.

Lemma movers_frame (s s' : OrbitalSimulator) :
  step_frame s s' -> movers s' (bodies s') = movers s (bodies s).
Proof.
  intros F. unfold movers. now rewrite (sf_bodies _ _ F), (sf_sun _ _ F).
Qed.

(** After [n] running steps the trajectory of a body holds the last
    [cap] of the positions it had before followed by the positions
    recorded at steps 1 to [n]. *)
Lemma trajectory_after_steps (s : OrbitalSimulator) (b : ref) (n : nat) :
  well_formed s ->
  is_running s = true ->
  nonzero_masses s ->
  b ∈ movers s (bodies s) ->
  trajectory (heap (steps n s) !!! b)
  = lastn 1000 (trajectory (heap s !!! b)
                ++ ((λ k, position (heap (steps k s) !!! b)) <$> seq 1 n)).
Proof.
  intros Hwf Hrun Hnz Hb. induction n as [| n IH].
  - cbn [steps seq fmap list_fmap]. rewrite app_nil_r.
    symmetry. apply lastn_all. apply (wf_trajectory _ Hwf).
  - destruct (steps_invariant s n Hwf Hrun Hnz) as (Hwfn & Hrunn & Hnzn & Fn).
    destruct (step_effect (steps n s) Hwfn Hrunn Hnzn)
      as (_ & _ & Hmove & _).
    rewrite (movers_frame _ _ Fn) in Hmove.
    destruct (Hmove b Hb) as [_ Htraj].
    cbn [steps]. rewrite Htraj, (wf_cap _ Hwfn).
    rewrite push_window_lastn by (try apply (wf_trajectory _ Hwfn); lia).
    rewrite IH, lastn_app_lastn.
    rewrite seq_S, fmap_app, app_assoc. reflexivity.
Qed.

Lemma time_after_steps (s : OrbitalSimulator) (n : nat) :
  well_formed s ->
  is_running s = true ->
  nonzero_masses s ->
  time (steps n s) = time s + INR n * (time_step s * speed_multiplier s).
Proof.
  intros Hwf Hrun Hnz. induction n as [| n IH].
  - cbn [steps INR]. ring.
  - destruct (steps_invariant s n Hwf Hrun Hnz) as (Hwfn & Hrunn & Hnzn & Fn).
    destruct (step_effect (steps n s) Hwfn Hrunn Hnzn) as (_ & Htime & _).
    cbn [steps]. rewrite Htime, IH.
    rewrite (sf_time_step _ _ Fn), (sf_speed_multiplier _ _ Fn), S_INR.
    ring.
Qed.

(** The last [cap] recorded positions, once at least [cap] steps were
    made. *)
Lemma lastn_recorded {A} (cap n : nat) (t0 : list A) (f : nat -> A) :
  (0 < cap <= n)%nat ->
  lastn cap (t0 ++ (f <$> seq 1 n)) = f <$> seq (S (n - cap)) cap.
Proof.
  intros Hn. unfold lastn.
  rewrite length_app, length_fmap, length_seq.
  rewrite drop_app_ge by lia.
  replace (length t0 + n - cap - length t0)%nat with (n - cap)%nat by lia.
  rewrite <- fmap_drop, drop_seq. do 2 f_equal. lia.
Qed.

(** *** The Earth example *)

Definition earth : CelestialBody :=
  CelestialBody_init "Earth" 5.972e24 (Vec3 AU 0 0) (Vec3 0 29780 0)
                     6.371e6 "#0000ff".

Lemma earth_simulator_state :
  earth_simulator
  = {| time_step := DEFAULT_TIME_STEP;
       speed_multiplier := 1;
       heap := [create_sun; earth];
       bodies := [0%nat; 1%nat];
       sun := 0%nat;
       time := 0;
       is_running := true;
       trajectory_history := [];
       max_trajectory_points := 1000 |}.
Proof. reflexivity. Qed.

Lemma earth_simulator_movers :
  movers earth_simulator (bodies earth_simulator) = [1%nat].
Proof. reflexivity. Qed.

Lemma earth_simulator_nonzero_masses : nonzero_masses earth_simulator.
Proof.
  intros b Hb Hne. rewrite earth_simulator_state in *. cbn [bodies sun heap] in *.
  apply elem_of_cons in Hb as [-> | Hb]; [contradiction |].
  apply list_elem_of_singleton in Hb as ->.
  change ([create_sun; earth] !!! 1%nat) with earth.
  unfold earth, CelestialBody_init. cbn [mass]. lra.
Qed.

(** The Sun pulls the Earth along the first axis only. *)
Lemma earth_acceleration_y :
  y (acceleration_of [create_sun; earth] 1 [0%nat; 1%nat]) = 0.
Proof.
  unfold acceleration_of, net_force. cbn [sum_forces].
  case_decide; [lia |].
  change ([create_sun; earth] !!! 1%nat) with earth.
  change ([create_sun; earth] !!! 0%nat) with create_sun.
  destruct (Rlt_dec (magnitude (position create_sun - position earth)) 1e-6)
    as [Hlt | Hge].
  - rewrite (force_below_epsilon _ _ Hlt). cbn [mbind result_bind].
    case_decide; [| congruence]. cbn. unfold Rdiv. ring.
  - rewrite (force_above_epsilon _ _ Hge). cbn [mbind result_bind].
    case_decide; [| congruence]. cbn. unfold Rdiv. ring.
Qed.

(** *** A step that raises

    The hypothesis on the masses is needed: with a massless body in the
    list the first loop raises, and the step ends there. *)
Lemma first_loop_raises (l : list ref) :
  forall s,
    (exists b, b ∈ l /\ b <> sun s /\ mass (heap s !!! b) = 0) ->
    outcome (for_each l step_accelerate s) = Raise ZeroDivisionError.
Proof.
  induction l as [| body l IH]; intros s (b & Hb & Hne & Hm).
  - now apply elem_of_nil in Hb.
  - cbn [for_each]. rewrite outcome_bind.
    destruct (decide (body = sun s)) as [-> | Hsun].
    + rewrite step_accelerate_sun. cbn [outcome state_after].
      apply IH. exists b. apply elem_of_cons in Hb as [-> | Hb]; [contradiction |].
      auto.
    + destruct (Req_dec_T (mass (heap s !!! body)) 0) as [Hz | Hnz].
      * now rewrite (step_accelerate_raise _ _ Hsun Hz).
      * rewrite (step_accelerate_run _ _ Hsun Hnz). cbn [outcome state_after].
        apply IH. exists b.
        apply elem_of_cons in Hb as [-> | Hb]; [contradiction |].
        split; [exact Hb |]. split; [exact Hne |].
        cbn [heap with_heap]. rewrite list_lookup_total_insert.
        case_decide as Hd; [| exact Hm].
        destruct Hd as [-> _]. exact Hm.
Qed.

Lemma step_raises_on_zero_mass (s : OrbitalSimulator) :
  is_running s = true ->
  (exists b, b ∈ bodies s /\ b <> sun s /\ mass (heap s !!! b) = 0) ->
  outcome (step s) = Raise ZeroDivisionError.
Proof.
  intros Hrun Hzero. unfold step. rewrite outcome_bind.
  cbn [get outcome state_after]. rewrite Hrun. cbn [negb].
  rewrite outcome_bind. now rewrite (first_loop_raises _ _ Hzero).
Qed.

(** C5.  In a reachable state the trajectory of every body other than the
    central one holds at most 1000 positions.  A running step that
    returns (no body has a zero mass) appends exactly the new position,
    after dropping the oldest entry when 1000 are held.  After [n]
    such steps the trajectory is the last 1000 entries of what it held
    followed by the positions recorded at steps 1 to [n]; for [n > 1000]
    it is exactly the positions recorded at steps [n - 999] to [n], in
    that order: 1000 entries, the first recorded at step [n - 999] and
    not at step 1, at simulated times [time s + k * dt]. *)
Theorem trajectory_is_sliding_window (s : OrbitalSimulator) (b : ref) :
  reachable s ->
  b ∈ bodies s ->
  b <> sun s ->
  (length (trajectory (heap s !!! b)) <= 1000)%nat
  /\ (is_running s = true ->
      nonzero_masses s ->
      let s' := state_after (step s) in
      let recorded k := position (heap (steps k s) !!! b) in
      outcome (step s) = Ok tt
      /\ trajectory (heap s' !!! b)
         = (if decide (length (trajectory (heap s !!! b)) < 1000)%nat
            then trajectory (heap s !!! b)
            else tail (trajectory (heap s !!! b)))
           ++ [position (heap s' !!! b)]
      /\ forall n,
          trajectory (heap (steps n s) !!! b)
          = lastn 1000 (trajectory (heap s !!! b) ++ (recorded <$> seq 1 n))
          /\ time (steps n s)
             = time s + INR n * (time_step s * speed_multiplier s)
          /\ ((1000 < n)%nat ->
              trajectory (heap (steps n s) !!! b)
              = recorded <$> seq (n - 999) 1000
              /\ length (trajectory (heap (steps n s) !!! b)) = 1000%nat
              /\ head (trajectory (heap (steps n s) !!! b))
                 = Some (recorded (n - 999)%nat)
              /\ (1 < n - 999)%nat)).
Proof.
  intros Hr Hb Hne. pose proof (reachable_well_formed s Hr) as Hwf.
  split; [apply (wf_trajectory _ Hwf) |].
  intros Hrun Hnz s' recorded.
  assert (Hmover : b ∈ movers s (bodies s))
    by (apply list_elem_of_filter; auto).
  destruct (step_effect s Hwf Hrun Hnz) as (Hok & _ & Hmove & _).
  destruct (Hmove b Hmover) as [_ Htraj].
  split; [exact Hok |]. split.
  - subst s'. rewrite Htraj, (wf_cap _ Hwf). unfold push_window.
    now case_decide.
  - intros n.
    pose proof (trajectory_after_steps s b n Hwf Hrun Hnz Hmover) as Hn.
    split; [exact Hn |].
    split; [now apply time_after_steps |].
    intros Hlarge.
    assert (Hwin : trajectory (heap (steps n s) !!! b)
                   = recorded <$> seq (n - 999) 1000).
    { rewrite Hn, lastn_recorded by lia. do 2 f_equal. lia. }
    split; [exact Hwin |]. rewrite Hwin.
    split; [now rewrite length_fmap, length_seq |].
    split; [reflexivity | lia].
Qed.

Lemma trajectory_is_sliding_window_witness :
  let s := earth_simulator in
  let recorded k := position (heap (steps k s) !!! 1%nat) in
  outcome (step s) = Ok tt
  /\ trajectory (heap (steps 1001 s) !!! 1%nat) = recorded <$> seq 2 1000
  /\ length (trajectory (heap (steps 1001 s) !!! 1%nat)) = 1000%nat.
Proof.
  intros s recorded.
  assert (Hin : 1%nat ∈ bodies earth_simulator) by (right; left).
  assert (Hne : 1%nat <> sun earth_simulator) by (cbn; lia).
  destruct (proj2 (trajectory_is_sliding_window earth_simulator 1
                     earth_simulator_reachable Hin Hne)
              eq_refl earth_simulator_nonzero_masses)
    as (Hok & _ & Hn).
  destruct (Hn 1001%nat) as (_ & _ & Hlarge).
  destruct (Hlarge ltac:(lia)) as (Hwin & Hlen & _).
  split; [exact Hok |]. split; [exact Hwin | exact Hlen].
Defined.

(** C1 (amended).  In a running step that returns, the evaluations of the
    first loop come first, one per body other than the central one, and
    each reads every position as it was when the step began.  The
    evaluations of the second loop follow, one per body in list order;
    the evaluation for a body reads the position of that body as the step
    has just advanced it, [x + (v + a * dt / 2) * dt] with [a] its
    acceleration at the start-of-step positions, and the position of the
    central body, which does not move. *)
Theorem step_evaluations_read (s : OrbitalSimulator) :
  reachable s ->
  is_running s = true ->
  nonzero_masses s ->
  let dt := time_step s * speed_multiplier s in
  let s' := state_after (step s) in
  let bs := movers s (bodies s) in
  outcome (step s) = Ok tt
  /\ exists first second,
      evals (step s) = first ++ second
      /\ length first = length bs
      /\ length second = length bs
      /\ (forall k b,
             bs !! k = Some b ->
             first !! k
             = Some (AccelEval b (positions_of (heap s) (bodies s))))
      /\ (forall k b,
             bs !! k = Some b ->
             exists seen,
               second !! k = Some (AccelEval b seen)
               /\ length seen = length (bodies s)
               /\ (forall i,
                      bodies s !! i = Some b ->
                      seen !! i = Some (position (heap s' !!! b)))
               /\ (forall i,
                      bodies s !! i = Some (sun s) ->
                      seen !! i = Some (position (heap s !!! sun s))))
      /\ (forall b,
             b ∈ bs ->
             position (heap s' !!! b)
             = (position (heap s !!! b)
                + (velocity (heap s !!! b)
                   + acceleration_of (heap s) b (bodies s) * (dt / 2)) * dt)%V).
Proof.
  intros Hr Hrun Hnz dt s' bs.
  pose proof (reachable_well_formed s Hr) as Hwf.
  destruct (step_effect s Hwf Hrun Hnz) as (Hok & _ & Hmove & _ & Hev).
  split; [exact Hok |].
  eexists _, _. split; [exact Hev |].
  split; [now rewrite length_fmap |].
  split; [now rewrite length_imap |].
  split; [| split].
  - intros k b Hk. rewrite list_lookup_fmap. fold bs. now rewrite Hk.
  - intros k b Hk. eexists. split; [| split; [| split]].
    + rewrite list_lookup_imap. fold bs. rewrite Hk. reflexivity.
    + now rewrite length_fmap.
    + intros i Hi. rewrite list_lookup_fmap, Hi. cbn [fmap option_fmap option_map].
      rewrite decide_True; [reflexivity |].
      apply elem_of_take. exists k. split; [exact Hk | lia].
    + intros i Hi. rewrite list_lookup_fmap, Hi. cbn [fmap option_fmap option_map].
      rewrite decide_False; [reflexivity |].
      intros Hin. apply elem_of_take in Hin as (j & Hj & _).
      apply list_elem_of_lookup_2 in Hj.
      apply list_elem_of_filter in Hj as [Hne _]. now apply Hne.
  - intros b Hb. now apply Hmove.
Qed.

Lemma step_evaluations_read_witness :
  exists first second,
    evals (step earth_simulator) = first ++ second
    /\ length first = 1%nat
    /\ length second = 1%nat.
Proof.
  destruct (step_evaluations_read earth_simulator earth_simulator_reachable
              eq_refl earth_simulator_nonzero_masses)
    as (_ & first & second & Hev & H1 & H2 & _).
  exists first, second. auto.
Defined.

(** C1 as stated fails: in the first step of the Earth example the
    evaluation made in the second loop reads the Earth where the step has
    just moved it, not where it was when the step began. *)
Lemma step_evaluation_reads_advanced_position :
  reachable earth_simulator
  /\ is_running earth_simulator = true
  /\ ~ (forall ev,
           ev ∈ evals (step earth_simulator) ->
           ev_seen ev
           = positions_of (heap earth_simulator) (bodies earth_simulator)).
Proof.
  split; [exact earth_simulator_reachable |]. split; [reflexivity |].
  intros Hall.
  destruct (step_effect earth_simulator
              (reachable_well_formed _ earth_simulator_reachable)
              eq_refl earth_simulator_nonzero_masses)
    as (_ & _ & Hmove & _ & Hev).
  rewrite earth_simulator_movers in Hev, Hmove.
  destruct (Hmove 1%nat ltac:(left)) as [Hpos _].
  set (s' := state_after (step earth_simulator)) in *.
  assert (Hin : AccelEval 1
                  ((λ r, if decide (r ∈ take 1 [1%nat])
                         then position (heap s' !!! r)
                         else position (heap earth_simulator !!! r))
                     <$> bodies earth_simulator)
                ∈ evals (step earth_simulator)).
  { rewrite Hev. apply elem_of_app. right.
    apply elem_of_lookup_imap. exists 0%nat, 1%nat. split; reflexivity. }
  apply Hall in Hin. cbn [ev_seen] in Hin.
  apply (f_equal (λ l, l !! 1%nat)) in Hin.
  change (bodies earth_simulator) with [0%nat; 1%nat] in Hin.
  unfold positions_of in Hin. cbn [fmap list_fmap lookup list_lookup] in Hin.
  rewrite decide_True in Hin by (left).
  injection Hin as Hsame. rewrite Hpos in Hsame.
  apply (f_equal y) in Hsame.
  change (heap earth_simulator) with [create_sun; earth] in Hsame.
  change (bodies earth_simulator) with [0%nat; 1%nat] in Hsame.
  change ([create_sun; earth] !!! 1%nat) with earth in Hsame.
  cbn [y vadd vmul position velocity earth CelestialBody_init] in Hsame.
  rewrite earth_acceleration_y in Hsame.
  change (time_step earth_simulator) with DEFAULT_TIME_STEP in Hsame.
  change (speed_multiplier earth_simulator) with 1 in Hsame.
  unfold DEFAULT_TIME_STEP in Hsame. lra.
Qed.

(** * Properties of the further functions *)

(** ** Algebra of vectors *)

Lemma Vec3_eq (a b : Vector3D) :
  x a = x b -> y a = y b -> z a = z b -> a = b.
Proof. destruct a, b; cbn; intros -> -> ->; reflexivity. Qed.

(** X1.  The cross product is anticommutative, [a x b = (b x a) * (-1)],
    and the cross product of a vector with itself is the zero vector. *)
Theorem cross_anticommutative (a b : Vector3D) :
  cross a b = (cross b a * (-1))%V
  /\ cross a a = Vec3 0 0 0.
Proof.
  split; apply Vec3_eq; cbn; ring.
Qed.

(** X2.  The cross product is orthogonal to both operands, and its
    magnitude obeys Lagrange's identity
    [|a x b|^2 + (a . b)^2 = |a|^2 * |b|^2]. *)
Theorem cross_orthogonal_lagrange (a b : Vector3D) :
  dot a (cross a b) = 0
  /\ dot b (cross a b) = 0
  /\ magnitude (cross a b) ^ 2 + dot a b ^ 2
     = magnitude a ^ 2 * magnitude b ^ 2.
Proof.
  split; [unfold dot, cross; cbn; ring |].
  split; [unfold dot, cross; cbn; ring |].
  unfold magnitude.
  rewrite !pow2_sqrt by apply sum_squares_nonneg.
  unfold dot, cross; cbn; ring.
Qed.

Lemma magnitude_zero_iff (v : Vector3D) :
  magnitude v = 0 <-> v = Vec3 0 0 0.
Proof.
  split.
  - intros H. unfold magnitude in H.
    apply sqrt_eq_0 in H; [| apply sum_squares_nonneg].
    apply Vec3_eq; cbn; nra.
  - intros ->. apply magnitude_vzero.
Qed.

Lemma magnitude_scale (v : Vector3D) (s : R) :
  magnitude (v * s)%V = Rabs s * magnitude v.
Proof.
  unfold magnitude, vmul; cbn [x y z].
  replace ((x v * s) ^ 2 + (y v * s) ^ 2 + (z v * s) ^ 2)
    with (s ^ 2 * (x v ^ 2 + y v ^ 2 + z v ^ 2)) by ring.
  rewrite sqrt_mult_alt by nra.
  f_equal. replace (s ^ 2) with (s²) by (unfold Rsqr; ring).
  apply sqrt_Rsqr_abs.
Qed.

(** X3.  The magnitude is zero for the zero vector only, it is the square
    root of the dot product of the vector with itself, and scaling a
    vector by [s] scales its magnitude by [|s|]. *)
Theorem magnitude_definite_homogeneous (v : Vector3D) (s : R) :
  (magnitude v = 0 <-> v = Vec3 0 0 0)
  /\ magnitude v ^ 2 = dot v v
  /\ magnitude (v * s)%V = Rabs s * magnitude v
  /\ magnitude (vrmul v s) = Rabs s * magnitude v.
Proof.
  split; [apply magnitude_zero_iff |].
  split; [| split; apply magnitude_scale].
  unfold magnitude. rewrite pow2_sqrt by apply sum_squares_nonneg.
  unfold dot. ring.
Qed.

(** X4.  [normalize] never faults; it returns the zero vector for the
    zero vector only; the input is the result scaled by the input's
    magnitude; and normalising twice is normalising once. *)
Theorem normalize_direction_idempotent (v : Vector3D) :
  exists u,
    normalize v = Ok u
    /\ (u = Vec3 0 0 0 <-> v = Vec3 0 0 0)
    /\ (u * magnitude v)%V = v
    /\ normalize u = Ok u.
Proof.
  destruct (Req_dec_T (magnitude v) 0) as [Hz | Hnz].
  - pose proof (proj1 (magnitude_zero_iff v) Hz) as ->.
    exists (Vec3 0 0 0). split; [now apply normalize_zero_magnitude |].
    split; [tauto |]. split.
    + apply Vec3_eq; cbn; ring.
    + now apply normalize_zero_magnitude.
  - pose proof (magnitude_nonneg v) as Hge.
    eexists. split; [now apply normalize_nonzero |]. split; [| split].
    + split.
      * intros Hu. exfalso.
        assert (H1 : magnitude (Vec3 (x v / magnitude v) (y v / magnitude v)
                                     (z v / magnitude v)) = 1)
          by (rewrite magnitude_div by lra; field; lra).
        rewrite Hu in H1. fold vzero in H1. rewrite magnitude_vzero in H1. lra.
      * intros ->. exfalso. apply Hnz. apply magnitude_vzero.
    + apply Vec3_eq; cbn; field; lra.
    + set (u := Vec3 _ _ _).
      assert (H1 : magnitude u = 1)
        by (unfold u; rewrite magnitude_div by lra; field; lra).
      rewrite normalize_nonzero by lra. rewrite H1.
      f_equal. apply Vec3_eq; unfold u; cbn; field; lra.
Qed.

(** X5.  Division of a vector by a scalar raises [ZeroDivisionError]
    exactly when the scalar is zero, and otherwise undoes the
    multiplication by that scalar. *)
Theorem truediv_zero_iff_and_inverse (v : Vector3D) (s : R) :
  (truediv v s = Raise ZeroDivisionError <-> s = 0)
  /\ (s <> 0 ->
      truediv (v * s)%V s = Ok v
      /\ exists q, truediv v s = Ok q /\ (q * s)%V = v).
Proof.
  split.
  - split.
    + intros H. destruct (Req_dec_T s 0) as [| Hs]; [assumption |].
      rewrite truediv_nonzero in H by assumption. discriminate.
    + intros ->. apply truediv_zero.
  - intros Hs. split.
    + rewrite truediv_nonzero by assumption. f_equal.
      apply Vec3_eq; cbn; field; assumption.
    + eexists. split; [now apply truediv_nonzero |].
      apply Vec3_eq; cbn; field; assumption.
Qed.

Lemma truediv_zero_iff_and_inverse_witness :
  truediv (Vec3 1 2 3 * 2)%V 2 = Ok (Vec3 1 2 3).
Proof.
  apply (proj2 (truediv_zero_iff_and_inverse (Vec3 1 2 3) 2)). lra.
Defined.

(** X6.  [from_dict] inverts [to_dict]; a key that is missing reads as 0
    and any other key is ignored. *)
Theorem vector_dict_round_trip (v : Vector3D) (data : gmap string R)
    (key : string) (w : R) :
  Vector3D_from_dict (Vector3D_to_dict v) = v
  /\ Vector3D_from_dict ∅ = Vec3 0 0 0
  /\ Vector3D_from_dict (delete "y" (Vector3D_to_dict v)) = Vec3 (x v) 0 (z v)
  /\ (key <> "x" -> key <> "y" -> key <> "z" ->
      Vector3D_from_dict (<[key := w]> data) = Vector3D_from_dict data).
Proof.
  split; [| split; [| split]].
  - unfold Vector3D_from_dict, Vector3D_to_dict.
    rewrite lookup_insert_eq.
    rewrite (lookup_insert_ne _ "x" "y") by done. rewrite lookup_insert_eq.
    rewrite (lookup_insert_ne _ "x" "z") by done.
    rewrite (lookup_insert_ne _ "y" "z") by done. rewrite lookup_insert_eq.
    now destruct v.
  - reflexivity.
  - unfold Vector3D_from_dict, Vector3D_to_dict.
    rewrite lookup_delete_eq.
    rewrite !(lookup_delete_ne _ "y") by done.
    rewrite lookup_insert_eq.
    rewrite (lookup_insert_ne _ "x" "z") by done.
    rewrite (lookup_insert_ne _ "y" "z") by done. rewrite lookup_insert_eq.
    reflexivity.
  - intros Hx Hy Hz. unfold Vector3D_from_dict.
    now rewrite !lookup_insert_ne by done.
Qed.

Lemma vector_dict_round_trip_witness :
  Vector3D_from_dict (<["w" := 7]> (Vector3D_to_dict (Vec3 1 2 3)))
  = Vector3D_from_dict (Vector3D_to_dict (Vec3 1 2 3)).
Proof.
  apply (vector_dict_round_trip (Vec3 1 2 3) (Vector3D_to_dict (Vec3 1 2 3))
           "w" 7); done.
Defined.

(** X7.  [from_array] inverts [to_array]; it raises [IndexError] exactly
    on arrays of fewer than three elements and ignores what follows the
    third element. *)
Theorem vector_array_round_trip (v : Vector3D) (arr : list R) :
  from_array (to_array v) = Ok v
  /\ (from_array arr = Raise IndexError <-> (length arr < 3)%nat)
  /\ (forall a0 a1 a2 rest,
         arr = a0 :: a1 :: a2 :: rest -> from_array arr = Ok (Vec3 a0 a1 a2)).
Proof.
  split; [now destruct v |]. split.
  - destruct arr as [| a0 [| a1 [| a2 rest]]]; cbn; split;
      (reflexivity || lia || discriminate).
  - intros a0 a1 a2 rest ->. reflexivity.
Qed.

Lemma vector_array_round_trip_witness :
  from_array [1; 2; 3; 4] = Ok (Vec3 1 2 3).
Proof.
  apply (proj2 (proj2 (vector_array_round_trip (Vec3 0 0 0) [1; 2; 3; 4]))
           1 2 3 [4]).
  reflexivity.
Defined.

(** ** Forces *)

Lemma magnitude_vsub_sym (p q : Vector3D) :
  magnitude (p - q)%V = magnitude (q - p)%V.
Proof. unfold magnitude, vsub; cbn [x y z]. f_equal. ring. Qed.

(** X8.  Newton's third law: the force of [b] on [a] is the opposite of
    the force of [a] on [b] (both are the zero vector under the
    separation guard). *)
Theorem gravitational_force_antisymmetric (a b : CelestialBody) :
  exists f,
    calculate_gravitational_force a b = Ok f
    /\ calculate_gravitational_force b a = Ok (f * (-1))%V.
Proof.
  pose proof (magnitude_vsub_sym (position b) (position a)) as Hsym.
  destruct (Rlt_dec (magnitude (position b - position a)) 1e-6) as [Hlt | Hge].
  - exists (Vec3 0 0 0). split; [now apply force_below_epsilon |].
    rewrite force_below_epsilon by (rewrite <- Hsym; exact Hlt).
    f_equal. apply Vec3_eq; cbn; ring.
  - eexists. split; [now apply force_above_epsilon |].
    rewrite force_above_epsilon by (rewrite <- Hsym; exact Hge).
    rewrite <- Hsym. f_equal.
    set (r := magnitude (position b - position a)) in *.
    assert (Hr : r <> 0) by lra.
    apply Vec3_eq; cbn; field; exact Hr.
Qed.

(** X9.  For masses that are not negative the force has magnitude
    [G * m1 * m2 / r^2] at separation [r >= 1e-6]; with the guard, its
    magnitude never exceeds [G * m1 * m2 * 1e12], however close the
    bodies are. *)
Theorem gravitational_force_magnitude (self other : CelestialBody) :
  0 <= mass self ->
  0 <= mass other ->
  let r := magnitude (position other - position self) in
  exists f,
    calculate_gravitational_force self other = Ok f
    /\ (r >= 1e-6 -> magnitude f = G * mass self * mass other / r ^ 2)
    /\ magnitude f <= G * mass self * mass other * 1e12.
Proof.
  intros H1 H2 r. pose proof G_pos as HG.
  assert (Hprod : 0 <= G * mass self * mass other)
    by (apply Rmult_le_pos; [apply Rmult_le_pos |]; lra).
  destruct (Rlt_dec r 1e-6) as [Hlt | Hge].
  - exists (Vec3 0 0 0). split; [now apply force_below_epsilon |].
    fold vzero. rewrite magnitude_vzero. split; [lra | nra].
  - eexists. split; [now apply force_above_epsilon |].
    fold r. rewrite magnitude_scale.
    set (u := Vec3 _ _ _).
    assert (Hu : magnitude u = 1).
    { unfold u. rewrite magnitude_div by (fold r; lra). fold r. field. lra. }
    rewrite Hu, Rmult_1_r.
    assert (Hrr : 1e-12 <= r * r) by nra.
    assert (Hfm : 0 <= G * mass self * mass other / (r * r))
      by (apply Rmult_le_pos; [lra |]; left; apply Rinv_0_lt_compat; lra).
    rewrite Rabs_pos_eq by exact Hfm.
    split; [intros _; field; lra |].
    apply Rmult_le_reg_r with (r * r); [lra |].
    replace (G * mass self * mass other / (r * r) * (r * r))
      with (G * mass self * mass other) by (field; lra).
    nra.
Qed.

Lemma gravitational_force_magnitude_witness :
  exists f,
    calculate_gravitational_force earth create_sun = Ok f
    /\ magnitude f <= G * mass earth * mass create_sun * 1e12.
Proof.
  destruct (gravitational_force_magnitude earth create_sun) as (f & Hf & _ & Hb).
  - unfold earth, CelestialBody_init. cbn [mass]. lra.
  - unfold create_sun, CelestialBody_init, SOLAR_MASS. cbn [mass]. lra.
  - exists f. auto.
Defined.

(** ** Kinematics *)

(** X10.  [update_position] moves the body along its velocity, by
    [velocity * dt], and changes nothing else; two updates add up, so an
    update by [- dt] undoes an update by [dt].  [update_velocity] does
    the same for the velocity along the stored acceleration. *)
Theorem euler_updates_compose (b : CelestialBody) (dt1 dt2 : R) :
  position (update_position dt1 b) = (position b + velocity b * dt1)%V
  /\ with_position (position b) (update_position dt1 b)
     = with_position (position b) b
  /\ velocity (update_velocity dt1 b) = (velocity b + acceleration b * dt1)%V
  /\ with_velocity (velocity b) (update_velocity dt1 b)
     = with_velocity (velocity b) b
  /\ update_position dt2 (update_position dt1 b) = update_position (dt1 + dt2) b
  /\ update_position (- dt1) (update_position dt1 b)
     = with_position (Vec3 (x (position b)) (y (position b)) (z (position b))) b
  /\ update_velocity dt2 (update_velocity dt1 b) = update_velocity (dt1 + dt2) b
  /\ velocity (update_position dt1 b) = velocity b
  /\ position (update_velocity dt1 b) = position b.
Proof.
  unfold update_position, update_velocity, with_position, with_velocity.
  cbn [name mass position velocity radius color trajectory acceleration].
  split; [reflexivity |]. split; [reflexivity |].
  split; [reflexivity |]. split; [reflexivity |].
  repeat split; f_equal; apply Vec3_eq; cbn; ring.
Qed.

(** ** Energies *)

(** X11.  The kinetic energy is [m * (v . v) / 2]; it is not negative
    when the mass is not negative, and it is zero for a body at rest. *)
Theorem kinetic_energy_formula (b : CelestialBody) :
  get_kinetic_energy b = 0.5 * mass b * dot (velocity b) (velocity b)
  /\ (0 <= mass b -> 0 <= get_kinetic_energy b)
  /\ (velocity b = Vec3 0 0 0 -> get_kinetic_energy b = 0).
Proof.
  assert (H : get_kinetic_energy b
              = 0.5 * mass b * dot (velocity b) (velocity b)).
  { unfold get_kinetic_energy. cbv zeta. rewrite Rmult_assoc.
    unfold magnitude. rewrite sqrt_sqrt by apply sum_squares_nonneg.
    unfold dot. ring. }
  split; [exact H |]. split.
  - intros Hm. rewrite H. unfold dot. nra.
  - intros Hv. rewrite H, Hv. unfold dot. cbn. ring.
Qed.

Definition probe_at_rest : CelestialBody :=
  CelestialBody_init "probe" 1000 (Vec3 AU 0 0) (Vec3 0 0 0) 1 "#ffffff".

Lemma kinetic_energy_formula_witness :
  0 <= get_kinetic_energy earth /\ get_kinetic_energy probe_at_rest = 0.
Proof.
  split.
  - apply (proj1 (proj2 (kinetic_energy_formula earth))).
    unfold earth, CelestialBody_init. cbn [mass]. lra.
  - apply (proj2 (proj2 (kinetic_energy_formula probe_at_rest))). reflexivity.
Defined.

(** X12.  The potential energy is minus infinity exactly when the
    separation is below [1e-6], which is when the force is cut to zero by
    its guard; otherwise it is [- G * m * M / r], the same for both
    bodies, negative and not below [- G * m * M * 1e6] for positive
    masses. *)
Theorem potential_energy_guard (self sun : CelestialBody) :
  let r := magnitude (position self - position sun) in
  (get_potential_energy self sun = MinusInfinity <-> r < 1e-6)
  /\ (get_potential_energy self sun = MinusInfinity ->
      calculate_gravitational_force self sun = Ok (Vec3 0 0 0))
  /\ get_potential_energy sun self = get_potential_energy self sun
  /\ (r >= 1e-6 ->
      get_potential_energy self sun = Real (- (G * mass self * mass sun) / r)
      /\ (0 < mass self -> 0 < mass sun ->
          - (G * mass self * mass sun * 1e6)
          <= - (G * mass self * mass sun) / r < 0)).
Proof.
  intros r. pose proof (magnitude_vsub_sym (position self) (position sun)) as Hsym.
  fold r in Hsym. unfold get_potential_energy. fold r. rewrite <- Hsym.
  split; [| split; [| split]].
  - destruct (Rlt_dec r 1e-6); split; intros; (assumption || reflexivity
                                               || discriminate || contradiction).
  - destruct (Rlt_dec r 1e-6) as [Hlt | Hge]; [| discriminate].
    intros _. apply force_below_epsilon. now rewrite <- Hsym.
  - destruct (Rlt_dec r 1e-6); [reflexivity |].
    apply (f_equal Real). field. lra.
  - intros Hr. destruct (Rlt_dec r 1e-6); [lra |].
    split; [apply (f_equal Real); field; lra |].
    intros Hm HM. pose proof G_pos as HG.
    assert (Hp : 0 < G * mass self * mass sun)
      by (apply Rmult_lt_0_compat; [apply Rmult_lt_0_compat |]; lra).
    set (k := G * mass self * mass sun) in *.
    assert (Hinv : 0 < / r) by (apply Rinv_0_lt_compat; lra).
    split.
    + apply Rmult_le_reg_r with r; [lra |].
      replace (- k / r * r) with (- k) by (field; lra). nra.
    + unfold Rdiv. nra.
Qed.

Lemma magnitude_earth_from_sun :
  magnitude (position earth - position create_sun) = AU.
Proof.
  cbn [position earth create_sun CelestialBody_init].
  rewrite vsub_origin. unfold magnitude; cbn [x y z].
  replace (AU ^ 2 + 0 ^ 2 + 0 ^ 2) with (AU ^ 2) by ring.
  apply sqrt_pow2. unfold AU. lra.
Qed.

Lemma potential_energy_guard_witness :
  get_potential_energy earth create_sun
  = Real (- (G * mass earth * mass create_sun) / AU).
Proof.
  pose proof (proj2 (proj2 (proj2 (potential_energy_guard earth create_sun))))
    as H.
  cbv zeta in H. rewrite magnitude_earth_from_sun in H.
  apply H. unfold AU. lra.
Defined.

(** X13.  The total energy is minus infinity exactly under the separation
    guard; for a body at distance [r >= 1e-6] whose speed is the circular
    speed, [|v|^2 = G * M / r], it is [- G * m * M / (2 * r)]. *)
Theorem total_energy_circular (self sun : CelestialBody) :
  let r := magnitude (position self - position sun) in
  (get_total_energy self sun = MinusInfinity <-> r < 1e-6)
  /\ (r >= 1e-6 ->
      get_total_energy self sun
      = Real (get_kinetic_energy self - G * mass self * mass sun / r))
  /\ (r >= 1e-6 ->
      magnitude (velocity self) ^ 2 = G * mass sun / r ->
      get_total_energy self sun = Real (- (G * mass self * mass sun) / (2 * r))).
Proof.
  intros r. unfold get_total_energy, get_potential_energy. fold r.
  destruct (Rlt_dec r 1e-6) as [Hlt | Hge]; cbn [add_nfloat].
  - split; [tauto |]. split; intros; lra.
  - split; [split; [discriminate | contradiction] |].
    split; intros Hr.
    + apply (f_equal Real). unfold Rdiv. ring.
    + intros Hv. apply (f_equal Real). unfold get_kinetic_energy. cbv zeta.
      replace (0.5 * mass self * magnitude (velocity self)
               * magnitude (velocity self))
        with (0.5 * mass self * magnitude (velocity self) ^ 2) by ring.
      rewrite Hv. replace 0.5 with (/ 2) by lra. field. lra.
Qed.

(** ** Acceleration *)

Lemma sum_forces_alone (h : list CelestialBody) (self : ref) (l : list ref)
    (total_force : Vector3D) :
  (forall b, b ∈ l -> b = self) ->
  sum_forces h self l total_force = Ok total_force.
Proof.
  induction l as [| b l IH]; intros Hall; cbn [sum_forces]; [reflexivity |].
  rewrite decide_True by (apply Hall; left).
  apply IH. intros b' Hb'. apply Hall. now right.
Qed.

(** X14.  [calculate_acceleration] performs one evaluation.  With a zero
    mass it raises [ZeroDivisionError] and leaves every object as it was.
    Otherwise it returns the acceleration, stores it in the
    [acceleration] attribute of [self] and changes nothing else; with no
    other body in the list the acceleration is the zero vector. *)
Theorem calculate_acceleration_effect (self : ref) (bodies : list ref)
    (h : list CelestialBody) :
  (self < length h)%nat ->
  let r := calculate_acceleration self bodies h in
  evals r = [AccelEval self (positions_of h bodies)]
  /\ (mass (h !!! self) = 0 ->
      outcome r = Raise ZeroDivisionError /\ state_after r = h)
  /\ (mass (h !!! self) <> 0 ->
      exists a,
        outcome r = Ok a
        /\ state_after r !!! self = with_acceleration a (h !!! self)
        /\ (forall b, b <> self -> state_after r !!! b = h !!! b)
        /\ length (state_after r) = length h
        /\ ((forall b, b ∈ bodies -> b = self) -> a = Vec3 0 0 0)).
Proof.
  intros Hlt r. subst r.
  destruct (Req_dec_T (mass (h !!! self)) 0) as [Hz | Hnz].
  - rewrite (calculate_acceleration_raise _ _ _ Hz). cbn [evals outcome state_after].
    split; [reflexivity |]. split; [auto | contradiction].
  - rewrite (calculate_acceleration_run _ _ _ Hnz). cbn [evals outcome state_after].
    split; [reflexivity |]. split; [contradiction |].
    intros _. eexists. split; [reflexivity |].
    split; [now apply list_lookup_total_insert_eq |].
    split; [intros b Hb; apply list_lookup_total_insert_ne; congruence |].
    split; [apply length_insert |].
    intros Halone. unfold acceleration_of, net_force.
    rewrite (sum_forces_alone _ _ _ _ Halone).
    apply Vec3_eq; cbn; unfold Rdiv; ring.
Qed.

Lemma calculate_acceleration_effect_witness :
  exists a,
    outcome (calculate_acceleration 1 [0%nat; 1%nat] [create_sun; earth]) = Ok a
    /\ state_after (calculate_acceleration 1 [0%nat; 1%nat] [create_sun; earth])
         !!! 1%nat
       = with_acceleration a earth.
Proof.
  destruct (calculate_acceleration_effect 1 [0%nat; 1%nat] [create_sun; earth])
    as (_ & _ & H).
  - cbn. lia.
  - destruct H as (a & Ha & Hs & _).
    + change ([create_sun; earth] !!! 1%nat) with earth.
      unfold earth, CelestialBody_init. cbn [mass]. lra.
    + exists a. split; [exact Ha | exact Hs].
Defined.

(** The object [b] with another mass. *)
Definition with_mass (m : R) (b : CelestialBody) : CelestialBody :=
  Body (name b) m (position b) (velocity b) (radius b) (color b)
       (trajectory b) (acceleration b).

Lemma force_scales_with_mass (b1 b2 : CelestialBody) (m' : R) (f : Vector3D) :
  mass b1 <> 0 ->
  calculate_gravitational_force b1 b2 = Ok f ->
  calculate_gravitational_force (with_mass m' b1) b2
  = Ok (f * (m' / mass b1))%V.
Proof.
  intros Hm Hf.
  destruct (Rlt_dec (magnitude (position b2 - position b1)) 1e-6)
    as [Hlt | Hge].
  - rewrite force_below_epsilon in Hf by exact Hlt. injection Hf as <-.
    rewrite force_below_epsilon by exact Hlt.
    f_equal. apply Vec3_eq; cbn; ring.
  - rewrite force_above_epsilon in Hf by exact Hge. injection Hf as <-.
    rewrite force_above_epsilon by exact Hge.
    cbn [position mass with_mass].
    set (r := magnitude (position b2 - position b1)) in *.
    f_equal. apply Vec3_eq; cbn; field; split; lra.
Qed.

Lemma sum_forces_scales_with_mass (h : list CelestialBody) (self : ref)
    (m' : R) (l : list ref) :
  (self < length h)%nat ->
  mass (h !!! self) <> 0 ->
  forall total_force f,
    sum_forces h self l total_force = Ok f ->
    sum_forces (<[self := with_mass m' (h !!! self)]> h) self l
               (total_force * (m' / mass (h !!! self)))%V
    = Ok (f * (m' / mass (h !!! self)))%V.
Proof.
  intros Hlt Hm.
  induction l as [| body l IH]; intros total_force f Hf; cbn [sum_forces] in *.
  - now injection Hf as <-.
  - case_decide as Hd; [now apply IH |].
    rewrite list_lookup_total_insert_eq by exact Hlt.
    rewrite list_lookup_total_insert_ne by congruence.
    destruct (force_total (h !!! self) (h !!! body)) as [g Hg].
    rewrite Hg in Hf. cbn [mbind result_bind] in Hf.
    rewrite (force_scales_with_mass _ _ m' g Hm Hg). cbn [mbind result_bind].
    replace (total_force * (m' / mass (h !!! self))
             + g * (m' / mass (h !!! self)))%V
      with ((total_force + g) * (m' / mass (h !!! self)))%V
      by (apply Vec3_eq; cbn; ring).
    now apply IH.
Qed.

(** X15.  The acceleration of a body does not depend on its own mass:
    giving [self] any other non-zero mass leaves the value returned by
    [calculate_acceleration] the same. *)
Theorem acceleration_independent_of_own_mass (self : ref) (bodies : list ref)
    (h : list CelestialBody) (m' : R) :
  (self < length h)%nat ->
  mass (h !!! self) <> 0 ->
  m' <> 0 ->
  exists a,
    outcome (calculate_acceleration self bodies h) = Ok a
    /\ outcome (calculate_acceleration self bodies
                  (<[self := with_mass m' (h !!! self)]> h))
       = Ok a.
Proof.
  intros Hlt Hm Hm'.
  set (h' := <[self := with_mass m' (h !!! self)]> h).
  assert (Hself : h' !!! self = with_mass m' (h !!! self))
    by (apply list_lookup_total_insert_eq; exact Hlt).
  rewrite (calculate_acceleration_run _ _ _ Hm).
  rewrite (calculate_acceleration_run self bodies h')
    by (rewrite Hself; exact Hm').
  cbn [outcome]. eexists. split; [reflexivity |]. f_equal.
  unfold acceleration_of, net_force.
  destruct (sum_forces_total h self bodies (Vec3 0 0 0)) as [f Hf].
  pose proof (sum_forces_scales_with_mass h self m' bodies Hlt Hm _ _ Hf) as Hs.
  replace (Vec3 0 0 0 * (m' / mass (h !!! self)))%V with (Vec3 0 0 0) in Hs
    by (apply Vec3_eq; cbn; ring).
  fold h' in Hs. rewrite Hf, Hs, Hself. cbn [mass with_mass].
  apply Vec3_eq; cbn; field; split; assumption.
Qed.

Lemma acceleration_independent_of_own_mass_witness :
  exists a,
    outcome (calculate_acceleration 1 [0%nat; 1%nat] [create_sun; earth]) = Ok a
    /\ outcome (calculate_acceleration 1 [0%nat; 1%nat]
                  [create_sun; with_mass 1 earth])
       = Ok a.
Proof.
  apply (acceleration_independent_of_own_mass 1 [0%nat; 1%nat]
           [create_sun; earth] 1).
  - cbn. lia.
  - change ([create_sun; earth] !!! 1%nat) with earth.
    unfold earth, CelestialBody_init. cbn [mass]. lra.
  - lra.
Defined.

(** ** Orbital velocity *)

(** X16.  [calculate_orbital_velocity] raises [ZeroDivisionError] for a
    zero distance; otherwise, when [G * M / distance] is not negative, it
    returns the square root of that number whatever the [circular] flag:
    the "elliptical" branch computes the same number. *)
Theorem orbital_velocity_flag_is_inert (distance sun_mass : R)
    (circular : bool) :
  (distance = 0 ->
   calculate_orbital_velocity distance sun_mass circular
   = Raise ZeroDivisionError)
  /\ (distance <> 0 ->
      0 <= G * sun_mass / distance ->
      calculate_orbital_velocity distance sun_mass circular
      = Ok (sqrt (G * sun_mass / distance))
      /\ sqrt (G * sun_mass / distance) ^ 2 = G * sun_mass / distance).
Proof.
  unfold calculate_orbital_velocity, float_div. split.
  - intros ->. destruct circular; destruct (Req_dec_T 0 0); try lra; reflexivity.
  - intros Hd Hq. split; [| now apply pow2_sqrt].
    destruct circular; destruct (Req_dec_T distance 0); try lra;
      cbn [mbind result_bind]; [reflexivity |].
    do 2 f_equal. field. exact Hd.
Qed.

Lemma orbital_velocity_flag_is_inert_witness :
  calculate_orbital_velocity AU SOLAR_MASS false
  = Ok (sqrt (G * SOLAR_MASS / AU)).
Proof.
  apply (proj2 (orbital_velocity_flag_is_inert AU SOLAR_MASS false)).
  - unfold AU. lra.
  - pose proof G_pos. pose proof SOLAR_MASS_pos.
    assert (0 < AU) by (unfold AU; lra).
    apply Rmult_le_pos; [nra |]. left. now apply Rinv_0_lt_compat.
Defined.

(** ** The solver of Kepler's equation *)

Lemma Rabs_sin_le (a : R) : Rabs (sin a) <= Rabs a.
Proof.
  assert (Hpos : forall t, 0 < t -> Rabs (sin t) <= t).
  { intros t Ht. apply Rabs_le. split; [| left; now apply sin_lt_x].
    destruct (Rlt_dec t 1) as [Hlt | Hge].
    - pose proof PI2_1. pose proof PI_RGT_0.
      assert (0 < sin t) by (apply sin_gt_0; lra). lra.
    - pose proof (SIN_bound t). lra. }
  destruct (Rtotal_order a 0) as [Hneg | [-> | Hgt]].
  - rewrite (Rabs_left a) by exact Hneg.
    rewrite <- (Rabs_Ropp (sin a)), <- sin_neg. apply Hpos. lra.
  - rewrite sin_0, Rabs_R0. lra.
  - rewrite (Rabs_right a) by lra. now apply Hpos.
Qed.

Lemma sin_lipschitz (a b : R) : Rabs (sin a - sin b) <= Rabs (a - b).
Proof.
  rewrite form4, !Rabs_mult.
  pose proof (COS_bound ((a + b) / 2)) as Hc.
  assert (Hc' : Rabs (cos ((a + b) / 2)) <= 1) by (apply Rabs_le; lra).
  pose proof (Rabs_sin_le ((a - b) / 2)) as Hs.
  pose proof (Rabs_pos (sin ((a - b) / 2))) as Hs0.
  pose proof (Rabs_pos (cos ((a + b) / 2))) as Hc0.
  rewrite (Rabs_right 2) by lra.
  replace (Rabs (a - b)) with (2 * Rabs ((a - b) / 2)).
  - nra.
  - unfold Rdiv. rewrite Rabs_mult, (Rabs_right (/ 2)) by lra. lra.
Qed.

Lemma kepler_iterate_bound (n : nat) (M e tol : R) :
  forall E,
    Rabs (E - M) <= Rabs e ->
    Rabs (kepler_iterate n M e tol E - M) <= Rabs e.
Proof.
  induction n as [| n IH]; intros E HE; cbn [kepler_iterate]; [exact HE |].
  assert (Hnew : Rabs (M + e * sin E - M) <= Rabs e).
  { replace (M + e * sin E - M) with (e * sin E) by ring.
    rewrite Rabs_mult. pose proof (SIN_bound E).
    assert (Rabs (sin E) <= 1) by (apply Rabs_le; lra).
    pose proof (Rabs_pos e). nra. }
  destruct (Rlt_dec _ tol); [exact Hnew | now apply IH].
Qed.

(** X17.  Whatever the tolerance and the number of iterations, the
    eccentric anomaly returned by the solver is within [|e|] of the mean
    anomaly, and it is the mean anomaly itself for an eccentricity below
    [1e-6] or when no iteration is allowed. *)
Theorem kepler_solver_stays_near_mean_anomaly (M e tol : R) (n : nat) :
  Rabs (kepler_equation_solver M e tol n - M) <= Rabs e
  /\ (e < 1e-6 -> kepler_equation_solver M e tol n = M)
  /\ kepler_equation_solver M e tol 0 = M.
Proof.
  unfold kepler_equation_solver. split; [| split].
  - destruct (Rlt_dec e 1e-6).
    + replace (M - M) with 0 by ring. rewrite Rabs_R0. apply Rabs_pos.
    + apply kepler_iterate_bound.
      replace (M - M) with 0 by ring. rewrite Rabs_R0. apply Rabs_pos.
  - intros He. destruct (Rlt_dec e 1e-6); [reflexivity | contradiction].
  - destruct (Rlt_dec e 1e-6); reflexivity.
Qed.

Lemma kepler_solver_stays_near_mean_anomaly_witness :
  kepler_equation_solver 1 0 1e-10 100 = 1.
Proof.
  apply (proj1 (proj2 (kepler_solver_stays_near_mean_anomaly 1 0 1e-10 100))).
  lra.
Defined.

Lemma kepler_iterate_residual (n : nat) (M e tol : R) :
  forall E0,
    let E := kepler_iterate n M e tol E0 in
    Rabs (E - e * sin E - M) <= Rabs e * tol
    \/ E = Nat.iter n (λ E, M + e * sin E) E0.
Proof.
  induction n as [| n IH]; intros E0; cbn [kepler_iterate]; [now right |].
  cbv zeta. destruct (Rlt_dec _ tol) as [Hconv | Hnot].
  - left. set (E1 := M + e * sin E0) in *.
    replace (E1 - e * sin E1 - M) with (e * (sin E0 - sin E1))
      by (unfold E1; ring).
    rewrite Rabs_mult. pose proof (sin_lipschitz E0 E1) as Hl.
    rewrite (Rabs_minus_sym E0 E1) in Hl.
    pose proof (Rabs_pos e). nra.
  - rewrite Nat.iter_succ_r. apply IH.
Qed.

(** X18.  For an eccentricity of at least [1e-6] the solver either
    returns a value [E] that satisfies Kepler's equation
    [M = E - e sin E] within [|e| * tolerance] (it stopped on its
    convergence test), or it used all its iterations and returns the
    last iterate of [E := M + e sin E] started from [M], converged or
    not. *)
Theorem kepler_solver_residual (M e tol : R) (n : nat) :
  ~ e < 1e-6 ->
  let E := kepler_equation_solver M e tol n in
  Rabs (E - e * sin E - M) <= Rabs e * tol
  \/ E = Nat.iter n (λ E, M + e * sin E) M.
Proof.
  intros He. unfold kepler_equation_solver.
  destruct (Rlt_dec e 1e-6); [contradiction |].
  apply kepler_iterate_residual.
Qed.

Lemma kepler_solver_residual_witness :
  let E := kepler_equation_solver 1 0.5 1e-10 100 in
  Rabs (E - 0.5 * sin E - 1) <= Rabs 0.5 * 1e-10
  \/ E = Nat.iter 100 (λ E, 1 + 0.5 * sin E) 1.
Proof.
  apply (kepler_solver_residual 1 0.5 1e-10 100). lra.
Defined.

(** ** Position prediction: keys and geometry *)

(** The keys read by [predict_position_from_elements], in the order in
    which it reads them. *)
Definition predict_keys : list string :=
  ["semi_major_axis"; "eccentricity"; "inclination";
   "longitude_of_ascending_node"; "argument_of_periapsis"].

Definition missing (d : gmap string R) (key : string) : bool :=
  match d !! key with
  | Some _ => false
  | None => true
  end.

Lemma getitem_None (d : gmap string R) (k : string) :
  d !! k = None -> getitem d k = Raise (KeyError k).
Proof. intros H. unfold getitem. now rewrite H. Qed.

(** X19.  [predict_position_from_elements] raises [KeyError] for the
    first key, in reading order, that the dictionary lacks; in particular
    a dictionary without [argument_of_periapsis] is refused, although
    that entry has no effect on the result.  With the five keys present
    it raises [ZeroDivisionError] for a zero semi-major axis (the mean
    motion divides by its cube) and returns a position otherwise. *)
Theorem predict_position_key_errors (d : gmap string R) (time sun_mass : R) :
  match List.find (missing d) predict_keys with
  | Some key =>
      predict_position_from_elements d time sun_mass = Raise (KeyError key)
  | None =>
      (d !! "semi_major_axis" = Some 0 ->
       predict_position_from_elements d time sun_mass
       = Raise ZeroDivisionError)
      /\ (d !! "semi_major_axis" <> Some 0 ->
          exists p, predict_position_from_elements d time sun_mass = Ok p)
  end.
Proof.
  unfold predict_keys, missing, predict_position_from_elements. cbn [List.find].
  destruct (d !! "semi_major_axis") as [a |] eqn:Ha;
    [rewrite (getitem_Some _ _ _ Ha) | now rewrite (getitem_None _ _ Ha)].
  destruct (d !! "eccentricity") as [e |] eqn:He;
    [rewrite (getitem_Some _ _ _ He) | now rewrite (getitem_None _ _ He)].
  destruct (d !! "inclination") as [i |] eqn:Hi;
    [rewrite (getitem_Some _ _ _ Hi) | now rewrite (getitem_None _ _ Hi)].
  destruct (d !! "longitude_of_ascending_node") as [Om |] eqn:HOm;
    [rewrite (getitem_Some _ _ _ HOm) | now rewrite (getitem_None _ _ HOm)].
  destruct (d !! "argument_of_periapsis") as [om |] eqn:Hom;
    [rewrite (getitem_Some _ _ _ Hom) | now rewrite (getitem_None _ _ Hom)].
  cbn [fmap result_fmap mbind result_bind]. split.
  - intros [= ->]. replace (0 ^ 3) with 0 by ring.
    now rewrite float_div_zero.
  - intros Hne.
    assert (Ha0 : a <> 0) by (intros ->; now apply Hne).
    rewrite (float_div_nonzero _ _ (pow3_nonzero a Ha0)).
    eexists. reflexivity.
Qed.

(** The dictionary [circular_elements] lacks the unused key. *)
Lemma predict_position_key_errors_witness :
  predict_position_from_elements circular_elements 3600 SOLAR_MASS
  = Raise (KeyError "argument_of_periapsis").
Proof.
  exact (predict_position_key_errors circular_elements 3600 SOLAR_MASS).
Defined.

Lemma rotation_preserves_norm (u v c : R) :
  (u * cos c - v * sin c) ^ 2 + (u * sin c + v * cos c) ^ 2 = u ^ 2 + v ^ 2.
Proof.
  pose proof (sin2_cos2 c) as H. unfold Rsqr in H.
  replace ((u * cos c - v * sin c) ^ 2 + (u * sin c + v * cos c) ^ 2)
    with ((u ^ 2 + v ^ 2) * (sin c * sin c + cos c * cos c)) by ring.
  rewrite H. ring.
Qed.

(** X20.  For a positive semi-major axis, a central mass that is not
    negative and an eccentricity between -1 and 1, a predicted position
    is computed at the eccentric anomaly [E] that the solver returns for
    the mean anomaly [n * time], where the mean motion [n] obeys Kepler's
    third law [n^2 * a^3 = G * M].  Its distance from the origin, in
    projection on the reference plane, is the orbital radius
    [a * (1 - e * cos E)], whatever the node angle; that radius lies
    between [a * (1 - |e|)] and [a * (1 + |e|)]; and with a zero
    inclination the position is in the reference plane, at that distance
    from the origin. *)
Theorem predict_position_radius (d : gmap string R) (time sun_mass : R)
    (a e : R) (p : Vector3D) :
  d !! "semi_major_axis" = Some a ->
  d !! "eccentricity" = Some e ->
  0 < a ->
  0 <= sun_mass ->
  -1 <= e <= 1 ->
  predict_position_from_elements d time sun_mass = Ok p ->
  exists n,
    0 <= n
    /\ n ^ 2 * a ^ 3 = G * sun_mass
    /\ let E := kepler_equation_solver (n * time) e 1e-10 100 in
       let r := a * (1 - e * cos E) in
       a * (1 - Rabs e) <= r <= a * (1 + Rabs e)
       /\ sqrt (x p ^ 2 + y p ^ 2) = r
       /\ (d !! "inclination" = Some 0 -> z p = 0 /\ magnitude p = r).
Proof.
  intros Ha He Hpos Hm Hecc Hp.
  assert (Ha3 : 0 < a ^ 3) by now apply pow_lt.
  assert (Hq : 0 <= G * sun_mass / a ^ 3).
  { pose proof G_pos. apply Rmult_le_pos; [nra |].
    left. now apply Rinv_0_lt_compat. }
  exists (sqrt (G * sun_mass / a ^ 3)).
  split; [apply sqrt_pos |]. split.
  { rewrite pow2_sqrt by exact Hq. field. lra. }
  intros E r.
  assert (Hcos : -1 <= cos E <= 1) by apply COS_bound.
  assert (Hec : - Rabs e <= e * cos E <= Rabs e).
  { unfold Rabs. destruct (Rcase_abs e) as [Hneg | Hnn].
    - assert (0 <= (- e) * (1 + cos E)) by (apply Rmult_le_pos; lra).
      assert (0 <= (- e) * (1 - cos E)) by (apply Rmult_le_pos; lra).
      split; lra.
    - assert (0 <= e * (1 + cos E)) by (apply Rmult_le_pos; lra).
      assert (0 <= e * (1 - cos E)) by (apply Rmult_le_pos; lra).
      split; lra. }
  assert (Habs : Rabs e <= 1) by (apply Rabs_le; lra).
  assert (Hr : a * (1 - Rabs e) <= r <= a * (1 + Rabs e)).
  { unfold r.
    assert (0 <= a * (Rabs e - e * cos E)) by (apply Rmult_le_pos; lra).
    assert (0 <= a * (Rabs e + e * cos E)) by (apply Rmult_le_pos; lra).
    split; lra. }
  assert (Hr0 : 0 <= r).
  { assert (0 <= a * (1 - Rabs e)) by (apply Rmult_le_pos; lra). lra. }
  unfold predict_position_from_elements in Hp.
  rewrite (getitem_Some _ _ _ Ha), (getitem_Some _ _ _ He) in Hp.
  cbn [mbind result_bind] in Hp.
  destruct (d !! "inclination") as [i |] eqn:Hi;
    [rewrite (getitem_Some _ _ _ Hi) in Hp
    | rewrite (getitem_None _ _ Hi) in Hp; discriminate].
  destruct (getitem d "longitude_of_ascending_node") as [Om |];
    [| discriminate].
  destruct (getitem d "argument_of_periapsis") as [om |]; [| discriminate].
  cbn [fmap result_fmap mbind result_bind] in Hp.
  rewrite (float_div_nonzero _ (a ^ 3)) in Hp by lra.
  cbn [mbind result_bind] in Hp. cbv zeta in Hp.
  fold E in Hp. fold r in Hp. injection Hp as <-. cbn [x y z].
  set (nu := 2 * np_arctan2 _ _).
  assert (Hplane :
            (r * cos nu * cos (np_radians Om)
             - r * sin nu * sin (np_radians Om)) ^ 2
            + (r * cos nu * sin (np_radians Om)
               + r * sin nu * cos (np_radians Om)) ^ 2
            = r ^ 2).
  { rewrite rotation_preserves_norm.
    pose proof (sin2_cos2 nu) as H. unfold Rsqr in H.
    replace ((r * cos nu) ^ 2 + (r * sin nu) ^ 2)
      with (r ^ 2 * (sin nu * sin nu + cos nu * cos nu)) by ring.
    rewrite H. ring. }
  split; [exact Hr |]. split.
  { rewrite Hplane. now apply sqrt_pow2. }
  intros [= ->].
  assert (Hz : r * sin nu * sin (np_radians 0) = 0).
  { unfold np_radians. rewrite Rmult_0_l, sin_0. ring. }
  split; [exact Hz |].
  unfold magnitude; cbn [x y z].
  rewrite Hz, Hplane.
  replace (r ^ 2 + 0 ^ 2) with (r ^ 2) by ring.
  now apply sqrt_pow2.
Qed.

(** The circular orbit with every key present. *)
Definition circular_elements_full : gmap string R :=
  <["argument_of_periapsis" := 0]> circular_elements.

Lemma circular_elements_full_lookup :
  circular_elements_full !! "semi_major_axis" = Some AU
  /\ circular_elements_full !! "eccentricity" = Some 0
  /\ circular_elements_full !! "inclination" = Some 0
  /\ circular_elements_full !! "longitude_of_ascending_node" = Some 0
  /\ circular_elements_full !! "argument_of_periapsis" = Some 0.
Proof.
  unfold circular_elements_full, circular_elements.
  repeat split;
    repeat (first [ rewrite lookup_insert_eq; reflexivity
                  | rewrite lookup_insert_ne by done ]).
Qed.

Lemma circular_elements_full_position :
  exists p,
    predict_position_from_elements circular_elements_full 3600 SOLAR_MASS
    = Ok p.
Proof.
  destruct circular_elements_full_lookup as (Ha & He & Hi & HOm & Hom).
  unfold predict_position_from_elements.
  rewrite (getitem_Some _ _ _ Ha), (getitem_Some _ _ _ He),
    (getitem_Some _ _ _ Hi), (getitem_Some _ _ _ HOm), (getitem_Some _ _ _ Hom).
  cbn [fmap result_fmap mbind result_bind].
  assert (HAU : AU <> 0) by (unfold AU; lra).
  rewrite (float_div_nonzero _ _ (pow3_nonzero AU HAU)).
  eexists. reflexivity.
Qed.

Lemma predict_position_radius_witness :
  exists p,
    predict_position_from_elements circular_elements_full 3600 SOLAR_MASS
    = Ok p
    /\ sqrt (x p ^ 2 + y p ^ 2) = AU
    /\ magnitude p = AU.
Proof.
  destruct circular_elements_full_position as [p Hp].
  destruct circular_elements_full_lookup as (Ha & He & Hi & _).
  assert (HAU : 0 < AU) by (unfold AU; lra).
  assert (Hm : 0 <= SOLAR_MASS) by (pose proof SOLAR_MASS_pos; lra).
  assert (He0 : -1 <= 0 <= 1) by lra.
  destruct (predict_position_radius circular_elements_full 3600 SOLAR_MASS
              AU 0 p Ha He HAU Hm He0 Hp)
    as (n & _ & _ & _ & Hplane & Hflat).
  destruct (Hflat Hi) as [_ Hmag].
  exists p. split; [exact Hp |].
  rewrite Hplane, Hmag. split; ring.
Defined.

(** ** Orbital elements: faults, ranges and the circular orbit *)

Lemma orbit_locals_raises (p v : Vector3D) :
  orbit_locals p v 0 = Raise ZeroDivisionError.
Proof.
  unfold orbit_locals. rewrite Rmult_0_r, truediv_zero. reflexivity.
Qed.

Lemma orbit_locals_eccentricity (p v : Vector3D) (m : R) :
  m <> 0 ->
  exists l, orbit_locals p v m = Ok l /\ 0 <= loc_e l.
Proof.
  intros Hm.
  assert (Hmu : G * m <> 0) by (pose proof G_pos; nra).
  unfold orbit_locals.
  rewrite (result_bind_Ok _ _ _ (truediv_nonzero _ _ Hmu)).
  destruct (normalize_total p) as [r_hat Hr].
  rewrite (result_bind_Ok _ _ _ Hr).
  eexists. split; [reflexivity |]. cbn [loc_e]. apply magnitude_nonneg.
Qed.

(** X21.  [calculate_orbital_elements] raises [ZeroDivisionError] exactly
    when the central mass is zero.  Otherwise the eccentricity it reports
    is not negative, periapsis and apoapsis are reported exactly when the
    eccentricity is below 1, in which case they add up to twice the
    semi-major axis and, for a semi-major axis that is not negative, the
    periapsis is the smaller one. *)
Theorem orbital_elements_domain (p v : Vector3D) (m : R) :
  (calculate_orbital_elements p v m = Raise ZeroDivisionError <-> m = 0)
  /\ (m <> 0 ->
      exists el,
        calculate_orbital_elements p v m = Ok el
        /\ 0 <= eccentricity el
        /\ (periapsis el = None <-> 1 <= eccentricity el)
        /\ (apoapsis el = None <-> 1 <= eccentricity el)
        /\ (eccentricity el < 1 ->
            exists rp ra,
              periapsis el = Some rp /\ apoapsis el = Some ra
              /\ rp + ra = 2 * semi_major_axis el
              /\ (0 <= semi_major_axis el -> rp <= ra))).
Proof.
  assert (Hok : m <> 0 ->
                exists l,
                  calculate_orbital_elements p v m
                  = Ok {| semi_major_axis := loc_a l;
                          eccentricity := loc_e l;
                          inclination := np_degrees (loc_i l);
                          longitude_of_ascending_node := np_degrees (loc_Omega l);
                          argument_of_periapsis := np_degrees (loc_omega l);
                          true_anomaly := np_degrees (loc_nu l);
                          period := loc_period l;
                          periapsis := if Rlt_dec (loc_e l) 1
                                       then Some (loc_a l * (1 - loc_e l))
                                       else None;
                          apoapsis := if Rlt_dec (loc_e l) 1
                                      then Some (loc_a l * (1 + loc_e l))
                                      else None |}
                  /\ 0 <= loc_e l).
  { intros Hm. destruct (orbit_locals_eccentricity p v m Hm) as (l & Hl & He).
    exists l. split; [| exact He].
    unfold calculate_orbital_elements. now rewrite (result_bind_Ok _ _ _ Hl). }
  split.
  - split.
    + intros Hraise. destruct (Req_dec_T m 0) as [| Hm]; [assumption |].
      destruct (Hok Hm) as (l & Hl & _). rewrite Hl in Hraise. discriminate.
    + intros ->. unfold calculate_orbital_elements.
      now rewrite orbit_locals_raises.
  - intros Hm. destruct (Hok Hm) as (l & Hl & He).
    eexists. split; [exact Hl |].
    cbn [eccentricity periapsis apoapsis semi_major_axis].
    split; [exact He |].
    destruct (Rlt_dec (loc_e l) 1) as [Hlt | Hge].
    + split; [split; [discriminate | lra] |].
      split; [split; [discriminate | lra] |].
      intros _. eexists _, _. split; [reflexivity |]. split; [reflexivity |].
      split; [ring | nra].
    + split; [split; [lra | reflexivity] |].
      split; [split; [lra | reflexivity] |].
      intros Hlt. lra.
Qed.

Lemma orbital_elements_domain_witness :
  exists el,
    calculate_orbital_elements (Vec3 AU 0 0) (Vec3 0 29780 0) SOLAR_MASS = Ok el
    /\ 0 <= eccentricity el.
Proof.
  destruct (proj2 (orbital_elements_domain (Vec3 AU 0 0) (Vec3 0 29780 0)
                     SOLAR_MASS))
    as (el & Hel & He & _).
  - unfold SOLAR_MASS. lra.
  - exists el. auto.
Defined.

(** The vector triple product [v x (p x v) = p (v . v) - v (p . v)]. *)
Lemma cross_cross (p v : Vector3D) :
  cross v (cross p v) = (p * dot v v - v * dot p v)%V.
Proof. apply Vec3_eq; unfold cross, dot; cbn; ring. Qed.

Lemma orbit_locals_circular (p v : Vector3D) (m : R) :
  0 < m ->
  magnitude p <> 0 ->
  dot p v = 0 ->
  magnitude v ^ 2 = G * m / magnitude p ->
  exists l,
    orbit_locals p v m = Ok l
    /\ loc_a l = magnitude p
    /\ loc_e l = 0
    /\ loc_omega l = 0
    /\ loc_nu l = 0
    /\ loc_period l = Finite (2 * PI * sqrt (magnitude p ^ 3 / (G * m))).
Proof.
  intros Hm Hp Hperp Hspeed.
  pose proof G_pos as HG. pose proof (magnitude_nonneg p) as Hp0.
  assert (Hmu : G * m <> 0) by nra.
  set (rr := magnitude p) in *.
  assert (Hvv : dot v v = G * m / rr).
  { rewrite <- Hspeed. unfold magnitude.
    rewrite pow2_sqrt by apply sum_squares_nonneg. unfold dot. ring. }
  assert (He : (Vec3 (x (cross v (cross p v)) / (G * m))
                     (y (cross v (cross p v)) / (G * m))
                     (z (cross v (cross p v)) / (G * m))
                - Vec3 (x p / rr) (y p / rr) (z p / rr))%V
               = Vec3 0 0 0).
  { rewrite cross_cross, Hvv, Hperp.
    apply Vec3_eq; cbn; field; repeat split; (assumption || lra). }
  assert (Ha : - (G * m) / (2 * (0.5 * magnitude v * magnitude v - G * m / rr))
               = rr).
  { replace (0.5 * magnitude v * magnitude v)
      with (/ 2 * magnitude v ^ 2) by lra.
    rewrite Hspeed. field. repeat split; (assumption || lra). }
  unfold orbit_locals.
  rewrite (result_bind_Ok _ _ _ (truediv_nonzero _ _ Hmu)).
  rewrite (result_bind_Ok _ _ _ (normalize_nonzero p Hp)).
  fold rr. cbv zeta. rewrite He. fold vzero. rewrite magnitude_vzero.
  eexists. split; [reflexivity |].
  cbn [loc_a loc_e loc_omega loc_nu loc_period].
  assert (Ha' : (if Rge_dec (0.5 * magnitude v * magnitude v - G * m / rr) 0
                 then - (G * m) / (2 * (0.5 * magnitude v * magnitude v
                                        - G * m / rr))
                 else - (G * m) / (2 * (0.5 * magnitude v * magnitude v
                                        - G * m / rr)))
                = rr)
    by (destruct (Rge_dec _ 0); exact Ha).
  rewrite Ha'.
  split; [reflexivity |]. split; [reflexivity |].
  destruct (Rgt_dec 0 0) as [Habs | _]; [lra |].
  split; [now destruct (Rgt_dec _ 0) |]. split; [reflexivity |].
  destruct (Rgt_dec rr 0); [reflexivity | lra].
Qed.

(** X22.  A body whose velocity is perpendicular to its position and has
    the circular speed, [|v|^2 = G * M / |r|], is on a circular orbit:
    the semi-major axis is [|r|], the eccentricity is 0, periapsis and
    apoapsis are both [|r|], the period is [2 PI sqrt (|r|^3 / (G M))],
    and the argument of periapsis and the true anomaly are reported as
    0. *)
Theorem circular_orbit_elements (p v : Vector3D) (m : R) :
  0 < m ->
  magnitude p <> 0 ->
  dot p v = 0 ->
  magnitude v ^ 2 = G * m / magnitude p ->
  exists el,
    calculate_orbital_elements p v m = Ok el
    /\ semi_major_axis el = magnitude p
    /\ eccentricity el = 0
    /\ periapsis el = Some (magnitude p)
    /\ apoapsis el = Some (magnitude p)
    /\ period el = Finite (2 * PI * sqrt (magnitude p ^ 3 / (G * m)))
    /\ argument_of_periapsis el = 0
    /\ true_anomaly el = 0.
Proof.
  intros Hm Hp Hperp Hspeed.
  destruct (orbit_locals_circular p v m Hm Hp Hperp Hspeed)
    as (l & Hl & Ha & He & Hom & Hnu & Hper).
  unfold calculate_orbital_elements. rewrite (result_bind_Ok _ _ _ Hl).
  eexists. split; [reflexivity |].
  cbn [semi_major_axis eccentricity periapsis apoapsis period
       argument_of_periapsis true_anomaly].
  rewrite Ha, He, Hom, Hnu, Hper.
  destruct (Rlt_dec 0 1); [| lra].
  unfold np_degrees.
  repeat split; try reflexivity; try (f_equal; ring); ring.
Qed.

Lemma circular_orbit_elements_witness :
  exists el,
    calculate_orbital_elements (Vec3 AU 0 0)
      (Vec3 0 (sqrt (G * SOLAR_MASS / AU)) 0) SOLAR_MASS = Ok el
    /\ semi_major_axis el = AU
    /\ eccentricity el = 0.
Proof.
  assert (HAU : 0 < AU) by (unfold AU; lra).
  assert (Hmag : magnitude (Vec3 AU 0 0) = AU).
  { unfold magnitude; cbn [x y z].
    replace (AU ^ 2 + 0 ^ 2 + 0 ^ 2) with (AU ^ 2) by ring.
    apply sqrt_pow2. lra. }
  assert (Hq : 0 <= G * SOLAR_MASS / AU).
  { pose proof G_pos. pose proof SOLAR_MASS_pos.
    apply Rmult_le_pos; [nra |]. left. now apply Rinv_0_lt_compat. }
  destruct (circular_orbit_elements (Vec3 AU 0 0)
              (Vec3 0 (sqrt (G * SOLAR_MASS / AU)) 0) SOLAR_MASS)
    as (el & Hel & Ha & He & _).
  - exact SOLAR_MASS_pos.
  - rewrite Hmag. lra.
  - unfold dot; cbn. ring.
  - rewrite Hmag. unfold magnitude; cbn [x y z].
    rewrite pow2_sqrt by nra.
    replace (0 ^ 2 + sqrt (G * SOLAR_MASS / AU) ^ 2 + 0 ^ 2)
      with (sqrt (G * SOLAR_MASS / AU) ^ 2) by ring.
    now apply pow2_sqrt.
  - exists el. rewrite Hmag in Ha. auto.
Defined.

(** ** Seeding a body from polar parameters *)

Lemma magnitude_polar (d c : R) :
  magnitude (Vec3 (d * cos c) (d * sin c) 0) = Rabs d.
Proof.
  unfold magnitude; cbn [x y z].
  pose proof (sin2_cos2 c) as H. unfold Rsqr in H.
  replace ((d * cos c) ^ 2 + (d * sin c) ^ 2 + 0 ^ 2)
    with (d² * (sin c * sin c + cos c * cos c)) by (unfold Rsqr; ring).
  rewrite H, Rmult_1_r. apply sqrt_Rsqr_abs.
Qed.

Lemma polar_perpendicular (d v c : R) :
  dot (Vec3 (d * cos c) (d * sin c) 0)
      (Vec3 (v * cos (c + PI / 2)) (v * sin (c + PI / 2)) 0) = 0.
Proof.
  unfold dot; cbn [x y z].
  rewrite cos_plus, sin_plus, cos_PI2, sin_PI2. ring.
Qed.

Lemma add_body_from_parameters_run (name : string) (mass : R)
    (distance v angle : R) (radius : R) (color : string)
    (s : OrbitalSimulator) :
  add_body_from_parameters name mass distance v angle radius color s
  = add_body name mass
      (Vec3 (distance * AU * cos (np_radians angle))
            (distance * AU * sin (np_radians angle)) 0)
      (Vec3 (v * cos (np_radians angle + PI / 2))
            (v * sin (np_radians angle + PI / 2)) 0)
      radius color s.
Proof. reflexivity. Qed.

(** X23.  [add_body_from_parameters] allocates a body in the reference
    plane at [|distance| * AU] from the origin, with a velocity of
    magnitude [|initial_velocity|] perpendicular to its position, a zero
    acceleration and an empty trajectory, and appends it to the list. *)
Theorem add_body_from_parameters_geometry (name : string) (mass : R)
    (distance v angle : R) (radius : R) (color : string)
    (s : OrbitalSimulator) :
  let r := add_body_from_parameters name mass distance v angle radius color s in
  let b := heap (state_after r) !!! length (heap s) in
  outcome r = Ok (length (heap s))
  /\ bodies (state_after r) = bodies s ++ [length (heap s)]
  /\ magnitude (position b) = Rabs distance * AU
  /\ magnitude (velocity b) = Rabs v
  /\ dot (position b) (velocity b) = 0
  /\ z (position b) = 0 /\ z (velocity b) = 0
  /\ acceleration b = Vec3 0 0 0
  /\ trajectory b = [].
Proof.
  intros r b. subst r b.
  rewrite add_body_from_parameters_run, add_body_run.
  cbn [outcome state_after heap with_bodies with_heap bodies].
  rewrite lookup_total_app_r by lia. rewrite Nat.sub_diag.
  change ([?c] !!! 0%nat) with c.
  cbn [CelestialBody_init position velocity acceleration trajectory].
  split; [reflexivity |]. split; [reflexivity |].
  split.
  { rewrite magnitude_polar, Rabs_mult. f_equal.
    apply Rabs_right. unfold AU. lra. }
  split; [apply magnitude_polar |].
  split; [apply polar_perpendicular |].
  repeat split; reflexivity.
Qed.

(** ** Lookup by name after an insertion *)

Lemma find_snoc {A} (f : A -> bool) (l : list A) (a : A) :
  List.find f (l ++ [a])
  = match List.find f l with
    | Some b => Some b
    | None => if f a then Some a else None
    end.
Proof.
  induction l as [| b l IH]; cbn [app List.find]; [reflexivity |].
  destruct (f b); [reflexivity | exact IH].
Qed.

Lemma find_agree {A} (f g : A -> bool) (l : list A) :
  (forall b, b ∈ l -> f b = g b) -> List.find f l = List.find g l.
Proof.
  induction l as [| b l IH]; intros H; cbn [List.find]; [reflexivity |].
  rewrite <- (H b) by left. destruct (f b); [reflexivity |].
  apply IH. intros b' Hb'. apply H. now right.
Qed.

Lemma find_by_name_None (s : OrbitalSimulator) (body_name : string) :
  (forall b, b ∈ bodies s -> name (heap s !!! b) <> body_name) ->
  find_by_name s body_name = None.
Proof.
  intros H. unfold find_by_name.
  destruct (List.find _ (bodies s)) as [b |] eqn:F; [| reflexivity].
  apply find_some in F as [Hin Hname]. apply String.eqb_eq in Hname.
  apply list_elem_of_In in Hin. now destruct (H b Hin).
Qed.

Lemma find_by_name_Some (s : OrbitalSimulator) (body_name : string) (b : ref) :
  b ∈ bodies s -> name (heap s !!! b) = body_name ->
  exists b', find_by_name s body_name = Some b' /\ b' ∈ bodies s.
Proof.
  intros Hin Hname. unfold find_by_name.
  destruct (List.find _ (bodies s)) as [b' |] eqn:F.
  - exists b'. split; [reflexivity |].
    apply find_some in F as [Hin' _]. now apply list_elem_of_In.
  - apply list_elem_of_In in Hin.
    pose proof (find_none _ _ F b Hin) as Hneq. cbn beta in Hneq.
    apply String.eqb_neq in Hneq. contradiction.
Qed.

(** The state after [add_body] has allocated the object [c]. *)
Definition added (c : CelestialBody) (s : OrbitalSimulator) : OrbitalSimulator :=
  with_bodies (bodies s ++ [length (heap s)]) (with_heap (heap s ++ [c]) s).

Lemma find_by_name_added (s : OrbitalSimulator) (c : CelestialBody)
    (body_name : string) :
  well_formed s ->
  find_by_name (added c s) body_name
  = match find_by_name s body_name with
    | Some b => Some b
    | None =>
        if String.eqb (name c) body_name then Some (length (heap s)) else None
    end.
Proof.
  intros Hwf. unfold find_by_name, added.
  cbn [bodies heap with_bodies with_heap]. rewrite find_snoc.
  rewrite lookup_total_app_r by lia. rewrite Nat.sub_diag.
  change ([c] !!! 0%nat) with c.
  rewrite (find_agree _ (λ b, String.eqb (name (heap s !!! b)) body_name));
    [reflexivity |].
  intros b Hb. rewrite lookup_total_app_l; [reflexivity |].
  pose proof (wf_refs _ Hwf) as Hrefs. rewrite Forall_forall in Hrefs.
  now apply Hrefs.
Qed.

Lemma get_orbital_elements_added (s : OrbitalSimulator) (c : CelestialBody)
    (body_name : string) :
  well_formed s ->
  get_orbital_elements (added c s) body_name
  = match find_by_name s body_name with
    | Some _ => get_orbital_elements s body_name
    | None =>
        if String.eqb (name c) body_name
        then Some <$> calculate_orbital_elements (position c) (velocity c)
                        (mass (heap s !!! sun s))
        else Ok None
    end.
Proof.
  intros Hwf. pose proof (well_formed_sun_allocated s Hwf) as Hsun.
  unfold get_orbital_elements. rewrite (find_by_name_added _ _ _ Hwf).
  change (sun (added c s)) with (sun s).
  change (heap (added c s)) with (heap s ++ [c]).
  rewrite (lookup_total_app_l (heap s) [c] (sun s)) by exact Hsun.
  destruct (find_by_name s body_name) as [b |] eqn:F.
  - assert (Hb : (b < length (heap s))%nat).
    { unfold find_by_name in F. apply find_some in F as [Hin _].
      apply list_elem_of_In in Hin.
      pose proof (wf_refs _ Hwf) as Hrefs. rewrite Forall_forall in Hrefs.
      now apply Hrefs. }
    now rewrite (lookup_total_app_l (heap s) [c] b) by exact Hb.
  - destruct (String.eqb (name c) body_name); [| reflexivity].
    case_decide; [lia |].
    rewrite lookup_total_app_r by lia. rewrite Nat.sub_diag.
    reflexivity.
Qed.

(** X24.  After [add_body] in a reachable state, a lookup by another
    name answers as before; a lookup by the name of the new body finds
    the new body when the name was free, and still answers for the older
    body of that name otherwise: the first body of a name shadows the
    later ones. *)
Theorem add_body_lookup (s : OrbitalSimulator) (n : string) (m : R)
    (p v : Vector3D) (r : R) (c : string) :
  reachable s ->
  let s' := state_after (add_body n m p v r c s) in
  (forall n', n' <> n -> get_orbital_elements s' n' = get_orbital_elements s n')
  /\ ((exists b, b ∈ bodies s /\ name (heap s !!! b) = n) ->
      get_orbital_elements s' n = get_orbital_elements s n)
  /\ ((forall b, b ∈ bodies s -> name (heap s !!! b) <> n) ->
      get_orbital_elements s' n
      = Some <$> calculate_orbital_elements p v SOLAR_MASS).
Proof.
  intros Hr s'. pose proof (reachable_well_formed s Hr) as Hwf.
  subst s'. rewrite add_body_run. cbn [state_after].
  fold (added (CelestialBody_init n m p v r c) s).
  split; [| split].
  - intros n' Hne. rewrite (get_orbital_elements_added _ _ _ Hwf).
    destruct (find_by_name s n') as [b |] eqn:F; [reflexivity |].
    cbn [CelestialBody_init name].
    destruct (String.eqb_spec n n') as [-> | _]; [contradiction |].
    unfold get_orbital_elements. now rewrite F.
  - intros (b & Hb & Hname).
    rewrite (get_orbital_elements_added _ _ _ Hwf).
    destruct (find_by_name_Some s n b Hb Hname) as (b' & -> & _).
    reflexivity.
  - intros Hfree. rewrite (get_orbital_elements_added _ _ _ Hwf).
    rewrite (find_by_name_None _ _ Hfree).
    cbn [CelestialBody_init name position velocity].
    rewrite String.eqb_refl, (wf_sun_cell _ Hwf). reflexivity.
Qed.

Lemma add_body_lookup_witness :
  get_orbital_elements
    (state_after (add_body "Earth" 5.972e24 (Vec3 AU 0 0) (Vec3 0 29780 0)
                           6.371e6 "#0000ff" fresh_simulator)) "Earth"
  = Some <$> calculate_orbital_elements (Vec3 AU 0 0) (Vec3 0 29780 0)
               SOLAR_MASS.
Proof.
  apply (add_body_lookup fresh_simulator "Earth" 5.972e24 (Vec3 AU 0 0)
           (Vec3 0 29780 0) 6.371e6 "#0000ff" (reach_init _ _)).
  intros b Hb. cbn [fresh_simulator OrbitalSimulator_init bodies heap] in *.
  apply list_elem_of_singleton in Hb as ->. cbn. discriminate.
Defined.

(** X25.  A body seeded by [add_body_from_parameters] under a free name,
    at a positive distance [d] (in astronomical units) and with the
    circular speed for that distance, is reported by
    [get_orbital_elements] on a circular orbit of radius [d * AU]
    whatever the angle it was seeded at. *)
Theorem seeded_circular_orbit (s : OrbitalSimulator) (n : string)
    (m d v angle r : R) (c : string) :
  reachable s ->
  (forall b, b ∈ bodies s -> name (heap s !!! b) <> n) ->
  0 < d ->
  v ^ 2 = G * SOLAR_MASS / (d * AU) ->
  exists el,
    get_orbital_elements
      (state_after (add_body_from_parameters n m d v angle r c s)) n
    = Ok (Some el)
    /\ semi_major_axis el = d * AU
    /\ eccentricity el = 0
    /\ periapsis el = Some (d * AU)
    /\ apoapsis el = Some (d * AU)
    /\ period el = Finite (2 * PI * sqrt ((d * AU) ^ 3 / (G * SOLAR_MASS))).
Proof.
  intros Hr Hfree Hd Hv. pose proof (reachable_well_formed s Hr) as Hwf.
  assert (HAU : 0 < AU) by (unfold AU; lra).
  rewrite add_body_from_parameters_run, add_body_run. cbn [state_after].
  match goal with
  | |- context [CelestialBody_init n m ?p ?q r c] =>
      set (pos := p); set (vel := q);
      fold (added (CelestialBody_init n m pos vel r c) s)
  end.
  rewrite (get_orbital_elements_added _ _ _ Hwf).
  rewrite (find_by_name_None _ _ Hfree).
  cbn [CelestialBody_init name position velocity].
  rewrite String.eqb_refl, (wf_sun_cell _ Hwf).
  change (mass create_sun) with SOLAR_MASS.
  assert (Hpos : magnitude pos = d * AU).
  { unfold pos. rewrite magnitude_polar. apply Rabs_right. nra. }
  assert (Hvel : magnitude vel ^ 2 = G * SOLAR_MASS / magnitude pos).
  { rewrite Hpos. unfold vel. rewrite magnitude_polar, pow2_abs. exact Hv. }
  destruct (orbit_locals_circular pos vel SOLAR_MASS SOLAR_MASS_pos)
    as (l & Hl & Ha & He & _ & _ & Hper).
  { rewrite Hpos. nra. }
  { apply polar_perpendicular. }
  { exact Hvel. }
  unfold calculate_orbital_elements. rewrite (result_bind_Ok _ _ _ Hl).
  eexists. split; [reflexivity |].
  cbn [semi_major_axis eccentricity periapsis apoapsis period].
  rewrite Ha, He, Hper, Hpos.
  destruct (Rlt_dec 0 1); [| lra].
  repeat split; try reflexivity; f_equal; ring.
Qed.

Lemma seeded_circular_orbit_witness :
  exists el,
    get_orbital_elements
      (state_after
         (add_body_from_parameters "Earth" 5.972e24 1
            (sqrt (G * SOLAR_MASS / (1 * AU))) 30 6.371e6 "#0000ff"
            fresh_simulator)) "Earth"
    = Ok (Some el)
    /\ semi_major_axis el = 1 * AU
    /\ eccentricity el = 0.
Proof.
  destruct (seeded_circular_orbit fresh_simulator "Earth" 5.972e24 1
              (sqrt (G * SOLAR_MASS / (1 * AU))) 30 6.371e6 "#0000ff"
              (reach_init _ _))
    as (el & Hel & Ha & He & _).
  - intros b Hb. cbn [fresh_simulator OrbitalSimulator_init bodies heap] in *.
    apply list_elem_of_singleton in Hb as ->. cbn. discriminate.
  - lra.
  - apply pow2_sqrt.
    pose proof G_pos. pose proof SOLAR_MASS_pos.
    assert (0 < 1 * AU) by (unfold AU; lra).
    apply Rmult_le_pos; [nra |]. left. now apply Rinv_0_lt_compat.
  - exists el. auto.
Defined.

(** ** A step that raises, and the history *)

Lemma masses_decidable (s : OrbitalSimulator) :
  nonzero_masses s
  \/ exists b, b ∈ bodies s /\ b <> sun s /\ mass (heap s !!! b) = 0.
Proof.
  unfold nonzero_masses.
  induction (bodies s) as [| body l IH].
  - left. intros b Hb. now apply elem_of_nil in Hb.
  - destruct IH as [IH | (b & Hb & Hne & Hm)].
    + destruct (decide (body = sun s)) as [Hsun | Hsun].
      * left. intros b [-> | Hb]%elem_of_cons; [contradiction | auto].
      * destruct (Req_dec_T (mass (heap s !!! body)) 0) as [Hz | Hnz].
        -- right. exists body. split; [left | auto].
        -- left. intros b [-> | Hb]%elem_of_cons; auto.
    + right. exists b. split; [now right | auto].
Qed.

(** Whatever its outcome, the first loop assigns accelerations only. *)
Lemma first_loop_state (s : OrbitalSimulator) (l : list ref) :
  forall h,
    same_but_acceleration (heap s) h ->
    exists h',
      state_after (for_each l step_accelerate (with_heap h s)) = with_heap h' s
      /\ same_but_acceleration (heap s) h'.
Proof.
  induction l as [| body l IH]; intros h Hsame.
  - exists h. split; [reflexivity | exact Hsame].
  - cbn [for_each]. rewrite state_after_bind.
    destruct (decide (body = sun s)) as [-> | Hsun].
    + pose proof (step_accelerate_sun (with_heap h s)) as Hs.
      change (sun (with_heap h s)) with (sun s) in Hs. rewrite Hs.
      cbn [outcome state_after]. now apply IH.
    + destruct (Req_dec_T (mass (h !!! body)) 0) as [Hz | Hnz].
      * rewrite (step_accelerate_raise body (with_heap h s)) by assumption.
        cbn [outcome state_after]. now exists h.
      * rewrite (step_accelerate_run body (with_heap h s)) by assumption.
        cbn [outcome state_after heap with_heap bodies].
        match goal with
        | |- context [with_heap ?h1 (with_heap h s)] =>
            change (with_heap h1 (with_heap h s)) with (with_heap h1 s);
            apply (IH h1)
        end.
        now apply same_but_acceleration_store.
Qed.

Lemma step_failure (s : OrbitalSimulator) :
  is_running s = true ->
  (exists b, b ∈ bodies s /\ b <> sun s /\ mass (heap s !!! b) = 0) ->
  outcome (step s) = Raise ZeroDivisionError
  /\ exists h',
      state_after (step s) = with_heap h' s
      /\ same_but_acceleration (heap s) h'.
Proof.
  intros Hrun Hzero. split; [now apply step_raises_on_zero_mass |].
  destruct (first_loop_state s (bodies s) (heap s)
              (same_but_acceleration_refl _)) as (h' & Hst & Hsame).
  rewrite with_heap_same in Hst.
  exists h'. split; [| exact Hsame].
  unfold step. rewrite state_after_bind.
  cbn [get outcome state_after]. rewrite Hrun. cbn [negb].
  rewrite state_after_bind.
  now rewrite (first_loop_raises _ _ Hzero).
Qed.

(** X26.  A running step of a reachable simulator returns exactly when
    no body other than the central one has a zero mass; otherwise it
    raises [ZeroDivisionError], and then nothing but accelerations was
    assigned: the time, the history, the body list and the position,
    velocity, mass and trajectory of every object are as before. *)
Theorem step_returns_iff_nonzero_masses (s : OrbitalSimulator) :
  reachable s ->
  is_running s = true ->
  let s' := state_after (step s) in
  (outcome (step s) = Ok tt <-> nonzero_masses s)
  /\ (outcome (step s) <> Ok tt ->
      outcome (step s) = Raise ZeroDivisionError
      /\ time s' = time s
      /\ trajectory_history s' = trajectory_history s
      /\ bodies s' = bodies s
      /\ forall r,
          position (heap s' !!! r) = position (heap s !!! r)
          /\ velocity (heap s' !!! r) = velocity (heap s !!! r)
          /\ mass (heap s' !!! r) = mass (heap s !!! r)
          /\ trajectory (heap s' !!! r) = trajectory (heap s !!! r)).
Proof.
  intros Hr Hrun s'. pose proof (reachable_well_formed s Hr) as Hwf.
  destruct (masses_decidable s) as [Hnz | Hzero].
  - destruct (step_effect s Hwf Hrun Hnz) as (Hok & _).
    split; [split; auto |]. intros Hne. contradiction.
  - destruct (step_failure s Hrun Hzero) as (Hraise & h' & Hst & Hsame).
    split.
    + split; [rewrite Hraise; discriminate |].
      intros Hnz. destruct Hzero as (b & Hb & Hne & Hm).
      now destruct (Hnz b Hb Hne).
    + intros _. subst s'. rewrite Hst.
      cbn [with_heap time trajectory_history bodies heap].
      split; [exact Hraise |]. split; [reflexivity |].
      split; [reflexivity |]. split; [reflexivity |].
      intros r.
      split; [now apply same_but_acceleration_position |].
      split; [now apply same_but_acceleration_velocity |].
      split; [now apply same_but_acceleration_mass |].
      now apply same_but_acceleration_trajectory.
Qed.

(** A running simulator with a body of mass zero. *)
Definition massless_simulator : OrbitalSimulator :=
  state_after
    (start
       (state_after
          (add_body "Probe" 0 (Vec3 AU 0 0) (Vec3 0 29780 0) 1 "#ffffff"
                    fresh_simulator))).

Lemma step_returns_iff_nonzero_masses_witness :
  outcome (step massless_simulator) = Raise ZeroDivisionError
  /\ time (state_after (step massless_simulator)) = time massless_simulator.
Proof.
  assert (Hr : reachable massless_simulator)
    by apply reach_start, reach_add_body, reach_init.
  destruct (step_returns_iff_nonzero_masses massless_simulator Hr eq_refl)
    as [Hiff Hfail].
  assert (Hne : outcome (step massless_simulator) <> Ok tt).
  { intros Hok. apply Hiff in Hok. unfold nonzero_masses in Hok.
    apply (Hok 1%nat); [right; left | discriminate | reflexivity]. }
  destruct (Hfail Hne) as (H1 & H2 & _). auto.
Defined.

Lemma movers_tail (s : OrbitalSimulator) :
  well_formed s -> movers s (bodies s) = tail (bodies s).
Proof.
  intros Hwf. destruct (wf_first _ Hwf) as [rest Hb].
  pose proof (wf_nodup _ Hwf) as Hnd. rewrite Hb in Hnd |- *.
  apply NoDup_cons in Hnd as [Hnotin _].
  unfold movers. rewrite filter_cons_False by auto. cbn [tail].
  clear Hb. revert Hnotin.
  induction rest as [| b rest IH]; intros Hnotin; [reflexivity |].
  rewrite filter_cons_True by (intros ->; apply Hnotin; left).
  f_equal. apply IH. intros Hin. apply Hnotin. now right.
Qed.

Lemma history_bounded (s : OrbitalSimulator) :
  reachable s -> (length (trajectory_history s) <= 1000)%nat.
Proof.
  induction 1 as [ts sm | s n m p v r c _ IH | s n m d v a r c _ IH
                  | s _ IH | s _ IH | s _ IH | s Hr IH].
  - cbn. lia.
  - rewrite add_body_run. exact IH.
  - rewrite add_body_from_parameters_run, add_body_run. exact IH.
  - exact IH.
  - exact IH.
  - rewrite reset_run. cbn. lia.
  - pose proof (reachable_well_formed s Hr) as Hwf.
    destruct (is_running s) eqn:Hrun.
    + destruct (masses_decidable s) as [Hnz | Hzero].
      * destruct (step_run s Hwf Hrun Hnz) as (h1 & h2 & _ & _ & _ & _ & Hstep).
        rewrite Hstep. cbn [state_after trajectory_history with_trajectory_history].
        rewrite (wf_cap _ Hwf).
        rewrite push_window_length by (exact IH || lia).
        case_decide; lia.
      * destruct (step_failure s Hrun Hzero) as (_ & h' & -> & _). exact IH.
    + now rewrite (step_stopped s Hrun).
Qed.

(** X27.  The history of a reachable simulator holds at most 1000
    snapshots.  A running step that returns records one snapshot, after
    dropping the oldest when 1000 are held: it carries the new time and
    the dictionaries that [get_state] then reports, without the first
    one, which is that of the central body. *)
Theorem history_is_sliding_window (s : OrbitalSimulator) :
  reachable s ->
  (length (trajectory_history s) <= 1000)%nat
  /\ (is_running s = true ->
      nonzero_masses s ->
      let s' := state_after (step s) in
      trajectory_history s'
      = push_window 1000 (trajectory_history s) (snapshot s')
      /\ snap_time (snapshot s') = time s + time_step s * speed_multiplier s
      /\ snap_time (snapshot s') = st_time (get_state s')
      /\ snap_bodies (snapshot s') = tail (st_bodies (get_state s'))
      /\ head (st_bodies (get_state s')) = Some (to_dict create_sun)).
Proof.
  intros Hr. split; [now apply history_bounded |].
  intros Hrun Hnz s'.
  pose proof (reachable_well_formed s Hr) as Hwf.
  assert (Hwf' : well_formed s') by apply reachable_well_formed, reach_step, Hr.
  assert (Hsnap : snap_bodies (snapshot s') = tail (st_bodies (get_state s'))).
  { unfold snapshot, get_state. cbn [snap_bodies st_bodies].
    fold (movers s' (bodies s')). rewrite (movers_tail _ Hwf').
    now destruct (bodies s'). }
  assert (Hhead : head (st_bodies (get_state s')) = Some (to_dict create_sun)).
  { unfold get_state. cbn [st_bodies].
    destruct (wf_first _ Hwf') as [rest ->]. cbn [fmap list_fmap head].
    now rewrite (wf_sun_cell _ Hwf'). }
  revert Hsnap Hhead.
  destruct (step_run s Hwf Hrun Hnz) as (h1 & h2 & _ & _ & _ & _ & Hstep).
  subst s'. rewrite Hstep. cbn [state_after]. rewrite (wf_cap _ Hwf).
  intros Hsnap Hhead.
  split; [reflexivity |]. split; [reflexivity |]. split; [reflexivity |].
  split; assumption.
Qed.

Lemma history_is_sliding_window_witness :
  trajectory_history (state_after (step earth_simulator))
  = push_window 1000 (trajectory_history earth_simulator)
      (snapshot (state_after (step earth_simulator))).
Proof.
  apply (proj2 (history_is_sliding_window earth_simulator
                  earth_simulator_reachable) eq_refl
           earth_simulator_nonzero_masses).
Defined.

(** ** Energy report *)

Lemma energy_fold (s : OrbitalSimulator) (n : string) (l : list ref) :
  forall acc : gmap string EnergyReport,
    fold_left
      (λ analysis body,
         if decide (body = sun s) then analysis
         else <[name (heap s !!! body) := energy_report s body]> analysis)
      l acc !! n
    = match last (filter (λ b, b <> sun s /\ name (heap s !!! b) = n) l) with
      | Some b => Some (energy_report s b)
      | None => acc !! n
      end.
Proof.
  induction l as [| body l IH]; intros acc; [reflexivity |].
  cbn [fold_left]. rewrite IH.
  destruct (decide (body <> sun s /\ name (heap s !!! body) = n))
    as [[Hne Hname] | Hnot].
  - rewrite filter_cons_True by auto. rewrite last_cons.
    destruct (last _); [reflexivity |].
    case_decide; [contradiction |].
    rewrite Hname. now rewrite lookup_insert_eq.
  - rewrite filter_cons_False by exact Hnot.
    destruct (last _); [reflexivity |].
    case_decide; [reflexivity |].
    apply lookup_insert_ne. intros Hname. apply Hnot. auto.
Qed.

(** X28.  [get_energy_analysis] has one entry for each name carried by a
    body other than the central one; when several bodies share a name
    the entry is that of the last one in the list, while
    [get_orbital_elements] answers for the first. *)
Theorem energy_analysis_lookup (s : OrbitalSimulator) (n : string) :
  get_energy_analysis s !! n
  = energy_report s
      <$> last (filter (λ b, b <> sun s /\ name (heap s !!! b) = n) (bodies s))
  /\ (get_energy_analysis s !! n = None <->
      forall b, b ∈ bodies s -> b <> sun s -> name (heap s !!! b) <> n).
Proof.
  assert (H : get_energy_analysis s !! n
              = energy_report s
                  <$> last (filter (λ b, b <> sun s /\ name (heap s !!! b) = n)
                                   (bodies s))).
  { unfold get_energy_analysis. rewrite energy_fold.
    destruct (last _); reflexivity. }
  split; [exact H |]. rewrite H, fmap_None, last_None. split.
  - intros Hnil b Hb Hne Hname.
    assert (Hin : b ∈ filter (λ b, b <> sun s /\ name (heap s !!! b) = n)
                         (bodies s))
      by (apply list_elem_of_filter; auto).
    rewrite Hnil in Hin. now apply elem_of_nil in Hin.
  - intros Hall.
    destruct (filter _ (bodies s)) as [| b l] eqn:F; [reflexivity |].
    assert (Hin : b ∈ filter (λ b, b <> sun s /\ name (heap s !!! b) = n)
                         (bodies s))
      by (rewrite F; left).
    apply list_elem_of_filter in Hin as [[Hne Hname] Hb].
    now destruct (Hall b Hb Hne).
Qed.

(** ** The trajectory endpoint *)

Lemma from_dict_to_dict (v : Vector3D) :
  Vector3D_from_dict (Vector3D_to_dict v) = v.
Proof.
  unfold Vector3D_from_dict, Vector3D_to_dict.
  rewrite lookup_insert_eq.
  rewrite (lookup_insert_ne _ "x" "y") by done. rewrite lookup_insert_eq.
  rewrite (lookup_insert_ne _ "x" "z") by done.
  rewrite (lookup_insert_ne _ "y" "z") by done. rewrite lookup_insert_eq.
  now destruct v.
Qed.

(** X29.  In a reachable state the trajectory endpoint answers 404
    exactly when no body of the list has the requested name; unlike
    [get_orbital_elements] it finds the central body, whose trajectory is
    empty; otherwise it echoes the name and returns the points of the
    first body of that name, at most 1000, each as a dictionary that
    [from_dict] reads back, with their count. *)
Theorem get_trajectory_found (s : OrbitalSimulator) (body_name : string) :
  reachable s ->
  (get_trajectory s body_name = None <->
   forall b, b ∈ bodies s -> name (heap s !!! b) <> body_name)
  /\ get_trajectory s "Sun" = Some ("Sun", [], 0%nat)
  /\ (forall n' points count,
         get_trajectory s body_name = Some (n', points, count) ->
         n' = body_name
         /\ count = length points
         /\ (count <= 1000)%nat
         /\ exists body,
             find_by_name s body_name = Some body
             /\ body ∈ bodies s
             /\ Vector3D_from_dict <$> points = trajectory (heap s !!! body)).
Proof.
  intros Hr. pose proof (reachable_well_formed s Hr) as Hwf.
  split; [| split].
  - unfold get_trajectory. split.
    + intros Hnone b Hb Hname.
      destruct (find_by_name_Some s body_name b Hb Hname) as (b' & Hf & _).
      rewrite Hf in Hnone. discriminate.
    + intros Hall. now rewrite (find_by_name_None _ _ Hall).
  - unfold get_trajectory, find_by_name.
    destruct (wf_first _ Hwf) as [rest ->]. cbn [List.find].
    rewrite (wf_sun_cell _ Hwf).
    change (String.eqb (name create_sun) "Sun") with true. cbv iota.
    rewrite (wf_sun_cell _ Hwf). reflexivity.
  - intros n' points count. unfold get_trajectory.
    destruct (find_by_name s body_name) as [body |] eqn:F; [| discriminate].
    intros [= <- <- <-].
    split; [reflexivity |]. split; [reflexivity |].
    split; [rewrite length_fmap; apply (wf_trajectory _ Hwf) |].
    exists body. split; [reflexivity |]. split.
    + unfold find_by_name in F. apply find_some in F as [Hin _].
      now apply list_elem_of_In.
    + rewrite <- list_fmap_compose.
      transitivity ((λ v : Vector3D, v) <$> trajectory (heap s !!! body));
        [| apply list_fmap_id].
      apply list_fmap_ext. intros i v _. apply from_dict_to_dict.
Qed.

Lemma get_trajectory_found_witness :
  get_trajectory earth_simulator "Sun" = Some ("Sun", [], 0%nat).
Proof.
  apply (get_trajectory_found earth_simulator "Sun" earth_simulator_reachable).
Defined.

(** ** One body around the Sun *)

(** With the Sun at the origin as the only other body, the acceleration
    of a body is along its position vector. *)
Lemma central_acceleration (h : list CelestialBody) (b c : ref) :
  c <> b ->
  position (h !!! c) = Vec3 0 0 0 ->
  exists k, acceleration_of h b [c; b] = (position (h !!! b) * k)%V.
Proof.
  intros Hne Hc. unfold acceleration_of, net_force. cbn [sum_forces].
  case_decide; [contradiction |].
  destruct (Rlt_dec (magnitude (position (h !!! c) - position (h !!! b))) 1e-6)
    as [Hlt | Hge].
  - rewrite (force_below_epsilon _ _ Hlt). cbn [mbind result_bind].
    case_decide; [| congruence].
    exists 0. apply Vec3_eq; cbn; unfold Rdiv; ring.
  - rewrite (force_above_epsilon _ _ Hge). cbn [mbind result_bind].
    case_decide; [| congruence]. rewrite Hc.
    set (r := magnitude (Vec3 0 0 0 - position (h !!! b))).
    exists (- (/ r * (G * mass (h !!! b) * mass (h !!! c) / (r * r))
               * / mass (h !!! b))).
    apply Vec3_eq; cbn; unfold Rdiv; ring.
Qed.

(** A running step of a simulator that holds the Sun and one body. *)
Lemma two_body_step_run (s : OrbitalSimulator) (b : ref) :
  well_formed s ->
  is_running s = true ->
  bodies s = [sun s; b] ->
  mass (heap s !!! b) <> 0 ->
  let dt := time_step s * speed_multiplier s in
  let b1 := with_acceleration (acceleration_of (heap s) b [sun s; b])
                              (heap s !!! b) in
  let h1 := <[b := b1]> (heap s) in
  let a1 := acceleration_of
              (<[b := with_position (advanced_position dt b1) b1]> h1)
              b [sun s; b] in
  outcome (step s) = Ok tt
  /\ heap (state_after (step s)) !!! b
     = advanced dt (max_trajectory_points s) a1 b1.
Proof.
  intros Hwf Hrun Hb Hm dt b1 h1 a1.
  assert (Hcap : (0 < max_trajectory_points s)%nat)
    by (rewrite (wf_cap _ Hwf); lia).
  assert (Hne : b <> sun s).
  { pose proof (wf_nodup _ Hwf) as Hnd. rewrite Hb in Hnd.
    apply NoDup_cons in Hnd as [Hnotin _].
    intros ->. apply Hnotin. left. }
  assert (Hlt : (b < length (heap s))%nat).
  { pose proof (wf_refs _ Hwf) as Hrefs. rewrite Hb, Forall_forall in Hrefs.
    apply Hrefs. right. left. }
  assert (Hb1 : h1 !!! b = b1)
    by (apply list_lookup_total_insert_eq; exact Hlt).
  assert (Hfirst : for_each [sun s; b] step_accelerate s
                   = MkRun (Ok tt) (with_heap h1 s)
                       [AccelEval b (positions_of (heap s) (bodies s))]).
  { cbn [for_each].
    eapply (bind_run _ _ _ _ _ _ [] [_]); [apply step_accelerate_sun |].
    cbn beta.
    eapply (bind_run _ _ _ _ _ _ [_] []);
      [apply step_accelerate_run; assumption |].
    rewrite Hb. reflexivity. }
  assert (Hsecond : exists evs,
             for_each [sun s; b] (step_advance dt) (with_heap h1 s)
             = MkRun (Ok tt)
                 (with_heap
                    (<[b := advanced dt (max_trajectory_points s) a1 b1]> h1) s)
                 evs).
  { eexists. cbn [for_each].
    eapply (bind_run _ _ _ _ _ _ [] _);
      [apply (step_advance_sun dt (with_heap h1 s)) |].
    cbn beta.
    eapply (bind_run _ _ _ _ _ _ _ []).
    - rewrite (step_advance_run dt b (with_heap h1 s)); cycle 1.
      { exact Hne. }
      { cbn [heap with_heap]. rewrite Hb1. exact Hm. }
      { cbn [heap with_heap]. unfold h1. now rewrite length_insert. }
      { exact Hcap. }
      cbn [heap with_heap bodies max_trajectory_points].
      rewrite Hb1, Hb. fold a1.
      change (with_heap ?h (with_heap h1 s)) with (with_heap h s).
      reflexivity.
    - reflexivity. }
  destruct Hsecond as [evs Hsecond].
  assert (Hstep : exists evs' s',
             step s = MkRun (Ok tt) s' evs'
             /\ heap s'
                = <[b := advanced dt (max_trajectory_points s) a1 b1]> h1).
  { eexists _, _. split.
    - unfold step.
      eapply bind_run; [reflexivity |]. cbn beta. rewrite Hrun. cbn [negb].
      rewrite Hb.
      eapply bind_run; [exact Hfirst |]. cbn beta.
      eapply bind_run; [exact Hsecond |]. cbn beta.
      eapply bind_run; [reflexivity |]. cbn beta.
      apply store_state_run. exact Hcap.
    - reflexivity. }
  destruct Hstep as (evs' & s' & -> & Hheap).
  cbn [outcome state_after]. split; [reflexivity |].
  rewrite Hheap. apply list_lookup_total_insert_eq.
  unfold h1. now rewrite length_insert.
Qed.

(** X30.  In a running simulator that holds the Sun and a single body
    of non-zero mass, a step returns and leaves the angular momentum per
    unit mass of the body about the Sun, [position x velocity], exactly
    as it was: both velocity updates add a multiple of the position the
    body has at that moment. *)
Theorem two_body_step_conserves_angular_momentum (s : OrbitalSimulator)
    (b : ref) :
  reachable s ->
  is_running s = true ->
  bodies s = [sun s; b] ->
  mass (heap s !!! b) <> 0 ->
  let s' := state_after (step s) in
  outcome (step s) = Ok tt
  /\ cross (position (heap s' !!! b)) (velocity (heap s' !!! b))
     = cross (position (heap s !!! b)) (velocity (heap s !!! b)).
Proof.
  intros Hr Hrun Hb Hm s'. pose proof (reachable_well_formed s Hr) as Hwf.
  destruct (two_body_step_run s b Hwf Hrun Hb Hm) as [Hok Hcell].
  split; [exact Hok |]. subst s'. rewrite Hcell. clear Hcell Hok.
  assert (Hne : sun s <> b).
  { pose proof (wf_nodup _ Hwf) as Hnd. rewrite Hb in Hnd.
    apply NoDup_cons in Hnd as [Hnotin _].
    intros <-. apply Hnotin. left. }
  assert (Hlt : (b < length (heap s))%nat).
  { pose proof (wf_refs _ Hwf) as Hrefs. rewrite Hb, Forall_forall in Hrefs.
    apply Hrefs. right. left. }
  assert (Hsun : position (heap s !!! sun s) = Vec3 0 0 0)
    by now rewrite (wf_sun_cell _ Hwf).
  destruct (central_acceleration (heap s) b (sun s) Hne Hsun) as [k0 Hk0].
  rewrite Hk0.
  set (dt := time_step s * speed_multiplier s).
  set (b1 := with_acceleration (position (heap s !!! b) * k0)%V (heap s !!! b)).
  set (h2 := <[b := with_position (advanced_position dt b1) b1]>
               (<[b := b1]> (heap s))).
  assert (Hsun2 : position (h2 !!! sun s) = Vec3 0 0 0).
  { unfold h2. now rewrite !list_lookup_total_insert_ne by auto. }
  destruct (central_acceleration h2 b (sun s) Hne Hsun2) as [k1 Hk1].
  rewrite Hk1.
  assert (Hb2 : h2 !!! b = with_position (advanced_position dt b1) b1).
  { unfold h2. apply list_lookup_total_insert_eq. now rewrite length_insert. }
  rewrite Hb2.
  unfold advanced, advanced_position, half_velocity, b1.
  cbn [position velocity acceleration with_position with_acceleration].
  apply Vec3_eq; cbn; ring.
Qed.

Lemma two_body_step_conserves_angular_momentum_witness :
  cross (position (heap (state_after (step earth_simulator)) !!! 1%nat))
        (velocity (heap (state_after (step earth_simulator)) !!! 1%nat))
  = cross (Vec3 AU 0 0) (Vec3 0 29780 0).
Proof.
  apply (two_body_step_conserves_angular_momentum earth_simulator 1%nat
           earth_simulator_reachable eq_refl eq_refl).
  change (heap earth_simulator !!! 1%nat) with earth.
  unfold earth, CelestialBody_init. cbn [mass]. lra.
Defined.
